(** * getdocs2ts: the getdocs type-annotation parser

    A shallow embedding of [src/getdocs/parser.ts], the recursive-descent
    parser that turns a getdocs type annotation such as
    [(a, ?b) → union<c, d>] into a tree of type nodes, together with the
    properties of that parser.

    The parser pulls its tokens from a scanner object ([./scanner]) and
    guards some entry points with [invariant] ([../invariant]).  Both are
    modelled in [Module Scanner] and [invariant] below; the parser itself
    is transcribed function by function.

    Conventions of the embedding:
    - a JavaScript string is a [string]; the input text is taken in its
      UTF-8 encoding, so that the arrow character U+2192 is the three
      bytes 226, 134, 146;
    - an exception is the [Err] case of [Res]; the mutable variables of
      the [parse] closure ([scanner] and [token]) are threaded explicitly
      as a [PState];
    - the recursion of [parseType] and the two [while] loops take a fuel
      argument; [parse] supplies more fuel than the text has characters,
      which is shown to be always enough. *)

From Stdlib Require Import String Ascii List Bool Arith Lia.
Import ListNotations.
Local Open Scope string_scope.
Local Open Scope list_scope.

(** ** Token kinds *)

(** Modelled from the spec: the enumeration [SyntaxKind] of [./scanner],
    with the members that [parser.ts] names and the dedicated end token
    that [scan] returns when the input is exhausted. *)
Inductive SyntaxKind : Type :=
| EndOfFileToken
| Identifier
| StringLiteral
| NumberLiteral
| QuestionToken
| DotToken
| DotDotDotToken
| CommaToken
| ColonToken
| OpenParenToken
| CloseParenToken
| OpenBracketToken
| CloseBracketToken
| OpenBraceToken
| CloseBraceToken
| LessThanToken
| GreaterThanToken
| RightArrowToken
| AsteriskToken
| AnyKeyword
| UnionKeyword.

Scheme Equality for SyntaxKind.

(** ** Errors and results *)

(** What a [throw] carries.  The two messages of [parser.ts] are
    [`Unable to parse token ${token}`] and
    [`Expected to parse ${kind} but found ${token}`]; the constructors keep
    the token kinds that the messages interpolate.  [LexicalError] is the
    scanner's error, with the offending character, and
    [InvariantViolation] the one of a failed [invariant].  [OutOfFuel]
    belongs to the embedding only. *)
Inductive Error : Type :=
| LexicalError (c : ascii)
| InvariantViolation
| UnableToParseToken (token : SyntaxKind)
| ExpectedButFound (kind token : SyntaxKind)
| OutOfFuel.

Inductive Res (A : Type) : Type :=
| Ok (a : A)
| Err (e : Error).

Arguments Ok {A} a.
Arguments Err {A} e.

(** ** The scanner

    [./scanner] is used by [parser.ts] through [createScanner], [scan],
    [getTokenValue] and [lookAhead].  The module below models it from its
    description: the token kinds it distinguishes, white space between
    tokens, literal values, the end token, the lexical error, and a
    look-ahead that always rolls back. *)

Module Scanner.

(** Modelled from the spec: the character classes of the scanner: white
    space, decimal digits, and the characters of an identifier. *)
Definition isWhiteSpace (c : ascii) : bool :=
  (Ascii.eqb c " " || Ascii.eqb c "009" || Ascii.eqb c "010" || Ascii.eqb c "013")%char.

Definition isDigit (c : ascii) : bool :=
  ((48 <=? nat_of_ascii c) && (nat_of_ascii c <=? 57))%nat.

Definition isIdentifierStart (c : ascii) : bool :=
  let n := nat_of_ascii c in
  ((65 <=? n) && (n <=? 90))%nat || ((97 <=? n) && (n <=? 122))%nat
  || Ascii.eqb c "_"%char || Ascii.eqb c "$"%char.

Definition isIdentifierPart (c : ascii) : bool :=
  isIdentifierStart c || isDigit c.

(** Modelled from the spec: [scan] first advances past white space. *)
Fixpoint skipWhiteSpace (s : string) : string :=
  match s with
  | String c s' => if isWhiteSpace c then skipWhiteSpace s' else s
  | EmptyString => EmptyString
  end.

(** Modelled from the spec: the longest prefix of [s] whose characters
    satisfy [p], and what follows it; the body of an identifier or of a
    number. *)
Fixpoint scanWhile (p : ascii -> bool) (s : string) : string * string :=
  match s with
  | String c s' =>
      if p c then let (w, r) := scanWhile p s' in (String c w, r)
      else (EmptyString, s)
  | EmptyString => (EmptyString, EmptyString)
  end.

(** Modelled from the spec: the delimiter of a string literal, and the
    character that escapes it. *)
Definition doubleQuote : ascii := "034"%char.
Definition backslash : ascii := "092"%char.

(** Modelled from the spec: the body of a string literal, after its
    opening quote: the decoded contents up to the closing quote and what
    follows that quote.  A backslash makes the next character part of the
    contents, which is how the quote delimiter itself is written inside a
    literal.  [None] when the text ends before the closing quote. *)
Fixpoint scanStringBody (s : string) : option (string * string) :=
  match s with
  | EmptyString => None
  | String c s' =>
      if Ascii.eqb c doubleQuote then Some (EmptyString, s')
      else if Ascii.eqb c backslash then
        match s' with
        | EmptyString => None
        | String c' s'' =>
            match scanStringBody s'' with
            | Some (w, r) => Some (String c' w, r)
            | None => None
            end
        end
      else
        match scanStringBody s' with
        | Some (w, r) => Some (String c w, r)
        | None => None
        end
  end.

(** Modelled from the spec: the punctuation tokens of one character.  [.]
    and the arrow are scanned apart, since they take more than one
    character into account. *)
Definition punctuation : list (ascii * SyntaxKind) :=
  [ ("?", QuestionToken); (",", CommaToken); (":", ColonToken);
    ("(", OpenParenToken); (")", CloseParenToken);
    ("[", OpenBracketToken); ("]", CloseBracketToken);
    ("{", OpenBraceToken); ("}", CloseBraceToken);
    ("<", LessThanToken); (">", GreaterThanToken);
    ("*", AsteriskToken) ]%char.

(** Modelled from the spec: the kind of the punctuation character [c]. *)
Fixpoint lookupPunctuation (c : ascii) (table : list (ascii * SyntaxKind))
  : option SyntaxKind :=
  match table with
  | (c', k) :: table' => if Ascii.eqb c c' then Some k else lookupPunctuation c table'
  | [] => None
  end.

(** Modelled from the spec: [any] and [union] are keywords, every other
    word is an identifier. *)
Definition keywordOrIdentifier (w : string) : SyntaxKind :=
  if String.eqb w "any" then AnyKeyword
  else if String.eqb w "union" then UnionKeyword
  else Identifier.

(** Modelled from the spec: what is left of [s] after the prefix [p], when
    [s] starts with [p]; used for the lexemes of several characters. *)
Fixpoint stripPrefix (p s : string) : option string :=
  match p with
  | EmptyString => Some s
  | String a p' =>
      match s with
      | String b s' => if Ascii.eqb a b then stripPrefix p' s' else None
      | EmptyString => None
      end
  end.

(** Modelled from the spec: the bytes that follow 226 in the UTF-8
    encoding of the return-type arrow U+2192. *)
Definition arrowTail : string := String "134" (String "146" EmptyString).

(** Modelled from the spec: one lexeme, whose first character is [c] and
    which continues into [s'] (white space has been skipped): its kind, its
    literal value when it is an identifier, a string or a number, and the
    text left after it. *)
Definition scanLexeme (c : ascii) (s' : string)
  : Res (SyntaxKind * option string * string) :=
  if Ascii.eqb c "."%char then
    match stripPrefix ".." s' with
    | Some r => Ok (DotDotDotToken, None, r)
    | None => Ok (DotToken, None, s')
    end
  else if Ascii.eqb c "226"%char then
    match stripPrefix arrowTail s' with
    | Some r => Ok (RightArrowToken, None, r)
    | None => Err (LexicalError c)
    end
  else if Ascii.eqb c doubleQuote then
    match scanStringBody s' with
    | Some (w, r) => Ok (StringLiteral, Some w, r)
    | None => Err (LexicalError c)
    end
  else if isDigit c then
    let (w, r) := scanWhile isDigit s' in Ok (NumberLiteral, Some (String c w), r)
  else if isIdentifierStart c then
    let (w, r) := scanWhile isIdentifierPart s' in
    match keywordOrIdentifier (String c w) with
    | Identifier => Ok (Identifier, Some (String c w), r)
    | k => Ok (k, None, r)
    end
  else
    match lookupPunctuation c punctuation with
    | Some k => Ok (k, None, s')
    | None => Err (LexicalError c)
    end.

(** Modelled from the spec: the state of a scanner object, which is the
    cursor, given as the text not yet read, the kind of the current token
    ([None] before the first [scan]) and the value of the last identifier,
    string or number scanned. *)
Record t : Type := mk {
  text : string;
  token : option SyntaxKind;
  tokenValue : string
}.

(** Modelled from the spec: [createScanner] of [./scanner], which
    initialises the scanner once on the annotation text. *)
Definition createScanner (input : string) : t :=
  {| text := input; token := None; tokenValue := EmptyString |}.

(** Modelled from the spec: [scan] of [./scanner].  It advances past white
    space, classifies the next lexeme and returns its kind; the literal
    value of an identifier, string or number stays retrievable; the end of
    the input gives the end token; a character that starts no token raises
    a lexical error naming it. *)
Definition scan (s : t) : Res (SyntaxKind * t) :=
  match skipWhiteSpace (text s) with
  | EmptyString =>
      Ok (EndOfFileToken,
          {| text := EmptyString; token := Some EndOfFileToken;
             tokenValue := tokenValue s |})
  | String c s' =>
      match scanLexeme c s' with
      | Ok (k, v, r) =>
          Ok (k, {| text := r; token := Some k;
                    tokenValue := match v with
                                  | Some w => w
                                  | None => tokenValue s
                                  end |})
      | Err e => Err e
      end
  end.

(** Modelled from the spec: [getTokenValue] of [./scanner], the decoded
    literal text of the most recently scanned identifier, string or
    number token. *)
Definition getTokenValue (s : t) : string := tokenValue s.

(** Modelled from the spec: [lookAhead] of [./scanner].  It runs the
    callback, which may call [scan] any number of times, and then restores
    the scanner to the snapshot taken before the call, whatever the
    callback answered; it returns the callback's answer.  An error raised
    by the callback is raised by [lookAhead]. *)
Definition lookAhead {A : Type} (callback : t -> Res (A * t)) (s : t)
  : Res (A * t) :=
  match callback s with
  | Ok (a, _) => Ok (a, s)
  | Err e => Err e
  end.

End Scanner.

(** ** The type tree *)

Local Set Warnings "-register-all".

(** The node interfaces of [parser.ts], one constructor for each [kind].
    An optional field ([returnType?], [name?], [rest?]) is an [option]:
    [None] is the field being absent from the object.  The kinds
    ['StringLiteral'] and ['NumberLiteral'] are written [StringLiteralNode]
    and [NumberLiteralNode], apart from the token kinds of the same names.
    The union [TypeNode] of [parser.ts] also lists [ObjectMemberTypeNode];
    no function returns a member where a type is expected, and members are
    kept in a type of their own, as parameters are. *)
Inductive TypeNode : Type :=
| Nullable (type : TypeNode)
| Entity (name : string)
| Union (types : list TypeNode)
| Function (parameters : list FunctionParameterTypeNode)
           (returnType : option TypeNode)
| Array (type : TypeNode)
| Object (members : list ObjectMemberTypeNode)
| StringLiteralNode (value : string)
| NumberLiteralNode (value : string)
| Any
with FunctionParameterTypeNode : Type :=
| FunctionParameter (name : option string) (rest : option bool)
                    (type : TypeNode)
with ObjectMemberTypeNode : Type :=
| ObjectMember (name : string) (type : TypeNode).

(** [enum ParsingContext] *)
Inductive ParsingContext : Type :=
| Parameters
| TypeParameters
| LiteralTypeMembers.

(** ** The parser monad *)

(** The two variables that the functions nested in [parse] share: the
    scanner object and the current [token]. *)
Record PState : Type := mkPState {
  scanner : Scanner.t;
  token : SyntaxKind
}.

(** A function of the [parse] closure: it reads and updates the shared
    variables, and returns a value or throws. *)
Definition Parser (A : Type) : Type := PState -> Res (A * PState).

Definition ret {A : Type} (a : A) : Parser A := fun st => Ok (a, st).

Definition bind {A B : Type} (m : Parser A) (f : A -> Parser B) : Parser B :=
  fun st =>
    match m st with
    | Ok (a, st') => f a st'
    | Err e => Err e
    end.

Definition throw {A : Type} (e : Error) : Parser A := fun _ => Err e.

Declare Scope parser_scope.
Delimit Scope parser_scope with parser.
Notation "x <- m ;; k" := (bind m (fun x => k))
  (at level 61, m at next level, right associativity) : parser_scope.
Notation "m ;;; k" := (bind m (fun _ => k))
  (at level 61, right associativity) : parser_scope.
Local Open Scope parser_scope.

(** Reading the variable [token]. *)
Definition getToken : Parser SyntaxKind := fun st => Ok (token st, st).

(** [scanner.getTokenValue()] *)
Definition getTokenValue : Parser string :=
  fun st => Ok (Scanner.getTokenValue (scanner st), st).

(** Modelled from the spec: [invariant] of [../invariant], which throws
    when its condition does not hold; the parser uses it where a token is
    required. *)
Definition invariant (condition : bool) : Parser unit :=
  if condition then ret tt else throw InvariantViolation.

(** ** The functions of [parse] *)

(** [function nextToken() { token = scanner.scan(); }] *)
Definition nextToken : Parser unit :=
  fun st =>
    match Scanner.scan (scanner st) with
    | Ok (k, sc) => Ok (tt, {| scanner := sc; token := k |})
    | Err e => Err e
    end.

(** [if (token !== kind) throw new Error(`Expected to parse ${kind} but
    found ${token}`); nextToken();] *)
Definition skipExpected (kind : SyntaxKind) : Parser unit :=
  token <- getToken ;;
  if negb (SyntaxKind_beq token kind) then throw (ExpectedButFound kind token)
  else nextToken.

(** [if (token === kind) { nextToken(); return true; } return false;] *)
Definition skipOptional (kind : SyntaxKind) : Parser bool :=
  token <- getToken ;;
  if SyntaxKind_beq token kind then nextToken ;;; ret true
  else ret false.

Definition isListTerminator (context : ParsingContext) : Parser bool :=
  token <- getToken ;;
  match context with
  | TypeParameters => ret (SyntaxKind_beq token GreaterThanToken)
  | Parameters => ret (SyntaxKind_beq token CloseParenToken)
  | LiteralTypeMembers => ret (SyntaxKind_beq token CloseBraceToken)
  end.

(** The callback handed to [scanner.lookAhead].  It reads the variable
    [token] of the closure, which [scanner.scan()] does not assign, and
    scans once when that token is an identifier. *)
Definition isNamedFunctionParameterStart (token : SyntaxKind)
  : Scanner.t -> Res (bool * Scanner.t) :=
  fun sc =>
    if SyntaxKind_beq token Identifier then
      match Scanner.scan sc with
      | Ok (k, sc') => Ok (SyntaxKind_beq k ColonToken, sc')
      | Err e => Err e
      end
    else Ok (false, sc).

(** [scanner.lookAhead(isNamedFunctionParameterStart)] *)
Definition lookAheadNamedFunctionParameterStart : Parser bool :=
  fun st =>
    match Scanner.lookAhead (isNamedFunctionParameterStart (token st))
                            (scanner st) with
    | Ok (b, sc) => Ok (b, {| scanner := sc; token := token st |})
    | Err e => Err e
    end.

Definition parseAny : Parser TypeNode :=
  nextToken ;;; ret Any.

Definition parseNumberLiteral : Parser TypeNode :=
  value <- getTokenValue ;;
  nextToken ;;;
  ret (NumberLiteralNode value).

Definition parseStringLiteral : Parser TypeNode :=
  value <- getTokenValue ;;
  nextToken ;;;
  ret (StringLiteralNode value).

Definition parseIdentifier : Parser string :=
  token <- getToken ;;
  invariant (SyntaxKind_beq token Identifier) ;;;
  identifier <- getTokenValue ;;
  nextToken ;;;
  ret identifier.

(** The loop of [parseEntity]:
    [while (skipOptional(DotToken)) { name += '.' + parseIdentifier(); }] *)
Fixpoint parseEntityLoop (fuel : nat) (name : string) : Parser string :=
  match fuel with
  | O => throw OutOfFuel
  | S fuel' =>
      dot <- skipOptional DotToken ;;
      if dot then
        identifier <- parseIdentifier ;;
        parseEntityLoop fuel' (name ++ "." ++ identifier)
      else ret name
  end.

Definition parseEntity (fuel : nat) : Parser TypeNode :=
  name <- parseIdentifier ;;
  name <- parseEntityLoop fuel name ;;
  ret (Entity name).

(** The loop of [parseDelimitedList]:
    [while (true) { if (isListTerminator(context)) break;
     result.push(parseElement()); skipOptional(CommaToken); }] *)
Fixpoint parseDelimitedListLoop {T : Type} (fuel : nat)
    (context : ParsingContext) (parseElement : Parser T) (result : list T)
  : Parser (list T) :=
  match fuel with
  | O => throw OutOfFuel
  | S fuel' =>
      stop <- isListTerminator context ;;
      if stop then ret result
      else
        element <- parseElement ;;
        skipOptional CommaToken ;;;
        parseDelimitedListLoop fuel' context parseElement (result ++ [element])
  end.

Definition parseDelimitedList {T : Type} (fuel : nat)
    (context : ParsingContext) (parseElement : Parser T) : Parser (list T) :=
  parseDelimitedListLoop fuel context parseElement [].

Definition parseBracketedList {T : Type} (fuel : nat)
    (context : ParsingContext) (parseElement : Parser T)
    (open close : SyntaxKind) : Parser (list T) :=
  skipExpected open ;;;
  result <- parseDelimitedList fuel context parseElement ;;
  skipExpected close ;;;
  ret result.

(** The truthiness test [if (name)] on a value that is [undefined] or a
    string: the empty string is falsy. *)
Definition truthyName (name : option string) : option string :=
  match name with
  | Some EmptyString => None
  | _ => name
  end.

Section Productions.

(** [parseType], as the productions below call it. *)
Variable parseType : Parser TypeNode.

(** The fuel of the list loops. *)
Variable fuel : nat.

Definition parseNullable : Parser TypeNode :=
  nextToken ;;;
  type <- parseType ;;
  ret (Nullable type).

Definition parseArray : Parser TypeNode :=
  skipExpected OpenBracketToken ;;;
  type <- parseType ;;
  skipExpected CloseBracketToken ;;;
  ret (Array type).

Definition parseTypeLiteralMember : Parser ObjectMemberTypeNode :=
  name <- parseIdentifier ;;
  skipExpected ColonToken ;;;
  type <- parseType ;;
  ret (ObjectMember name type).

Definition parseObject : Parser TypeNode :=
  token <- getToken ;;
  invariant (SyntaxKind_beq token OpenBraceToken) ;;;
  members <- parseBracketedList fuel LiteralTypeMembers parseTypeLiteralMember
               OpenBraceToken CloseBraceToken ;;
  ret (Object members).

Definition parseUnion : Parser TypeNode :=
  token <- getToken ;;
  invariant (SyntaxKind_beq token UnionKeyword) ;;;
  nextToken ;;;
  types <- parseBracketedList fuel TypeParameters parseType
             LessThanToken GreaterThanToken ;;
  ret (Union types).

(** The first [if] chain of [parseFunctionParameter], which sets [name]
    and [rest]: the rest marker, then the look-ahead for [identifier ':'],
    else neither. *)
Definition parseFunctionParameterPrefix : Parser (option string * option bool) :=
  token <- getToken ;;
  if SyntaxKind_beq token DotDotDotToken then
    nextToken ;;;
    name <- parseIdentifier ;;
    skipExpected ColonToken ;;;
    ret (Some name, Some true)
  else
    named <- lookAheadNamedFunctionParameterStart ;;
    if named then
      name <- parseIdentifier ;;
      skipExpected ColonToken ;;;
      ret (Some name, None)
    else ret (None, None).

(** [parseFunctionParameter]: after the prefix, [const type = parseType()],
    and the node gets [rest] when it is set and [name] when it is truthy. *)
Definition parseFunctionParameter : Parser FunctionParameterTypeNode :=
  prefix <- parseFunctionParameterPrefix ;;
  let (name, rest) := prefix in
  type <- parseType ;;
  ret (FunctionParameter (truthyName name) rest type).

Definition parseFunction : Parser TypeNode :=
  parameters <- parseBracketedList fuel Parameters parseFunctionParameter
                  OpenParenToken CloseParenToken ;;
  arrow <- skipOptional RightArrowToken ;;
  if arrow then
    returnType <- parseType ;;
    ret (Function parameters (Some returnType))
  else ret (Function parameters None).

End Productions.

(** [parseType]: the [switch (token)], whose default is
    [throw new Error(`Unable to parse token ${token}`)]. *)
Fixpoint parseType (fuel : nat) : Parser TypeNode :=
  match fuel with
  | O => throw OutOfFuel
  | S fuel' =>
      token <- getToken ;;
      match token with
      | AsteriskToken | AnyKeyword => parseAny
      | OpenBracketToken => parseArray (parseType fuel')
      | OpenParenToken => parseFunction (parseType fuel') fuel'
      | QuestionToken => parseNullable (parseType fuel')
      | Identifier => parseEntity fuel'
      | UnionKeyword => parseUnion (parseType fuel') fuel'
      | OpenBraceToken => parseObject (parseType fuel') fuel'
      | StringLiteral => parseStringLiteral
      | NumberLiteral => parseNumberLiteral
      | _ => throw (UnableToParseToken token)
      end
  end.

(** The statements of [parse] before [return parseType()]:
    [const scanner = createScanner(text); let token = scanner.scan();] *)
Definition initialState (text : string) : Res PState :=
  match Scanner.scan (Scanner.createScanner text) with
  | Ok (k, sc) => Ok {| scanner := sc; token := k |}
  | Err e => Err e
  end.

(** [export function parse(text: string)].  No token can be consumed
    without consuming a character, so the length of the text bounds the
    depth of the recursion and the length of every loop. *)
Definition parse (text : string) : Res TypeNode :=
  match initialState text with
  | Ok st =>
      match parseType (S (String.length text)) st with
      | Ok (node, _) => Ok node
      | Err e => Err e
      end
  | Err e => Err e
  end.

(** ** Notions used in the statements *)

(** The state of the closure when the current token is [k], the last
    literal value scanned is [value] and [rest] is still to be read. *)
Definition stateAt (value : string) (k : SyntaxKind) (rest : string) : PState :=
  {| scanner := Scanner.mk rest (Some k) value; token := k |}.

(** An identifier as the scanner delimits it: a first character that may
    start an identifier, followed by identifier characters. *)
Fixpoint allChars (p : ascii -> bool) (w : string) : bool :=
  match w with
  | String c w' => p c && allChars p w'
  | EmptyString => true
  end.

Definition isIdentifierWord (w : string) : bool :=
  match w with
  | String c w' => Scanner.isIdentifierStart c && allChars Scanner.isIdentifierPart w'
  | EmptyString => false
  end.

(** One or more identifiers joined by ['.']. *)
Definition dottedName (name : string) : Prop :=
  exists first others,
    Forall (fun w => isIdentifierWord w = true) (first :: others) /\
    name = String.concat "." (first :: others).

(** The names of all the Entity nodes of a tree. *)
Fixpoint entityNames (node : TypeNode) : list string :=
  match node with
  | Nullable type => entityNames type
  | Entity name => [name]
  | Union types => flat_map entityNames types
  | Function parameters returnType =>
      flat_map entityNamesOfParameter parameters
      ++ match returnType with
         | Some type => entityNames type
         | None => []
         end
  | Array type => entityNames type
  | Object members => flat_map entityNamesOfMember members
  | StringLiteralNode _ | NumberLiteralNode _ | Any => []
  end
with entityNamesOfParameter (p : FunctionParameterTypeNode) : list string :=
  match p with
  | FunctionParameter _ _ type => entityNames type
  end
with entityNamesOfMember (m : ObjectMemberTypeNode) : list string :=
  match m with
  | ObjectMember _ type => entityNames type
  end.

(** The token that ends a list in each of the three contexts, as
    [isListTerminator] tests it. *)
Definition terminatorOf (context : ParsingContext) : SyntaxKind :=
  match context with
  | TypeParameters => GreaterThanToken
  | Parameters => CloseParenToken
  | LiteralTypeMembers => CloseBraceToken
  end.

(** The string literal with nothing between its quotes. *)
Definition emptyStringLiteral : string :=
  String Scanner.doubleQuote (String Scanner.doubleQuote EmptyString).

(** Partial correctness of a parser function: from a state that satisfies
    [P], a call that returns does so with a value and a state that satisfy
    [Q]. *)
Definition hoare {A : Type} (P : PState -> Prop) (p : Parser A)
    (Q : A -> PState -> Prop) : Prop :=
  forall st a st', P st -> p st = Ok (a, st') -> Q a st'.

(** Whenever the current token is an identifier, the token value is one. *)
Definition identifierValueOk (st : PState) : Prop :=
  token st = Identifier ->
  isIdentifierWord (Scanner.getTokenValue (scanner st)) = true.

(** What is left to consume: the characters not yet read, from the first
    that is not white space, and the current token unless it is the end
    token. *)
Definition measure (st : PState) : nat :=
  String.length (Scanner.skipWhiteSpace (Scanner.text (scanner st)))
  + (if SyntaxKind_beq (token st) EndOfFileToken then 0 else 1).

(** A call of [p] that returns has consumed at least [d] units. *)
Definition decreasing {A : Type} (d : nat) (p : Parser A) : Prop :=
  forall st a st', p st = Ok (a, st') -> measure st' + d <= measure st.

(** From a state with fewer than [n] units left, [p] does not run out of
    fuel. *)
Definition safe {A : Type} (n : nat) (p : Parser A) : Prop :=
  forall st, measure st < n -> p st <> Err OutOfFuel.

(** The kind of the first token of a text, as [scan] classifies it. *)
Definition firstToken (text : string) : Res SyntaxKind :=
  match Scanner.skipWhiteSpace text with
  | EmptyString => Ok EndOfFileToken
  | String c r =>
      match Scanner.scanLexeme c r with
      | Ok (k, _, _) => Ok k
      | Err e => Err e
      end
  end.

(** The token at which the [Type] derivation of [parse] has stopped when
    [parse] returns: the end token when the derivation has read the whole
    text. *)
Definition tokenAfter (text : string) : Res SyntaxKind :=
  match initialState text with
  | Ok st =>
      match parseType (S (String.length text)) st with
      | Ok (_, st') => Ok (token st')
      | Err e => Err e
      end
  | Err e => Err e
  end.

(** The token that a function of [parse] would take, after the last token
    of a type, as continuing that type: [parseEntity] takes a ['.'] after
    the last identifier of an entity name, and [parseFunction] the arrow
    after a parameter list that has no return type.  A nullable type ends
    with the type under its ['?'], and a function type that has a return
    type ends with that return type.  Every other type ends with a closing
    bracket, a literal, [*] or [any], after which nothing is looked for. *)
Fixpoint openEnd (node : TypeNode) : option SyntaxKind :=
  match node with
  | Entity _ => Some DotToken
  | Function _ None => Some RightArrowToken
  | Function _ (Some returnType) => openEnd returnType
  | Nullable type => openEnd type
  | _ => None
  end.

(** A text of white-space characters only, and at least one. *)
Definition isBlank (ws : string) : bool :=
  match ws with
  | String _ _ => allChars Scanner.isWhiteSpace ws
  | EmptyString => false
  end.

(** Two runs of the parser, one on a text and one on the same text
    followed by [suffix], are in step when they have the same current
    token, which is not the end token, and the same token value, and the
    second has [suffix] left to read after what the first has left. *)
Definition inStep (suffix : string) (st st2 : PState) : Prop :=
  token st <> EndOfFileToken /\
  token st2 = token st /\
  Scanner.getTokenValue (scanner st2) = Scanner.getTokenValue (scanner st) /\
  Scanner.text (scanner st2) = (Scanner.text (scanner st) ++ suffix)%string.

(** The first run has reached the end of its text, and the current token
    of the second is [k0], the first token of the suffix. *)
Definition pastEnd (k0 : SyntaxKind) (st st2 : PState) : Prop :=
  measure st = 0 /\ token st2 = k0.

(** [p] keeps the two runs in step, provided it leaves the first with more
    than [d] units to consume. *)
Definition simS {A : Type} (suffix : string) (d : nat) (p : Parser A) : Prop :=
  forall st st2 a st',
    inStep suffix st st2 -> p st = Ok (a, st') -> d < measure st' ->
    exists st2', p st2 = Ok (a, st2') /\ inStep suffix st' st2'.

(** [p] returns the same value in both runs, and leaves them in step or
    the first at the end of its text, provided the value satisfies [C]
    when the first run ends at the end of its text. *)
Definition simF {A : Type} (suffix : string) (k0 : SyntaxKind) (C : A -> Prop)
    (p : Parser A) : Prop :=
  forall st st2 a st',
    inStep suffix st st2 -> p st = Ok (a, st') ->
    (measure st' = 0 -> C a) ->
    exists st2', p st2 = Ok (a, st2') /\
                 (inStep suffix st' st2' \/ pastEnd k0 st' st2').

(** Once the first run is at the end of its text, [p] returns the same
    value in both runs without reading further, under the same proviso. *)
Definition simB {A : Type} (k0 : SyntaxKind) (C : A -> Prop) (p : Parser A)
  : Prop :=
  forall st st2 a st',
    pastEnd k0 st st2 -> p st = Ok (a, st') ->
    (measure st' = 0 -> C a) ->
    exists st2', p st2 = Ok (a, st2') /\ pastEnd k0 st' st2'.

(** [p] returns the same value in both runs and leaves their states as
    they are. *)
Definition keeps {A : Type} (suffix : string) (p : Parser A) : Prop :=
  forall st st2 a st',
    inStep suffix st st2 -> p st = Ok (a, st') ->
    st' = st /\ p st2 = Ok (a, st2).

(** [k0] does not continue the type [node]. *)
Definition ends (k0 : SyntaxKind) (node : TypeNode) : Prop :=
  openEnd node <> Some k0.

(** No condition on a value. *)
Definition anyValue {A : Type} (_ : A) : Prop := True.

(** When the first run returns a tree that [k0] continues, having read the
    whole of its text, the second run, which finds [k0] there, reads on and
    does not return that tree. *)
Definition readsOn (suffix : string) (k0 : SyntaxKind) (p : Parser TypeNode)
  : Prop :=
  forall st st2 node st' st2',
    inStep suffix st st2 -> p st = Ok (node, st') ->
    token st' = EndOfFileToken -> openEnd node = Some k0 ->
    p st2 <> Ok (node, st2').

(** Whatever [p] returns, [q] returns as well. *)
Definition refines {A : Type} (p q : Parser A) : Prop :=
  forall st r, p st = Ok r -> q st = Ok r.

(** The token kinds on which the [switch] of [parseType] has a case. *)
Definition startsType (k : SyntaxKind) : bool :=
  match k with
  | AsteriskToken | AnyKeyword | OpenBracketToken | OpenParenToken
  | QuestionToken | Identifier | UnionKeyword | OpenBraceToken
  | StringLiteral | NumberLiteral => true
  | _ => false
  end.

(** The errors that [parse] can be seen to raise: the scanner's error; a
    failed [invariant]; the error of the [parseType] dispatch, on a token
    that starts no type; and the error of [skipExpected], where the kind
    expected is ['<'], [']'] or [':'] and the token found is another. *)
Definition parseError (e : Error) : Prop :=
  match e with
  | LexicalError _ => True
  | InvariantViolation => True
  | UnableToParseToken k => startsType k = false
  | ExpectedButFound kind found =>
      (kind = LessThanToken \/ kind = CloseBracketToken \/ kind = ColonToken) /\
      found <> kind
  | OutOfFuel => False
  end.

(** The errors of a call with some fuel: those of [parseError], and the
    fuel running out. *)
Definition mayRaise (e : Error) : Prop := parseError e \/ e = OutOfFuel.

(** From a state that satisfies [P], a call of [p] that throws throws an
    error that satisfies [E]. *)
Definition errs {A : Type} (P : PState -> Prop) (p : Parser A)
    (E : Error -> Prop) : Prop :=
  forall st e, P st -> p st = Err e -> E e.

(** The trees that the functions of [parse] build.  An Entity has a dotted
    name; a parameter is a bare type, or has an identifier as its name, or
    has a name and [rest = true]; a member has an identifier as its name. *)
Inductive wellFormed : TypeNode -> Prop :=
| wf_Any : wellFormed Any
| wf_Entity name : dottedName name -> wellFormed (Entity name)
| wf_StringLiteral value : wellFormed (StringLiteralNode value)
| wf_NumberLiteral value : wellFormed (NumberLiteralNode value)
| wf_Nullable type : wellFormed type -> wellFormed (Nullable type)
| wf_Array type : wellFormed type -> wellFormed (Array type)
| wf_Union types : Forall wellFormed types -> wellFormed (Union types)
| wf_Function parameters returnType :
    Forall wellFormedParameter parameters ->
    (forall type, returnType = Some type -> wellFormed type) ->
    wellFormed (Function parameters returnType)
| wf_Object members :
    Forall wellFormedMember members -> wellFormed (Object members)
with wellFormedParameter : FunctionParameterTypeNode -> Prop :=
| wf_bare type :
    wellFormed type -> wellFormedParameter (FunctionParameter None None type)
| wf_named name type :
    isIdentifierWord name = true -> wellFormed type ->
    wellFormedParameter (FunctionParameter (Some name) None type)
| wf_rest name type :
    isIdentifierWord name = true -> wellFormed type ->
    wellFormedParameter (FunctionParameter (Some name) (Some true) type)
with wellFormedMember : ObjectMemberTypeNode -> Prop :=
| wf_member name type :
    isIdentifierWord name = true -> wellFormed type ->
    wellFormedMember (ObjectMember name type).

(** The kind of node that [parseType] builds on each token that starts a
    type. *)
Definition builtOn (k : SyntaxKind) (node : TypeNode) : Prop :=
  match k with
  | AsteriskToken | AnyKeyword => node = Any
  | OpenBracketToken => exists type, node = Array type
  | OpenParenToken =>
      exists parameters returnType, node = Function parameters returnType
  | QuestionToken => exists type, node = Nullable type
  | Identifier => exists name, node = Entity name
  | UnionKeyword => exists types, node = Union types
  | OpenBraceToken => exists members, node = Object members
  | StringLiteral => exists value, node = StringLiteralNode value
  | NumberLiteral => exists value, node = NumberLiteralNode value
  | _ => False
  end.

(** ** Basic facts about the monad *)

Lemma bind_Ok {A B : Type} (m : Parser A) (f : A -> Parser B) st b st' :
  bind m f st = Ok (b, st') <->
  exists a st1, m st = Ok (a, st1) /\ f a st1 = Ok (b, st').
Proof.
  unfold bind. split.
  - destruct (m st) as [[a st1]|e]; [eauto | discriminate].
  - intros (a & st1 & -> & H). exact H.
Qed.

Lemma SyntaxKind_beq_eq (a b : SyntaxKind) :
  SyntaxKind_beq a b = true <-> a = b.
Proof.
  split; [apply internal_SyntaxKind_dec_bl | apply internal_SyntaxKind_dec_lb].
Qed.

Lemma SyntaxKind_beq_neq (a b : SyntaxKind) :
  SyntaxKind_beq a b = false <-> a <> b.
Proof.
  rewrite <- SyntaxKind_beq_eq. destruct (SyntaxKind_beq a b); split; congruence.
Qed.

Lemma SyntaxKind_beq_refl (a : SyntaxKind) : SyntaxKind_beq a a = true.
Proof. now apply SyntaxKind_beq_eq. Qed.

Tactic Notation "inv_bind" hyp(H) "as" ident(a) ident(st) ident(H1) :=
  apply bind_Ok in H; destruct H as (a & st & H1 & H).

Ltac inv_ok H := injection H as; subst.

(** ** Facts about the scanner *)

Lemma scanWhile_allChars p s w r :
  Scanner.scanWhile p s = (w, r) -> allChars p w = true.
Proof.
  revert w r. induction s as [|c s IH]; simpl; intros w r H.
  - now inv_ok H.
  - destruct (p c) eqn:Hc.
    + destruct (Scanner.scanWhile p s) as [w0 r0]. inv_ok H.
      simpl. rewrite Hc. eapply IH. reflexivity.
    + now inv_ok H.
Qed.

Lemma lookupPunctuation_not_Identifier c k :
  Scanner.lookupPunctuation c Scanner.punctuation = Some k -> k <> Identifier.
Proof.
  unfold Scanner.punctuation. simpl.
  repeat match goal with
         | |- context [Ascii.eqb c ?x] => destruct (Ascii.eqb c x)
         end; congruence.
Qed.

(** A lexeme classified as an identifier has an identifier as its value. *)
Lemma scanLexeme_Identifier c s v r :
  Scanner.scanLexeme c s = Ok (Identifier, v, r) ->
  exists w, v = Some w /\ isIdentifierWord w = true.
Proof.
  unfold Scanner.scanLexeme.
  destruct (Ascii.eqb c ".").
  { destruct (Scanner.stripPrefix ".." s); discriminate. }
  destruct (Ascii.eqb c "226").
  { destruct (Scanner.stripPrefix Scanner.arrowTail s); discriminate. }
  destruct (Ascii.eqb c Scanner.doubleQuote).
  { destruct (Scanner.scanStringBody s) as [[w0 r0]|]; discriminate. }
  destruct (Scanner.isDigit c).
  { destruct (Scanner.scanWhile Scanner.isDigit s); discriminate. }
  destruct (Scanner.isIdentifierStart c) eqn:Hstart.
  - destruct (Scanner.scanWhile Scanner.isIdentifierPart s) as [w0 r0] eqn:Hw.
    destruct (Scanner.keywordOrIdentifier (String c w0)); try discriminate.
    intros H. inv_ok H. exists (String c w0). split; [reflexivity|].
    simpl. rewrite Hstart. simpl. eapply scanWhile_allChars; eassumption.
  - destruct (Scanner.lookupPunctuation c Scanner.punctuation) eqn:Hp; try discriminate.
    intros H. inv_ok H. now apply lookupPunctuation_not_Identifier in Hp.
Qed.

Lemma scan_Identifier s s' :
  Scanner.scan s = Ok (Identifier, s') ->
  isIdentifierWord (Scanner.getTokenValue s') = true.
Proof.
  unfold Scanner.scan.
  destruct (Scanner.skipWhiteSpace (Scanner.text s)) as [|c r]; [discriminate|].
  destruct (Scanner.scanLexeme c r) as [[[k v] r']|e] eqn:Hlex; [|discriminate].
  intros H. inv_ok H.
  apply scanLexeme_Identifier in Hlex. destruct Hlex as (w & -> & Hw). exact Hw.
Qed.

(** [lookAhead] hands back the scanner it was given. *)
Lemma lookAhead_restores {A : Type}
    (callback : Scanner.t -> Res (A * Scanner.t)) s a s' :
  Scanner.lookAhead callback s = Ok (a, s') -> s' = s.
Proof.
  unfold Scanner.lookAhead. destruct (callback s) as [[a0 s0]|e]; [|discriminate].
  intros H. now inv_ok H.
Qed.

(** ** Facts about the parser's primitives *)

Lemma nextToken_Ok st st' :
  nextToken st = Ok (tt, st') <->
  exists sc, Scanner.scan (scanner st) = Ok (token st', sc) /\ scanner st' = sc.
Proof.
  unfold nextToken. split.
  - destruct (Scanner.scan (scanner st)) as [[k sc]|e]; [|discriminate].
    intros H. inv_ok H. simpl. eauto.
  - intros (sc & -> & <-). now destruct st'.
Qed.

Lemma nextToken_identifierValueOk st u st' :
  nextToken st = Ok (u, st') -> identifierValueOk st'.
Proof.
  destruct u. intros H Hid. apply nextToken_Ok in H. destruct H as (sc & Hscan & <-).
  rewrite Hid in Hscan. eapply scan_Identifier; eassumption.
Qed.

Lemma lookAheadNamedFunctionParameterStart_restores st named st' :
  lookAheadNamedFunctionParameterStart st = Ok (named, st') -> st' = st.
Proof.
  unfold lookAheadNamedFunctionParameterStart.
  destruct (Scanner.lookAhead _ _) as [[b sc]|e] eqn:H; [|discriminate].
  apply lookAhead_restores in H. subst sc.
  intros H. inv_ok H. now destruct st.
Qed.

Lemma skipExpected_Ok kind st u st' :
  skipExpected kind st = Ok (u, st') <-> token st = kind /\ nextToken st = Ok (u, st').
Proof.
  unfold skipExpected, bind, getToken, throw.
  destruct (SyntaxKind_beq (token st) kind) eqn:Hk; simpl.
  - apply SyntaxKind_beq_eq in Hk. tauto.
  - apply SyntaxKind_beq_neq in Hk. split; [discriminate | tauto].
Qed.

Lemma skipExpected_Err kind st :
  token st <> kind -> skipExpected kind st = Err (ExpectedButFound kind (token st)).
Proof.
  intros Hk. apply SyntaxKind_beq_neq in Hk.
  unfold skipExpected, bind, getToken, throw. now rewrite Hk.
Qed.

Lemma skipOptional_Ok kind st b st' :
  skipOptional kind st = Ok (b, st') <->
  (token st = kind /\ b = true /\ nextToken st = Ok (tt, st')) \/
  (token st <> kind /\ b = false /\ st' = st).
Proof.
  unfold skipOptional, bind, getToken, ret.
  destruct (SyntaxKind_beq (token st) kind) eqn:Hk.
  - apply SyntaxKind_beq_eq in Hk.
    destruct (nextToken st) as [[[] st1]|e]; split.
    + intros H. inv_ok H. left. auto.
    + intros [(_ & -> & H)|(Hn & _)]; [now inv_ok H | contradiction].
    + discriminate.
    + intros [(_ & _ & H)|(Hn & _)]; [discriminate | contradiction].
  - apply SyntaxKind_beq_neq in Hk. split.
    + intros H. inv_ok H. right. auto.
    + intros [(Hn & _)|(_ & -> & ->)]; [contradiction | reflexivity].
Qed.

Lemma parseIdentifier_Ok st w st' :
  parseIdentifier st = Ok (w, st') <->
  token st = Identifier /\ w = Scanner.getTokenValue (scanner st) /\
  nextToken st = Ok (tt, st').
Proof.
  unfold parseIdentifier, bind, getToken, getTokenValue, invariant, ret, throw.
  destruct (SyntaxKind_beq (token st) Identifier) eqn:Hk.
  - apply SyntaxKind_beq_eq in Hk.
    destruct (nextToken st) as [[[] st1]|e]; split.
    + intros H. inv_ok H. auto.
    + intros (_ & -> & H). now inv_ok H.
    + discriminate.
    + intros (_ & _ & H). discriminate.
  - apply SyntaxKind_beq_neq in Hk. split; [discriminate | tauto].
Qed.

Lemma parseIdentifier_Err st :
  token st <> Identifier -> parseIdentifier st = Err InvariantViolation.
Proof.
  intros Hk. apply SyntaxKind_beq_neq in Hk.
  unfold parseIdentifier, bind, getToken, invariant, throw. now rewrite Hk.
Qed.

(** ** Function parameters and return types *)

Lemma parseFunctionParameter_unnamed pt st st' :
  token st <> DotDotDotToken ->
  lookAheadNamedFunctionParameterStart st = Ok (false, st') ->
  parseFunctionParameter pt st =
  bind pt (fun type => ret (FunctionParameter None None type)) st.
Proof.
  intros Hk Hla.
  pose proof (lookAheadNamedFunctionParameterStart_restores _ _ _ Hla) as ->.
  apply SyntaxKind_beq_neq in Hk.
  unfold parseFunctionParameter, parseFunctionParameterPrefix, bind, getToken.
  rewrite Hk, Hla. reflexivity.
Qed.

(** C1: whether a function parameter is named is decided by a look-ahead
    that rolls back.  [(a) → b] has one unnamed parameter of type Entity
    [a]; [(a: b) → c] has one parameter named [a] of type Entity [b];
    [(a.b) → c] has one unnamed parameter of type Entity [a.b].  The
    look-ahead returns the state it was called in, whatever it answers, and
    when it answers no the parameter is unnamed and its type is parsed from
    that same state, that is, from the original identifier token. *)
Theorem C1_parameter_naming_by_rollback_lookahead :
  parse "(a) → b"
  = Ok (Function [FunctionParameter None None (Entity "a")] (Some (Entity "b"))) /\
  parse "(a: b) → c"
  = Ok (Function [FunctionParameter (Some "a") None (Entity "b")]
          (Some (Entity "c"))) /\
  parse "(a.b) → c"
  = Ok (Function [FunctionParameter None None (Entity "a.b")] (Some (Entity "c"))) /\
  (forall st named st',
      lookAheadNamedFunctionParameterStart st = Ok (named, st') -> st' = st) /\
  (forall pt st st',
      token st <> DotDotDotToken ->
      lookAheadNamedFunctionParameterStart st = Ok (false, st') ->
      parseFunctionParameter pt st
      = bind pt (fun type => ret (FunctionParameter None None type)) st).
Proof.
  split; [reflexivity|]. split; [reflexivity|]. split; [reflexivity|]. split.
  - exact lookAheadNamedFunctionParameterStart_restores.
  - exact parseFunctionParameter_unnamed.
Qed.

(** The failed look-ahead of [(a.b) → c]: at the identifier [a], with
    [.b) → c] still to be read, the look-ahead scans the dot, answers no
    and leaves the state as it was; the parameter is then the whole dotted
    entity. *)
Lemma C1_parameter_naming_witness :
  lookAheadNamedFunctionParameterStart (stateAt "a" Identifier ".b) → c")
  = Ok (false, stateAt "a" Identifier ".b) → c") /\
  parseFunctionParameter (parseType 3) (stateAt "a" Identifier ".b) → c")
  = Ok (FunctionParameter None None (Entity "a.b"),
        stateAt "b" CloseParenToken " → c").
Proof.
  split; [reflexivity|].
  rewrite (proj2 (proj2 (proj2 (proj2 C1_parameter_naming_by_rollback_lookahead)))
             (parseType 3) (stateAt "a" Identifier ".b) → c")
             (stateAt "a" Identifier ".b) → c"));
    [reflexivity | discriminate | reflexivity].
Defined.

Lemma parseFunction_Ok_inv pt fuel st node st' :
  parseFunction pt fuel st = Ok (node, st') ->
  exists parameters st1 returnType,
    parseBracketedList fuel Parameters (parseFunctionParameter pt)
      OpenParenToken CloseParenToken st = Ok (parameters, st1) /\
    node = Function parameters returnType /\
    (returnType <> None <-> token st1 = RightArrowToken) /\
    match returnType with
    | Some type => exists st2, nextToken st1 = Ok (tt, st2) /\ pt st2 = Ok (type, st')
    | None => st' = st1
    end.
Proof.
  unfold parseFunction. intros H.
  inv_bind H as parameters st1 Hlist. inv_bind H as arrow st2 Harrow.
  exists parameters, st1. apply skipOptional_Ok in Harrow.
  destruct Harrow as [(Hk & -> & Hn)|(Hk & -> & ->)].
  - inv_bind H as returnType st3 Htype. unfold ret in H. inv_ok H.
    exists (Some returnType). repeat split; try congruence. eauto.
  - unfold ret in H. inv_ok H. exists None. repeat split; congruence.
Qed.

(** What [parseType] returns on each branch but those of [?] and [(] is
    neither a Nullable nor a Function node. *)
Ltac other_productions H :=
  exfalso;
  unfold parseEntity, parseStringLiteral, parseNumberLiteral, parseNullable,
    parseFunction, parseArray, parseObject, parseAny, parseUnion in H;
  repeat (let a := fresh "a" in let st1 := fresh "st" in let H1 := fresh "H" in
          apply bind_Ok in H; destruct H as (a & st1 & H1 & H));
  try discriminate H;
  match type of H with
  | (if ?arrow then _ else _) _ = _ => destruct arrow; [|discriminate H]
  end;
  apply bind_Ok in H; destruct H as (? & ? & _ & H); discriminate H.

(** Only the [OpenParenToken] branch of [parseType] returns a Function. *)
Lemma parseType_Function_inv fuel st parameters returnType st' :
  parseType fuel st = Ok (Function parameters returnType, st') ->
  token st = OpenParenToken /\
  exists fuel',
    fuel = S fuel' /\
    parseFunction (parseType fuel') fuel' st
    = Ok (Function parameters returnType, st').
Proof.
  destruct fuel as [|fuel']; [discriminate|].
  cbn [parseType]. unfold bind at 1, getToken.
  destruct (token st) eqn:Hk; intros H; try discriminate H;
    try (split; [reflexivity|]; exists fuel'; auto; fail);
    other_productions H.
Qed.

(** C2: a Function node that [parseType] returns comes from the branch of
    [(], and it has a return type exactly when the token that follows the
    closing parenthesis of its parameter list is the arrow; the return type
    is then the type parsed after the arrow, and without the arrow the
    field is absent. *)
Theorem C2_returnType_iff_arrow fuel st parameters returnType st' :
  parseType fuel st = Ok (Function parameters returnType, st') ->
  exists fuel' st1,
    fuel = S fuel' /\
    parseBracketedList fuel' Parameters (parseFunctionParameter (parseType fuel'))
      OpenParenToken CloseParenToken st = Ok (parameters, st1) /\
    (returnType <> None <-> token st1 = RightArrowToken) /\
    match returnType with
    | Some type =>
        exists st2,
          nextToken st1 = Ok (tt, st2) /\ parseType fuel' st2 = Ok (type, st')
    | None => st' = st1
    end.
Proof.
  intros H. apply parseType_Function_inv in H. destruct H as (_ & fuel' & -> & H).
  apply parseFunction_Ok_inv in H.
  destruct H as (parameters' & st1 & returnType' & Hlist & Heq & Hiff & Hret).
  inv_ok Heq. exists fuel', st1. auto.
Qed.

(** [() → a] and [()], entered at [(]: the token after [)] is the arrow in
    the first and the end of the input in the second. *)
Lemma C2_returnType_witness :
  (exists fuel' st1,
      4 = S fuel' /\
      parseBracketedList fuel' Parameters (parseFunctionParameter (parseType fuel'))
        OpenParenToken CloseParenToken (stateAt "" OpenParenToken ") → a")
      = Ok ([], st1) /\
      (Some (Entity "a") <> None <-> token st1 = RightArrowToken) /\
      exists st2,
        nextToken st1 = Ok (tt, st2) /\
        parseType fuel' st2 = Ok (Entity "a", stateAt "a" EndOfFileToken "")) /\
  (exists fuel' st1,
      4 = S fuel' /\
      parseBracketedList fuel' Parameters (parseFunctionParameter (parseType fuel'))
        OpenParenToken CloseParenToken (stateAt "" OpenParenToken ")")
      = Ok ([], st1) /\
      (@None TypeNode <> None <-> token st1 = RightArrowToken) /\
      stateAt "" EndOfFileToken "" = st1).
Proof.
  split.
  - apply (C2_returnType_iff_arrow 4 (stateAt "" OpenParenToken ") → a")
             [] (Some (Entity "a")) (stateAt "a" EndOfFileToken "")).
    reflexivity.
  - apply (C2_returnType_iff_arrow 4 (stateAt "" OpenParenToken ")")
             [] None (stateAt "" EndOfFileToken "")).
    reflexivity.
Defined.

(** ** Nullable types *)

Lemma parseNullable_Ok pt st node st' :
  parseNullable pt st = Ok (node, st') <->
  exists st1 inner,
    nextToken st = Ok (tt, st1) /\ pt st1 = Ok (inner, st') /\ node = Nullable inner.
Proof.
  unfold parseNullable. split.
  - intros H. inv_bind H as u st1 Hnext. inv_bind H as inner st2 Htype.
    unfold ret in H. inv_ok H. destruct u. eauto.
  - intros (st1 & inner & Hnext & Htype & ->).
    apply bind_Ok. exists tt, st1. split; [assumption|].
    apply bind_Ok. exists inner, st'. split; [assumption | reflexivity].
Qed.

(** Only the [QuestionToken] branch of [parseType] returns a Nullable. *)
Lemma parseType_Nullable_inv fuel st inner st' :
  parseType fuel st = Ok (Nullable inner, st') ->
  token st = QuestionToken /\
  exists fuel' st1,
    fuel = S fuel' /\ nextToken st = Ok (tt, st1) /\
    parseType fuel' st1 = Ok (inner, st').
Proof.
  destruct fuel as [|fuel']; [discriminate|].
  simpl. unfold bind at 1, getToken.
  destruct (token st) eqn:Hk; intros H; try discriminate H;
    try (apply parseNullable_Ok in H;
         destruct H as (st1 & inner' & Hnext & Htype & Heq);
         inv_ok Heq; split; [reflexivity|]; exists fuel', st1; auto; fail);
    other_productions H.
Qed.

(** C5: the nullable marker applies to the type that directly follows it.
    [?union<a>] is a Nullable around the Union, not a Union of a Nullable;
    and whenever [parseType] returns a Nullable node, the current token was
    [?] and the one node it wraps is what [parseType] returned from the
    token after the marker. *)
Theorem C5_nullable_wraps_following_type :
  parse "?union<a>" = Ok (Nullable (Union [Entity "a"])) /\
  parse "?union<a>" <> Ok (Union [Nullable (Entity "a")]) /\
  (forall fuel st inner st',
      parseType fuel st = Ok (Nullable inner, st') ->
      token st = QuestionToken /\
      exists fuel' st1,
        fuel = S fuel' /\ nextToken st = Ok (tt, st1) /\
        parseType fuel' st1 = Ok (inner, st')).
Proof.
  split; [reflexivity|]. split; [discriminate|].
  exact parseType_Nullable_inv.
Qed.

Lemma C5_nullable_witness :
  token (stateAt "" QuestionToken "union<a>") = QuestionToken /\
  exists fuel' st1,
    9 = S fuel' /\
    nextToken (stateAt "" QuestionToken "union<a>") = Ok (tt, st1) /\
    parseType fuel' st1 = Ok (Union [Entity "a"], stateAt "a" EndOfFileToken "").
Proof.
  apply (proj2 (proj2 C5_nullable_wraps_following_type) 9
           (stateAt "" QuestionToken "union<a>")
           (Union [Entity "a"]) (stateAt "a" EndOfFileToken "")).
  reflexivity.
Defined.

(** ** Empty collections *)

(** C9: [()] is a Function with no parameter and no return-type field,
    [{}] is an Object with no member, and the string literal with nothing
    between its quotes has the empty string as its value. *)
Theorem C9_empty_collections :
  parse "()" = Ok (Function [] None) /\
  parse "{}" = Ok (Object []) /\
  parse emptyStringLiteral = Ok (StringLiteralNode EmptyString).
Proof. repeat split. Qed.

(** ** Rest parameters *)

Lemma parseFunctionParameter_rest_Ok pt st p st' :
  token st = DotDotDotToken ->
  parseFunctionParameter pt st = Ok (p, st') ->
  exists name st1 st2 st3 type,
    nextToken st = Ok (tt, st1) /\
    token st1 = Identifier /\
    name = Scanner.getTokenValue (scanner st1) /\
    nextToken st1 = Ok (tt, st2) /\
    token st2 = ColonToken /\
    nextToken st2 = Ok (tt, st3) /\
    pt st3 = Ok (type, st') /\
    name <> EmptyString /\
    p = FunctionParameter (Some name) (Some true) type.
Proof.
  intros Hk H. unfold parseFunctionParameter, parseFunctionParameterPrefix in H.
  inv_bind H as prefix st3 Hprefix.
  inv_bind Hprefix as k st0 Hget. unfold getToken in Hget. inv_ok Hget.
  rewrite Hk in Hprefix. simpl in Hprefix.
  inv_bind Hprefix as u st1 Hnext. destruct u.
  inv_bind Hprefix as name st2 Hname.
  inv_bind Hprefix as u st2' Hcolon. destruct u.
  unfold ret in Hprefix. inv_ok Hprefix.
  inv_bind H as type st4 Htype. unfold ret in H. inv_ok H.
  apply parseIdentifier_Ok in Hname. destruct Hname as (Hid & -> & Hnext1).
  apply skipExpected_Ok in Hcolon. destruct Hcolon as (Hcolon & Hnext2).
  pose proof (nextToken_identifierValueOk _ _ _ Hnext Hid) as Hword.
  exists (Scanner.getTokenValue (scanner st1)), st1, st2, st3, type.
  repeat (split; [assumption || reflexivity|]).
  destruct (Scanner.getTokenValue (scanner st1)) eqn:Hv; [discriminate Hword|].
  split; [discriminate | reflexivity].
Qed.

Lemma parseFunctionParameter_rest_no_identifier pt st st1 :
  token st = DotDotDotToken ->
  nextToken st = Ok (tt, st1) ->
  token st1 <> Identifier ->
  parseFunctionParameter pt st = Err InvariantViolation.
Proof.
  intros Hk Hnext Hid.
  unfold parseFunctionParameter, parseFunctionParameterPrefix, bind, getToken.
  rewrite Hk. simpl. rewrite Hnext. now rewrite (parseIdentifier_Err _ Hid).
Qed.

Lemma parseFunctionParameter_rest_no_colon pt st st1 st2 :
  token st = DotDotDotToken ->
  nextToken st = Ok (tt, st1) ->
  token st1 = Identifier ->
  nextToken st1 = Ok (tt, st2) ->
  token st2 <> ColonToken ->
  parseFunctionParameter pt st = Err (ExpectedButFound ColonToken (token st2)).
Proof.
  intros Hk Hnext Hid Hnext1 Hcolon.
  assert (Hname : parseIdentifier st1 = Ok (Scanner.getTokenValue (scanner st1), st2))
    by (apply parseIdentifier_Ok; auto).
  unfold parseFunctionParameter, parseFunctionParameterPrefix, bind, getToken.
  rewrite Hk. simpl. rewrite Hnext, Hname. now rewrite (skipExpected_Err _ _ Hcolon).
Qed.

(** C7: a function parameter that begins with [...] is returned with
    [rest = true] and with a name.  After the marker the next token must be
    an identifier, which becomes the name, and the token after it must be
    [:]; only then is the type parsed.  When the token after the marker is
    not an identifier, or the token after the identifier is not [:], the
    call raises an error. *)
Theorem C7_rest_parameter pt st :
  token st = DotDotDotToken ->
  (forall p st',
      parseFunctionParameter pt st = Ok (p, st') ->
      exists name st1 st2 st3 type,
        nextToken st = Ok (tt, st1) /\
        token st1 = Identifier /\
        name = Scanner.getTokenValue (scanner st1) /\
        nextToken st1 = Ok (tt, st2) /\
        token st2 = ColonToken /\
        nextToken st2 = Ok (tt, st3) /\
        pt st3 = Ok (type, st') /\
        name <> EmptyString /\
        p = FunctionParameter (Some name) (Some true) type) /\
  (forall st1,
      nextToken st = Ok (tt, st1) ->
      token st1 <> Identifier ->
      parseFunctionParameter pt st = Err InvariantViolation) /\
  (forall st1 st2,
      nextToken st = Ok (tt, st1) ->
      token st1 = Identifier ->
      nextToken st1 = Ok (tt, st2) ->
      token st2 <> ColonToken ->
      parseFunctionParameter pt st = Err (ExpectedButFound ColonToken (token st2))).
Proof.
  intros Hk. split; [|split].
  - intros p st'. now apply parseFunctionParameter_rest_Ok.
  - intros st1. now apply parseFunctionParameter_rest_no_identifier.
  - intros st1 st2. now apply parseFunctionParameter_rest_no_colon.
Qed.

(** The parameter of [(...a: b)], and the two ways its prefix can fail:
    [(... : b)] has no identifier after the marker and [(...a b)] has no
    colon after the identifier. *)
Lemma C7_rest_parameter_witness :
  (exists name st1 st2 st3 type,
      nextToken (stateAt "" DotDotDotToken "a: b)") = Ok (tt, st1) /\
      token st1 = Identifier /\
      name = Scanner.getTokenValue (scanner st1) /\
      nextToken st1 = Ok (tt, st2) /\
      token st2 = ColonToken /\
      nextToken st2 = Ok (tt, st3) /\
      parseType 2 st3 = Ok (type, stateAt "b" CloseParenToken "") /\
      name <> EmptyString /\
      FunctionParameter (Some "a") (Some true) (Entity "b")
      = FunctionParameter (Some name) (Some true) type) /\
  parseFunctionParameter (parseType 2) (stateAt "" DotDotDotToken " : b)")
  = Err InvariantViolation /\
  parseFunctionParameter (parseType 2) (stateAt "" DotDotDotToken "a b)")
  = Err (ExpectedButFound ColonToken Identifier).
Proof.
  split; [|split].
  - apply (proj1 (C7_rest_parameter (parseType 2)
                    (stateAt "" DotDotDotToken "a: b)") eq_refl)
                 (FunctionParameter (Some "a") (Some true) (Entity "b"))
                 (stateAt "b" CloseParenToken "")).
    reflexivity.
  - apply (proj1 (proj2 (C7_rest_parameter (parseType 2)
                           (stateAt "" DotDotDotToken " : b)") eq_refl))
                 (stateAt "" ColonToken " b)")); [reflexivity | discriminate].
  - apply (proj2 (proj2 (C7_rest_parameter (parseType 2)
                           (stateAt "" DotDotDotToken "a b)") eq_refl))
                 (stateAt "a" Identifier " b)") (stateAt "b" Identifier ")"));
      [reflexivity | reflexivity | reflexivity | discriminate].
Defined.

(** ** Delimited lists *)

Lemma isListTerminator_eq context st :
  isListTerminator context st
  = Ok (SyntaxKind_beq (token st) (terminatorOf context), st).
Proof. now destruct context. Qed.

Lemma parseDelimitedListLoop_stop {T : Type} fuel context (pe : Parser T) result st :
  token st = terminatorOf context ->
  parseDelimitedListLoop (S fuel) context pe result st = Ok (result, st).
Proof.
  intros Hk. simpl. unfold bind. rewrite isListTerminator_eq, Hk.
  now rewrite SyntaxKind_beq_refl.
Qed.

Lemma parseDelimitedListLoop_step {T : Type} fuel context (pe : Parser T)
    result st element st1 comma st2 :
  token st <> terminatorOf context ->
  pe st = Ok (element, st1) ->
  skipOptional CommaToken st1 = Ok (comma, st2) ->
  parseDelimitedListLoop (S fuel) context pe result st
  = parseDelimitedListLoop fuel context pe (result ++ [element]) st2.
Proof.
  intros Hk He Hc. apply SyntaxKind_beq_neq in Hk.
  simpl. unfold bind. now rewrite isListTerminator_eq, Hk, He, Hc.
Qed.

Lemma parseDelimitedListLoop_Ok_inv {T : Type} fuel context (pe : Parser T)
    result st res st' :
  parseDelimitedListLoop fuel context pe result st = Ok (res, st') ->
  exists fuel', fuel = S fuel' /\
    ((token st = terminatorOf context /\ res = result /\ st' = st) \/
     (token st <> terminatorOf context /\
      exists element st1 comma st2,
        pe st = Ok (element, st1) /\
        skipOptional CommaToken st1 = Ok (comma, st2) /\
        parseDelimitedListLoop fuel' context pe (result ++ [element]) st2
        = Ok (res, st'))).
Proof.
  destruct fuel as [|fuel']; [discriminate|]. intros H. exists fuel'.
  split; [reflexivity|]. simpl in H.
  inv_bind H as stop st0 Hstop. rewrite isListTerminator_eq in Hstop. inv_ok Hstop.
  destruct (SyntaxKind_beq (token st0) (terminatorOf context)) eqn:Hk.
  - apply SyntaxKind_beq_eq in Hk. unfold ret in H. inv_ok H. left. auto.
  - apply SyntaxKind_beq_neq in Hk. right. split; [assumption|].
    inv_bind H as element st1 He. inv_bind H as comma st2 Hc.
    exists element, st1, comma, st2. auto.
Qed.

Lemma parseDelimitedListLoop_element_Err {T : Type} fuel context (pe : Parser T)
    result st e :
  token st <> terminatorOf context ->
  pe st = Err e ->
  parseDelimitedListLoop (S fuel) context pe result st = Err e.
Proof.
  intros Hk He. apply SyntaxKind_beq_neq in Hk.
  cbn [parseDelimitedListLoop]. unfold bind. now rewrite isListTerminator_eq, Hk, He.
Qed.

(** A list loop returns only in a state whose current token is the
    terminator of its context. *)
Lemma parseDelimitedListLoop_ends_at_terminator {T : Type} fuel context
    (pe : Parser T) result st res st' :
  parseDelimitedListLoop fuel context pe result st = Ok (res, st') ->
  token st' = terminatorOf context.
Proof.
  revert result st. induction fuel as [|fuel IH]; intros result st H.
  - discriminate.
  - apply parseDelimitedListLoop_Ok_inv in H. destruct H as (fuel' & Hf & H).
    injection Hf as <-.
    destruct H as [(Hk & _ & ->)|(_ & element & st1 & comma & st2 & _ & _ & H)].
    + assumption.
    + eapply IH; eassumption.
Qed.

Lemma skipOptional_absent kind st :
  token st <> kind -> skipOptional kind st = Ok (false, st).
Proof. intros Hk. apply skipOptional_Ok. right. auto. Qed.

Lemma skipOptional_present kind st st' :
  token st = kind -> nextToken st = Ok (tt, st') ->
  skipOptional kind st = Ok (true, st').
Proof. intros Hk Hn. apply skipOptional_Ok. left. auto. Qed.

(** C3 does not hold as stated: that the elements of a list must be
    separated by commas fails on [union<a b>], which is accepted and raises
    no error. *)
Lemma C3_comma_required_counterexample :
  parse "union<a b>" = Ok (Union [Entity "a"; Entity "b"]) /\
  ~ (exists e, parse "union<a b>" = Err e).
Proof.
  split; [reflexivity|]. intros (e & H). discriminate H.
Qed.

(** C3, as the parser has it: between two elements of a union type list, a
    parameter list or a member list a comma may stand, and is skipped, but
    none is required.  After an element that is not followed by a comma the
    loop goes on from the very next token, so that [union<a b>] is the same
    tree as [union<a, b>], and likewise for parameters and members. *)
Theorem C3_comma_between_elements_is_optional :
  (forall (T : Type) fuel context (pe : Parser T) result st element st1,
      token st <> terminatorOf context ->
      pe st = Ok (element, st1) ->
      token st1 <> CommaToken ->
      parseDelimitedListLoop (S fuel) context pe result st
      = parseDelimitedListLoop fuel context pe (result ++ [element]) st1) /\
  parse "union<a b>" = Ok (Union [Entity "a"; Entity "b"]) /\
  parse "union<a b>" = parse "union<a, b>" /\
  parse "(a b)"
  = Ok (Function [FunctionParameter None None (Entity "a");
                  FunctionParameter None None (Entity "b")] None) /\
  parse "(a b)" = parse "(a, b)" /\
  parse "{a: b c: d}"
  = Ok (Object [ObjectMember "a" (Entity "b"); ObjectMember "c" (Entity "d")]) /\
  parse "{a: b c: d}" = parse "{a: b, c: d}".
Proof.
  split; [|repeat split].
  intros T fuel context pe result st element st1 Hk He Hc.
  eapply parseDelimitedListLoop_step; try eassumption.
  now apply skipOptional_absent.
Qed.

(** In [union<a b>], after the element [a] the current token is [b], not a
    comma, and the loop continues with [b] as the next element. *)
Lemma C3_comma_optional_witness :
  parseDelimitedListLoop 3 TypeParameters (parseType 3) []
    (stateAt "a" Identifier " b>")
  = parseDelimitedListLoop 2 TypeParameters (parseType 3) ([] ++ [Entity "a"])
      (stateAt "b" Identifier ">").
Proof.
  apply (proj1 C3_comma_between_elements_is_optional TypeNode 2 TypeParameters
           (parseType 3) [] (stateAt "a" Identifier " b>") (Entity "a")
           (stateAt "b" Identifier ">"));
    [discriminate | reflexivity | discriminate].
Defined.

(** C4: in each list context, one comma after an element is consumed when
    it is there and is not asked for when it is not, and the list ends
    exactly in a state whose current token is the terminator of the
    context.  So a list with a trailing comma is the same tree as the list
    without it: [union<a,>] and [union<a>], [(a,)] and [(a)], [{a: b,}] and
    [{a: b}]. *)
Theorem C4_trailing_comma_and_terminator :
  (forall (T : Type) fuel context (pe : Parser T) st res st',
      parseDelimitedList fuel context pe st = Ok (res, st') ->
      token st' = terminatorOf context) /\
  (forall (T : Type) fuel context (pe : Parser T) result st,
      token st = terminatorOf context ->
      parseDelimitedListLoop (S fuel) context pe result st = Ok (result, st)) /\
  (forall (T : Type) fuel context (pe : Parser T) result st element st1,
      token st <> terminatorOf context ->
      pe st = Ok (element, st1) ->
      (forall st2,
          token st1 = CommaToken -> nextToken st1 = Ok (tt, st2) ->
          parseDelimitedListLoop (S fuel) context pe result st
          = parseDelimitedListLoop fuel context pe (result ++ [element]) st2) /\
      (token st1 <> CommaToken ->
       parseDelimitedListLoop (S fuel) context pe result st
       = parseDelimitedListLoop fuel context pe (result ++ [element]) st1)) /\
  parse "union<a,>" = Ok (Union [Entity "a"]) /\
  parse "union<a,>" = parse "union<a>" /\
  parse "(a,)" = Ok (Function [FunctionParameter None None (Entity "a")] None) /\
  parse "(a,)" = parse "(a)" /\
  parse "{a: b,}" = Ok (Object [ObjectMember "a" (Entity "b")]) /\
  parse "{a: b,}" = parse "{a: b}".
Proof.
  split; [|split; [|split; [|repeat split]]].
  - intros T fuel context pe st res st'. unfold parseDelimitedList.
    apply parseDelimitedListLoop_ends_at_terminator.
  - intros T fuel context pe result st. apply parseDelimitedListLoop_stop.
  - intros T fuel context pe result st element st1 Hk He. split.
    + intros st2 Hc Hn. eapply parseDelimitedListLoop_step; try eassumption.
      now apply skipOptional_present.
    + intros Hc. eapply parseDelimitedListLoop_step; try eassumption.
      now apply skipOptional_absent.
Qed.

(** The list of [union<a,>], entered after [<]: it returns at [>], and the
    comma after [a] has been consumed on the way. *)
Lemma C4_trailing_comma_witness :
  token (stateAt "a" GreaterThanToken "") = terminatorOf TypeParameters /\
  parseDelimitedListLoop 3 TypeParameters (parseType 3) []
    (stateAt "a" Identifier ",>")
  = parseDelimitedListLoop 2 TypeParameters (parseType 3) ([] ++ [Entity "a"])
      (stateAt "a" GreaterThanToken "").
Proof.
  split.
  - apply (proj1 C4_trailing_comma_and_terminator TypeNode 3 TypeParameters
             (parseType 3) (stateAt "a" Identifier ",>") [Entity "a"]
             (stateAt "a" GreaterThanToken "")).
    reflexivity.
  - apply (proj1 (proj1 (proj2 (proj2 C4_trailing_comma_and_terminator))
                    TypeNode 2 TypeParameters (parseType 3) []
                    (stateAt "a" Identifier ",>") (Entity "a")
                    (stateAt "a" CommaToken ">")
                    ltac:(discriminate) eq_refl)
                 (stateAt "a" GreaterThanToken "") eq_refl eq_refl).
Defined.

(** ** Malformed input *)

Lemma parseType_at_EndOfFile fuel st :
  token st = EndOfFileToken ->
  parseType (S fuel) st = Err (UnableToParseToken EndOfFileToken).
Proof. intros Hk. simpl. unfold bind, getToken. now rewrite Hk. Qed.

Lemma parseFunctionParameter_at_EndOfFile pt st :
  token st = EndOfFileToken ->
  parseFunctionParameter pt st
  = bind pt (fun type => ret (FunctionParameter None None type)) st.
Proof.
  intros Hk. apply parseFunctionParameter_unnamed with (st' := st).
  - rewrite Hk. discriminate.
  - destruct st as [sc k]. simpl in Hk. subst k. reflexivity.
Qed.




(** ** Entity names *)

Lemma hoare_bind {A B : Type} P (m : Parser A) Q (f : A -> Parser B) R :
  hoare P m Q -> (forall a, hoare (Q a) (f a) R) -> hoare P (bind m f) R.
Proof.
  intros Hm Hf st b st' HP H. inv_bind H as a st1 H1.
  eapply Hf; [|eassumption]. eapply Hm; eassumption.
Qed.

Lemma hoare_ret {A : Type} (P : PState -> Prop) (a : A) (Q : A -> PState -> Prop) :
  (forall st, P st -> Q a st) -> hoare P (ret a) Q.
Proof. intros HQ st b st' HP H. unfold ret in H. inv_ok H. auto. Qed.

Lemma hoare_pure {A : Type} (fact : Prop) (P : PState -> Prop) (p : Parser A)
    (Q : A -> PState -> Prop) :
  (fact -> hoare P p Q) -> hoare (fun st => P st /\ fact) p Q.
Proof. intros Hp st a st' (HP & Hfact) H. eapply Hp; eassumption. Qed.

Lemma hoare_nextToken P : hoare P nextToken (fun _ => identifierValueOk).
Proof. intros st u st' _ H. eapply nextToken_identifierValueOk; eassumption. Qed.

Lemma hoare_skipExpected P kind :
  hoare P (skipExpected kind) (fun _ => identifierValueOk).
Proof.
  intros st u st' _ H. apply skipExpected_Ok in H. destruct H as (_ & H).
  eapply nextToken_identifierValueOk; eassumption.
Qed.

Lemma hoare_skipOptional kind :
  hoare identifierValueOk (skipOptional kind) (fun _ => identifierValueOk).
Proof.
  intros st b st' Hst H. apply skipOptional_Ok in H.
  destruct H as [(_ & _ & H)|(_ & _ & ->)]; [|assumption].
  eapply nextToken_identifierValueOk; eassumption.
Qed.

Lemma hoare_parseIdentifier :
  hoare identifierValueOk parseIdentifier
    (fun w st => identifierValueOk st /\ isIdentifierWord w = true).
Proof.
  intros st w st' Hst H. apply parseIdentifier_Ok in H.
  destruct H as (Hk & -> & H). split.
  - eapply nextToken_identifierValueOk; eassumption.
  - now apply Hst.
Qed.

Lemma append_assoc (a b c : string) : ((a ++ b) ++ c = a ++ (b ++ c))%string.
Proof. induction a as [|x a IH]; simpl; [reflexivity | now rewrite IH]. Qed.

Lemma concat_snoc sep first others w :
  String.concat sep ((first :: others) ++ [w])
  = (String.concat sep (first :: others) ++ sep ++ w)%string.
Proof.
  revert first. induction others as [|o others IH]; intros first.
  - reflexivity.
  - change (String.concat sep ((first :: o :: others) ++ [w]))
      with (first ++ sep ++ String.concat sep ((o :: others) ++ [w]))%string.
    rewrite IH.
    change (String.concat sep (first :: o :: others))
      with (first ++ sep ++ String.concat sep (o :: others))%string.
    now rewrite !append_assoc.
Qed.

Lemma dottedName_word w : isIdentifierWord w = true -> dottedName w.
Proof. intros Hw. exists w, []. split; [|reflexivity]. now constructor. Qed.

Lemma dottedName_snoc name w :
  dottedName name -> isIdentifierWord w = true ->
  dottedName (name ++ "." ++ w)%string.
Proof.
  intros (first & others & Hall & ->) Hw. exists first, (others ++ [w]). split.
  - change (first :: others ++ [w]) with ((first :: others) ++ [w]).
    apply Forall_app. split; [assumption|]. now constructor.
  - change (first :: others ++ [w]) with ((first :: others) ++ [w]).
    now rewrite concat_snoc.
Qed.

Lemma dottedName_not_empty name : dottedName name -> name <> EmptyString.
Proof.
  intros (first & others & Hall & ->).
  inversion Hall as [|? ? Hfirst _]; subst.
  destruct first as [|c first]; [discriminate Hfirst|].
  destruct others; discriminate.
Qed.

Lemma hoare_parseEntityLoop fuel name :
  dottedName name ->
  hoare identifierValueOk (parseEntityLoop fuel name)
    (fun name' st => identifierValueOk st /\ dottedName name').
Proof.
  revert name. induction fuel as [|fuel IH]; intros name Hname.
  - intros st a st' _ H. discriminate H.
  - cbn [parseEntityLoop]. eapply hoare_bind; [apply hoare_skipOptional|].
    intros [|].
    + eapply hoare_bind; [apply hoare_parseIdentifier|].
      intros w. apply hoare_pure. intros Hw. apply IH.
      now apply dottedName_snoc.
    + apply hoare_ret. auto.
Qed.

Lemma hoare_parseEntity fuel :
  hoare identifierValueOk (parseEntity fuel)
    (fun node st => identifierValueOk st /\ Forall dottedName (entityNames node)).
Proof.
  unfold parseEntity. eapply hoare_bind; [apply hoare_parseIdentifier|].
  intros w. apply hoare_pure. intros Hw.
  eapply hoare_bind.
  - apply hoare_parseEntityLoop. now apply dottedName_word.
  - intros name. apply hoare_ret. intros st (Hst & Hname). split; [assumption|].
    simpl. now constructor.
Qed.

Lemma hoare_parseDelimitedListLoop {T : Type} (Q : T -> Prop) fuel context
    (pe : Parser T) result :
  hoare identifierValueOk pe (fun x st => identifierValueOk st /\ Q x) ->
  Forall Q result ->
  hoare identifierValueOk (parseDelimitedListLoop fuel context pe result)
    (fun res st => identifierValueOk st /\ Forall Q res).
Proof.
  intros Hpe. revert result. induction fuel as [|fuel IH]; intros result Hres.
  - intros st a st' _ H. discriminate H.
  - cbn [parseDelimitedListLoop].
    eapply hoare_bind with (Q := fun _ => identifierValueOk).
    + intros st b st' Hst H. rewrite isListTerminator_eq in H. now inv_ok H.
    + intros [|]; [apply hoare_ret; auto|].
      eapply hoare_bind; [apply Hpe|].
      intros x. apply hoare_pure. intros Hx.
      eapply hoare_bind; [apply hoare_skipOptional|].
      intros ?. apply IH. apply Forall_app. split; [assumption|]. now constructor.
Qed.

Lemma hoare_parseBracketedList {T : Type} (Q : T -> Prop) fuel context
    (pe : Parser T) open close P :
  hoare identifierValueOk pe (fun x st => identifierValueOk st /\ Q x) ->
  hoare P (parseBracketedList fuel context pe open close)
    (fun res st => identifierValueOk st /\ Forall Q res).
Proof.
  intros Hpe. unfold parseBracketedList, parseDelimitedList.
  eapply hoare_bind; [apply hoare_skipExpected|]. intros ?.
  eapply hoare_bind;
    [apply hoare_parseDelimitedListLoop; [exact Hpe | constructor]|].
  intros res. apply hoare_pure. intros Hres.
  eapply hoare_bind; [apply hoare_skipExpected|]. intros ?.
  apply hoare_ret. auto.
Qed.

Lemma hoare_getToken P : hoare P getToken (fun _ => P).
Proof. intros st k st' HP H. unfold getToken in H. now inv_ok H. Qed.

Lemma hoare_invariant P condition : hoare P (invariant condition) (fun _ => P).
Proof.
  intros st u st' HP H. destruct condition; [|discriminate H].
  unfold invariant, ret in H. now inv_ok H.
Qed.

Lemma hoare_lookAheadNamedFunctionParameterStart P :
  hoare P lookAheadNamedFunctionParameterStart (fun _ => P).
Proof.
  intros st b st' HP H.
  now apply lookAheadNamedFunctionParameterStart_restores in H as ->.
Qed.

Section EntityNamesOfProductions.

Variable pt : Parser TypeNode.
Variable fuel : nat.

Hypothesis pt_ok :
  hoare identifierValueOk pt
    (fun node st => identifierValueOk st /\ Forall dottedName (entityNames node)).

Lemma hoare_parseNullable P :
  hoare P (parseNullable pt)
    (fun node st => identifierValueOk st /\ Forall dottedName (entityNames node)).
Proof.
  unfold parseNullable. eapply hoare_bind; [apply hoare_nextToken|]. intros ?.
  eapply hoare_bind; [apply pt_ok|]. intros type. apply hoare_ret. auto.
Qed.

Lemma hoare_parseArray P :
  hoare P (parseArray pt)
    (fun node st => identifierValueOk st /\ Forall dottedName (entityNames node)).
Proof.
  unfold parseArray. eapply hoare_bind; [apply hoare_skipExpected|]. intros ?.
  eapply hoare_bind; [apply pt_ok|]. intros type. apply hoare_pure. intros Htype.
  eapply hoare_bind; [apply hoare_skipExpected|]. intros ?.
  apply hoare_ret. auto.
Qed.

Lemma hoare_parseTypeLiteralMember :
  hoare identifierValueOk (parseTypeLiteralMember pt)
    (fun m st => identifierValueOk st /\ Forall dottedName (entityNamesOfMember m)).
Proof.
  unfold parseTypeLiteralMember.
  eapply hoare_bind; [apply hoare_parseIdentifier|]. intros name.
  eapply hoare_bind; [apply hoare_skipExpected|]. intros ?.
  eapply hoare_bind; [apply pt_ok|]. intros type. apply hoare_ret. auto.
Qed.

Lemma hoare_parseObject P :
  hoare P (parseObject pt fuel)
    (fun node st => identifierValueOk st /\ Forall dottedName (entityNames node)).
Proof.
  unfold parseObject. eapply hoare_bind; [apply hoare_getToken|]. intros k.
  eapply hoare_bind; [apply hoare_invariant|]. intros ?.
  eapply hoare_bind.
  - apply hoare_parseBracketedList
      with (Q := fun m => Forall dottedName (entityNamesOfMember m)).
    apply hoare_parseTypeLiteralMember.
  - intros members. apply hoare_ret. intros st (Hst & Hms). split; [assumption|].
    cbn [entityNames]. now apply Forall_flat_map.
Qed.

Lemma hoare_parseUnion P :
  hoare P (parseUnion pt fuel)
    (fun node st => identifierValueOk st /\ Forall dottedName (entityNames node)).
Proof.
  unfold parseUnion. eapply hoare_bind; [apply hoare_getToken|]. intros k.
  eapply hoare_bind; [apply hoare_invariant|]. intros ?.
  eapply hoare_bind; [apply hoare_nextToken|]. intros ?.
  eapply hoare_bind.
  - apply hoare_parseBracketedList
      with (Q := fun t => Forall dottedName (entityNames t)).
    apply pt_ok.
  - intros types. apply hoare_ret. intros st (Hst & Hts). split; [assumption|].
    cbn [entityNames]. now apply Forall_flat_map.
Qed.

Lemma hoare_parseFunctionParameterPrefix :
  hoare identifierValueOk parseFunctionParameterPrefix (fun _ => identifierValueOk).
Proof.
  unfold parseFunctionParameterPrefix.
  eapply hoare_bind; [apply hoare_getToken|]. intros k.
  destruct (SyntaxKind_beq k DotDotDotToken).
  - eapply hoare_bind; [apply hoare_nextToken|]. intros ?.
    eapply hoare_bind; [apply hoare_parseIdentifier|]. intros name.
    eapply hoare_bind; [apply hoare_skipExpected|]. intros ?.
    apply hoare_ret. auto.
  - eapply hoare_bind; [apply hoare_lookAheadNamedFunctionParameterStart|].
    intros [|].
    + eapply hoare_bind; [apply hoare_parseIdentifier|]. intros name.
      eapply hoare_bind; [apply hoare_skipExpected|]. intros ?.
      apply hoare_ret. auto.
    + apply hoare_ret. auto.
Qed.

Lemma hoare_parseFunctionParameter :
  hoare identifierValueOk (parseFunctionParameter pt)
    (fun p st => identifierValueOk st /\ Forall dottedName (entityNamesOfParameter p)).
Proof.
  unfold parseFunctionParameter.
  eapply hoare_bind; [apply hoare_parseFunctionParameterPrefix|].
  intros [name rest].
  eapply hoare_bind; [apply pt_ok|]. intros type. apply hoare_ret. auto.
Qed.

Lemma hoare_parseFunction P :
  hoare P (parseFunction pt fuel)
    (fun node st => identifierValueOk st /\ Forall dottedName (entityNames node)).
Proof.
  unfold parseFunction. eapply hoare_bind.
  - apply hoare_parseBracketedList
      with (Q := fun p => Forall dottedName (entityNamesOfParameter p)).
    apply hoare_parseFunctionParameter.
  - intros parameters. apply hoare_pure. intros Hps.
    eapply hoare_bind; [apply hoare_skipOptional|]. intros [|].
    + eapply hoare_bind; [apply pt_ok|]. intros returnType. apply hoare_ret.
      intros st (Hst & Hr). split; [assumption|]. cbn [entityNames].
      apply Forall_app. split; [now apply Forall_flat_map | assumption].
    + apply hoare_ret. intros st Hst. split; [assumption|]. cbn [entityNames].
      apply Forall_app. split; [now apply Forall_flat_map | constructor].
Qed.

End EntityNamesOfProductions.

Lemma hoare_parseType fuel :
  hoare identifierValueOk (parseType fuel)
    (fun node st => identifierValueOk st /\ Forall dottedName (entityNames node)).
Proof.
  induction fuel as [|fuel IH].
  - intros st a st' _ H. discriminate H.
  - cbn [parseType]. eapply hoare_bind; [apply hoare_getToken|].
    intros k.
    destruct k;
      try (intros st a st' _ H; discriminate H);
      auto using hoare_parseEntity, hoare_parseNullable, hoare_parseArray,
        hoare_parseObject, hoare_parseUnion, hoare_parseFunction.
    + unfold parseStringLiteral.
      eapply hoare_bind with (Q := fun _ => identifierValueOk);
        [intros st v st' Hst H; unfold getTokenValue in H; now inv_ok H|]. intros v.
      eapply hoare_bind; [apply hoare_nextToken|]. intros ?.
      apply hoare_ret. intros st Hst. split; [assumption | constructor].
    + unfold parseNumberLiteral.
      eapply hoare_bind with (Q := fun _ => identifierValueOk);
        [intros st v st' Hst H; unfold getTokenValue in H; now inv_ok H|]. intros v.
      eapply hoare_bind; [apply hoare_nextToken|]. intros ?.
      apply hoare_ret. intros st Hst. split; [assumption | constructor].
    + unfold parseAny. eapply hoare_bind; [apply hoare_nextToken|]. intros ?.
      apply hoare_ret. intros st Hst. split; [assumption | constructor].
    + unfold parseAny. eapply hoare_bind; [apply hoare_nextToken|]. intros ?.
      apply hoare_ret. intros st Hst. split; [assumption | constructor].
Qed.

Lemma initialState_identifierValueOk text st :
  initialState text = Ok st -> identifierValueOk st.
Proof.
  unfold initialState.
  destruct (Scanner.scan (Scanner.createScanner text)) as [[k sc]|e] eqn:Hscan;
    [|discriminate].
  intros H Hid. inv_ok H. simpl in *. subst k. eapply scan_Identifier; eassumption.
Qed.

Lemma parse_Ok text node :
  parse text = Ok node <->
  exists st st',
    initialState text = Ok st /\
    parseType (S (String.length text)) st = Ok (node, st').
Proof.
  unfold parse. split.
  - destruct (initialState text) as [st|e]; [|discriminate].
    destruct (parseType _ st) as [[node' st']|e] eqn:Htype; [|discriminate].
    intros H. inv_ok H. eauto.
  - intros (st & st' & -> & ->). reflexivity.
Qed.

(** C6: [a.b.c] is one Entity node whose name is the string [a.b.c]; and
    in every tree that [parse] returns, the name of every Entity node is
    one or more identifiers joined by ['.'], and so is not the empty
    string. *)
Theorem C6_entity_names :
  parse "a.b.c" = Ok (Entity "a.b.c") /\
  (forall text node name,
      parse text = Ok node ->
      In name (entityNames node) ->
      dottedName name /\ name <> EmptyString).
Proof.
  split; [reflexivity|].
  intros text node name H Hin. apply parse_Ok in H.
  destruct H as (st & st' & Hinit & H).
  apply hoare_parseType in H; [|eapply initialState_identifierValueOk; eassumption].
  destruct H as (_ & Hall). rewrite Forall_forall in Hall.
  specialize (Hall name Hin). split; [assumption|].
  now apply dottedName_not_empty.
Qed.

(** The Entity of [{node: dom.Node}]: its name is the two identifiers
    [dom] and [Node] joined by a dot. *)
Lemma C6_entity_names_witness :
  dottedName "dom.Node" /\ "dom.Node" <> EmptyString.
Proof.
  apply (proj2 C6_entity_names "{node: dom.Node}"
           (Object [ObjectMember "node" (Entity "dom.Node")]) "dom.Node").
  - reflexivity.
  - left. reflexivity.
Defined.

(** ** Termination: the fuel of [parse] is never exhausted *)

Lemma skipWhiteSpace_length s :
  String.length (Scanner.skipWhiteSpace s) <= String.length s.
Proof.
  induction s as [|c s IH]; simpl; [lia|].
  destruct (Scanner.isWhiteSpace c); simpl; lia.
Qed.

Lemma stripPrefix_length p s r :
  Scanner.stripPrefix p s = Some r -> String.length r <= String.length s.
Proof.
  revert s. induction p as [|a p IH]; intros s H; simpl in H.
  - inv_ok H. lia.
  - destruct s as [|b s]; [discriminate|].
    destruct (Ascii.eqb a b); [|discriminate].
    apply IH in H. simpl. lia.
Qed.

Lemma scanWhile_length p s w r :
  Scanner.scanWhile p s = (w, r) -> String.length r <= String.length s.
Proof.
  revert w r. induction s as [|c s IH]; intros w r H; simpl in H.
  - inv_ok H. simpl. lia.
  - destruct (p c).
    + destruct (Scanner.scanWhile p s) as [w0 r0].
      specialize (IH w0 r0 eq_refl). inv_ok H. simpl. lia.
    + inv_ok H. lia.
Qed.

Lemma scanStringBody_length s w r :
  Scanner.scanStringBody s = Some (w, r) -> String.length r <= String.length s.
Proof.
  remember (String.length s) as n eqn:Hn. revert s w r Hn.
  induction n as [n IH] using lt_wf_ind. intros s w r Hn H.
  destruct s as [|c s]; [discriminate|]. simpl in H, Hn.
  destruct (Ascii.eqb c Scanner.doubleQuote).
  - inv_ok H. lia.
  - destruct (Ascii.eqb c Scanner.backslash).
    + destruct s as [|c' s]; [discriminate|].
      destruct (Scanner.scanStringBody s) as [[w0 r0]|] eqn:Hbody; [|discriminate].
      inv_ok H. simpl in *.
      specialize (IH (String.length s) ltac:(lia) s w0 r eq_refl Hbody). lia.
    + destruct (Scanner.scanStringBody s) as [[w0 r0]|] eqn:Hbody; [|discriminate].
      inv_ok H.
      specialize (IH (String.length s) ltac:(lia) s w0 r eq_refl Hbody). lia.
Qed.

Lemma lookupPunctuation_not_EndOfFile c k :
  Scanner.lookupPunctuation c Scanner.punctuation = Some k -> k <> EndOfFileToken.
Proof.
  unfold Scanner.punctuation. simpl.
  repeat match goal with
         | |- context [Ascii.eqb c ?x] => destruct (Ascii.eqb c x)
         end; congruence.
Qed.

(** A lexeme is never the end token, and what is left after it is no
    longer than what followed its first character. *)
Lemma scanLexeme_Ok c s k v r :
  Scanner.scanLexeme c s = Ok (k, v, r) ->
  k <> EndOfFileToken /\ String.length r <= String.length s.
Proof.
  unfold Scanner.scanLexeme.
  destruct (Ascii.eqb c ".").
  { destruct (Scanner.stripPrefix ".." s) as [r0|] eqn:Hp; intros H; inv_ok H.
    - apply stripPrefix_length in Hp. split; [discriminate | lia].
    - split; [discriminate | lia]. }
  destruct (Ascii.eqb c "226").
  { destruct (Scanner.stripPrefix Scanner.arrowTail s) as [r0|] eqn:Hp;
      intros H; [|discriminate]. inv_ok H.
    apply stripPrefix_length in Hp. split; [discriminate | lia]. }
  destruct (Ascii.eqb c Scanner.doubleQuote).
  { destruct (Scanner.scanStringBody s) as [[w0 r0]|] eqn:Hb; intros H; [|discriminate].
    inv_ok H. apply scanStringBody_length in Hb. split; [discriminate | lia]. }
  destruct (Scanner.isDigit c).
  { destruct (Scanner.scanWhile Scanner.isDigit s) as [w0 r0] eqn:Hw. intros H.
    inv_ok H. apply scanWhile_length in Hw. split; [discriminate | lia]. }
  destruct (Scanner.isIdentifierStart c).
  - destruct (Scanner.scanWhile Scanner.isIdentifierPart s) as [w0 r0] eqn:Hw.
    apply scanWhile_length in Hw. unfold Scanner.keywordOrIdentifier.
    destruct (String.eqb (String c w0) "any");
      [|destruct (String.eqb (String c w0) "union")];
      intros H; inv_ok H; (split; [discriminate | lia]).
  - destruct (Scanner.lookupPunctuation c Scanner.punctuation) eqn:Hp; [|discriminate].
    intros H. inv_ok H. apply lookupPunctuation_not_EndOfFile in Hp.
    split; [assumption | lia].
Qed.

Lemma scanLexeme_not_OutOfFuel c s : Scanner.scanLexeme c s <> Err OutOfFuel.
Proof.
  unfold Scanner.scanLexeme.
  repeat match goal with
         | |- context [if ?b then _ else _] => destruct b
         | |- context [match ?x with _ => _ end] => destruct x
         end; discriminate.
Qed.

Lemma scan_measure s k s' :
  Scanner.scan s = Ok (k, s') ->
  String.length (Scanner.skipWhiteSpace (Scanner.text s'))
  + (if SyntaxKind_beq k EndOfFileToken then 0 else 1)
  <= String.length (Scanner.skipWhiteSpace (Scanner.text s)).
Proof.
  unfold Scanner.scan.
  destruct (Scanner.skipWhiteSpace (Scanner.text s)) as [|c r].
  - intros H. inv_ok H. simpl. lia.
  - destruct (Scanner.scanLexeme c r) as [[[k0 v] r']|e] eqn:Hlex; [|discriminate].
    intros H. inv_ok H. apply scanLexeme_Ok in Hlex. destruct Hlex as (Hk & Hlen).
    pose proof (skipWhiteSpace_length r') as Hws.
    simpl in *. destruct (SyntaxKind_beq k EndOfFileToken); lia.
Qed.

Lemma scan_not_OutOfFuel s : Scanner.scan s <> Err OutOfFuel.
Proof.
  unfold Scanner.scan.
  destruct (Scanner.skipWhiteSpace (Scanner.text s)) as [|c r]; [discriminate|].
  pose proof (scanLexeme_not_OutOfFuel c r) as H.
  destruct (Scanner.scanLexeme c r) as [[[k v] r']|e]; [discriminate | congruence].
Qed.

Lemma nextToken_measure st u st' :
  nextToken st = Ok (u, st') ->
  measure st' + (if SyntaxKind_beq (token st) EndOfFileToken then 0 else 1)
  <= measure st.
Proof.
  destruct u. intros H. apply nextToken_Ok in H. destruct H as (sc & Hscan & <-).
  apply scan_measure in Hscan. unfold measure.
  destruct (SyntaxKind_beq (token st) EndOfFileToken); lia.
Qed.

Lemma nextToken_measure_strict st u st' :
  token st <> EndOfFileToken ->
  nextToken st = Ok (u, st') -> measure st' + 1 <= measure st.
Proof.
  intros Hk H. apply nextToken_measure in H. apply SyntaxKind_beq_neq in Hk.
  now rewrite Hk in H.
Qed.

Lemma nextToken_not_OutOfFuel st : nextToken st <> Err OutOfFuel.
Proof.
  unfold nextToken. pose proof (scan_not_OutOfFuel (scanner st)) as H.
  destruct (Scanner.scan (scanner st)) as [[k sc]|e]; [discriminate | congruence].
Qed.

Lemma decreasing_bind {A B : Type} d1 d2 (m : Parser A) (f : A -> Parser B) :
  decreasing d1 m -> (forall a, decreasing d2 (f a)) ->
  decreasing (d1 + d2) (bind m f).
Proof.
  intros Hm Hf st b st' H. inv_bind H as a st1 H1.
  apply Hm in H1. apply Hf in H. lia.
Qed.

Lemma decreasing_weaken {A : Type} d d' (p : Parser A) :
  decreasing d p -> d' <= d -> decreasing d' p.
Proof. intros Hp Hd st a st' H. apply Hp in H. lia. Qed.

Lemma decreasing_ret {A : Type} (a : A) : decreasing 0 (ret a).
Proof. intros st b st' H. unfold ret in H. inv_ok H. lia. Qed.

Lemma decreasing_throw {A : Type} d e : decreasing d (@throw A e).
Proof. intros st b st' H. discriminate H. Qed.

Lemma decreasing_nextToken : decreasing 0 nextToken.
Proof. intros st u st' H. apply nextToken_measure in H. lia. Qed.

Lemma decreasing_getToken : decreasing 0 getToken.
Proof. intros st k st' H. unfold getToken in H. inv_ok H. lia. Qed.

Lemma decreasing_invariant condition : decreasing 0 (invariant condition).
Proof.
  destruct condition; [apply decreasing_ret | apply decreasing_throw].
Qed.

Lemma decreasing_skipExpected kind :
  kind <> EndOfFileToken -> decreasing 1 (skipExpected kind).
Proof.
  intros Hkind st u st' H. apply skipExpected_Ok in H. destruct H as (Hk & H).
  eapply nextToken_measure_strict; [|eassumption]. congruence.
Qed.

Lemma decreasing_skipOptional kind : decreasing 0 (skipOptional kind).
Proof.
  intros st b st' H. apply skipOptional_Ok in H.
  destruct H as [(_ & _ & H)|(_ & _ & ->)]; [|lia].
  apply nextToken_measure in H. lia.
Qed.

Lemma decreasing_parseIdentifier : decreasing 1 parseIdentifier.
Proof.
  intros st w st' H. apply parseIdentifier_Ok in H. destruct H as (Hk & _ & H).
  eapply nextToken_measure_strict; [|eassumption]. congruence.
Qed.

Lemma decreasing_lookAheadNamedFunctionParameterStart :
  decreasing 0 lookAheadNamedFunctionParameterStart.
Proof.
  intros st b st' H.
  apply lookAheadNamedFunctionParameterStart_restores in H as ->. lia.
Qed.

Lemma decreasing_parseEntityLoop fuel name : decreasing 0 (parseEntityLoop fuel name).
Proof.
  revert name. induction fuel as [|fuel IH]; intros name.
  - apply decreasing_throw.
  - cbn [parseEntityLoop].
    apply (decreasing_bind 0 0); [apply decreasing_skipOptional|].
    intros [|]; [|apply decreasing_ret].
    apply (decreasing_weaken (1 + 0)); [|lia].
    apply decreasing_bind; [apply decreasing_parseIdentifier|]. intros w. apply IH.
Qed.

Lemma decreasing_parseEntity fuel : decreasing 1 (parseEntity fuel).
Proof.
  unfold parseEntity. apply (decreasing_bind 1 0); [apply decreasing_parseIdentifier|].
  intros w. apply (decreasing_bind 0 0); [apply decreasing_parseEntityLoop|].
  intros name. apply decreasing_ret.
Qed.

Lemma decreasing_parseDelimitedListLoop {T : Type} fuel context (pe : Parser T) result :
  decreasing 0 pe -> decreasing 0 (parseDelimitedListLoop fuel context pe result).
Proof.
  intros Hpe. revert result. induction fuel as [|fuel IH]; intros result.
  - apply decreasing_throw.
  - cbn [parseDelimitedListLoop]. apply (decreasing_bind 0 0).
    + intros st b st' H. rewrite isListTerminator_eq in H. inv_ok H. lia.
    + intros [|]; [apply decreasing_ret|].
      apply (decreasing_bind 0 0); [assumption|]. intros x.
      apply (decreasing_bind 0 0); [apply decreasing_skipOptional|]. intros ?.
      apply IH.
Qed.

Lemma decreasing_parseBracketedList {T : Type} fuel context (pe : Parser T) open close :
  decreasing 0 pe -> open <> EndOfFileToken -> close <> EndOfFileToken ->
  decreasing 2 (parseBracketedList fuel context pe open close).
Proof.
  intros Hpe Hopen Hclose. unfold parseBracketedList, parseDelimitedList.
  apply (decreasing_bind 1 1); [now apply decreasing_skipExpected|]. intros ?.
  apply (decreasing_bind 0 1); [now apply decreasing_parseDelimitedListLoop|].
  intros res. apply (decreasing_bind 1 0); [now apply decreasing_skipExpected|].
  intros ?. apply decreasing_ret.
Qed.

Section ProductionsConsume.

Variable pt : Parser TypeNode.
Variable fuel : nat.
Hypothesis pt_decreasing : decreasing 1 pt.

Lemma decreasing_parseNullable : decreasing 1 (parseNullable pt).
Proof.
  unfold parseNullable. apply (decreasing_bind 0 1); [apply decreasing_nextToken|].
  intros ?. apply (decreasing_bind 1 0); [assumption|]. intros type.
  apply decreasing_ret.
Qed.

Lemma decreasing_parseArray : decreasing 1 (parseArray pt).
Proof.
  unfold parseArray. apply (decreasing_weaken (1 + (1 + (1 + 0)))); [|lia].
  apply decreasing_bind; [now apply decreasing_skipExpected|]. intros ?.
  apply decreasing_bind; [assumption|]. intros type.
  apply decreasing_bind; [now apply decreasing_skipExpected|]. intros ?.
  apply decreasing_ret.
Qed.

Lemma decreasing_parseTypeLiteralMember : decreasing 1 (parseTypeLiteralMember pt).
Proof.
  unfold parseTypeLiteralMember. apply (decreasing_weaken (1 + (1 + (1 + 0)))); [|lia].
  apply decreasing_bind; [apply decreasing_parseIdentifier|]. intros name.
  apply decreasing_bind; [now apply decreasing_skipExpected|]. intros ?.
  apply decreasing_bind; [assumption|]. intros type. apply decreasing_ret.
Qed.

Lemma decreasing_parseObject : decreasing 1 (parseObject pt fuel).
Proof.
  unfold parseObject. apply (decreasing_weaken (0 + (0 + (2 + 0)))); [|lia].
  apply decreasing_bind; [apply decreasing_getToken|]. intros k.
  apply decreasing_bind; [apply decreasing_invariant|]. intros ?.
  apply decreasing_bind.
  - apply decreasing_parseBracketedList; try discriminate.
    eapply decreasing_weaken; [apply decreasing_parseTypeLiteralMember | lia].
  - intros members. apply decreasing_ret.
Qed.

Lemma decreasing_parseUnion : decreasing 1 (parseUnion pt fuel).
Proof.
  unfold parseUnion. apply (decreasing_weaken (0 + (0 + (0 + (2 + 0))))); [|lia].
  apply decreasing_bind; [apply decreasing_getToken|]. intros k.
  apply decreasing_bind; [apply decreasing_invariant|]. intros ?.
  apply decreasing_bind; [apply decreasing_nextToken|]. intros ?.
  apply decreasing_bind.
  - apply decreasing_parseBracketedList; try discriminate.
    eapply decreasing_weaken; [eassumption | lia].
  - intros types. apply decreasing_ret.
Qed.

Lemma decreasing_parseFunctionParameterPrefix :
  decreasing 0 parseFunctionParameterPrefix.
Proof.
  unfold parseFunctionParameterPrefix.
  apply (decreasing_bind 0 0); [apply decreasing_getToken|]. intros k.
  destruct (SyntaxKind_beq k DotDotDotToken).
  - apply (decreasing_bind 0 0); [apply decreasing_nextToken|]. intros ?.
    apply (decreasing_weaken (1 + (1 + 0))); [|lia].
    apply decreasing_bind; [apply decreasing_parseIdentifier|]. intros name.
    apply decreasing_bind; [now apply decreasing_skipExpected|]. intros ?.
    apply decreasing_ret.
  - apply (decreasing_bind 0 0);
      [apply decreasing_lookAheadNamedFunctionParameterStart|].
    intros [|]; [|apply decreasing_ret].
    apply (decreasing_weaken (1 + (1 + 0))); [|lia].
    apply decreasing_bind; [apply decreasing_parseIdentifier|]. intros name.
    apply decreasing_bind; [now apply decreasing_skipExpected|]. intros ?.
    apply decreasing_ret.
Qed.

Lemma decreasing_parseFunctionParameter : decreasing 1 (parseFunctionParameter pt).
Proof.
  unfold parseFunctionParameter.
  apply (decreasing_bind 0 1); [apply decreasing_parseFunctionParameterPrefix|].
  intros [name rest]. apply (decreasing_bind 1 0); [assumption|].
  intros type. apply decreasing_ret.
Qed.

Lemma decreasing_parseFunction : decreasing 1 (parseFunction pt fuel).
Proof.
  unfold parseFunction. apply (decreasing_weaken (2 + (0 + 0))); [|lia].
  apply decreasing_bind.
  - apply decreasing_parseBracketedList; try discriminate.
    eapply decreasing_weaken; [apply decreasing_parseFunctionParameter | lia].
  - intros parameters. apply decreasing_bind; [apply decreasing_skipOptional|].
    intros [|]; [|apply decreasing_ret].
    apply (decreasing_weaken (1 + 0)); [|lia].
    apply decreasing_bind; [assumption|]. intros type. apply decreasing_ret.
Qed.

End ProductionsConsume.

(** Literals and the wildcard consume their token. *)
Lemma token_then_nextToken_decreasing {A : Type} (p : Parser A) st a st' :
  token st <> EndOfFileToken ->
  (forall st0 a0 st0',
      p st0 = Ok (a0, st0') -> exists u, nextToken st0 = Ok (u, st0')) ->
  p st = Ok (a, st') -> measure st' + 1 <= measure st.
Proof.
  intros Hk Hp H. apply Hp in H. destruct H as (u & H).
  eapply nextToken_measure_strict; eassumption.
Qed.

Lemma parseAny_nextToken st a st' :
  parseAny st = Ok (a, st') -> exists u, nextToken st = Ok (u, st').
Proof.
  unfold parseAny. intros H. inv_bind H as u st1 H1. unfold ret in H. inv_ok H. eauto.
Qed.

Lemma parseStringLiteral_nextToken st a st' :
  parseStringLiteral st = Ok (a, st') -> exists u, nextToken st = Ok (u, st').
Proof.
  unfold parseStringLiteral. intros H. inv_bind H as v st0 H0.
  unfold getTokenValue in H0. inv_ok H0.
  inv_bind H as u st1 H1. unfold ret in H. inv_ok H. eauto.
Qed.

Lemma parseNumberLiteral_nextToken st a st' :
  parseNumberLiteral st = Ok (a, st') -> exists u, nextToken st = Ok (u, st').
Proof.
  unfold parseNumberLiteral. intros H. inv_bind H as v st0 H0.
  unfold getTokenValue in H0. inv_ok H0.
  inv_bind H as u st1 H1. unfold ret in H. inv_ok H. eauto.
Qed.

(** Every type that is parsed consumes at least one token. *)
Lemma decreasing_parseType fuel : decreasing 1 (parseType fuel).
Proof.
  induction fuel as [|fuel IH].
  - apply decreasing_throw.
  - intros st node st'. cbn [parseType]. unfold bind at 1, getToken.
    destruct (token st) eqn:Hk; try discriminate.
    + apply decreasing_parseEntity.
    + apply token_then_nextToken_decreasing;
        [congruence | apply parseStringLiteral_nextToken].
    + apply token_then_nextToken_decreasing;
        [congruence | apply parseNumberLiteral_nextToken].
    + now apply decreasing_parseNullable.
    + now apply decreasing_parseFunction.
    + now apply decreasing_parseArray.
    + now apply decreasing_parseObject.
    + apply token_then_nextToken_decreasing; [congruence | apply parseAny_nextToken].
    + apply token_then_nextToken_decreasing; [congruence | apply parseAny_nextToken].
    + now apply decreasing_parseUnion.
Qed.

Lemma safe_bind {A B : Type} n d (m : Parser A) (f : A -> Parser B) :
  safe n m -> decreasing d m -> (forall a, safe (n - d) (f a)) ->
  safe n (bind m f).
Proof.
  intros Hm Hd Hf st Hst. unfold bind.
  destruct (m st) as [[a st1]|e] eqn:H1.
  - apply Hd in H1. apply Hf. lia.
  - intros Heq. injection Heq as ->. now apply (Hm st Hst).
Qed.

Lemma safe_weaken {A : Type} n n' (p : Parser A) :
  safe n p -> n' <= n -> safe n' p.
Proof. intros Hp Hn st Hst. apply Hp. lia. Qed.

Lemma safe_always {A : Type} n (p : Parser A) :
  (forall st, p st <> Err OutOfFuel) -> safe n p.
Proof. intros Hp st _. apply Hp. Qed.

Lemma safe_ret {A : Type} n (a : A) : safe n (ret a).
Proof. apply safe_always. discriminate. Qed.

Lemma safe_nextToken n : safe n nextToken.
Proof. apply safe_always, nextToken_not_OutOfFuel. Qed.

Lemma safe_getToken n : safe n getToken.
Proof. apply safe_always. discriminate. Qed.

Lemma safe_invariant n condition : safe n (invariant condition).
Proof. apply safe_always. destruct condition; discriminate. Qed.

Lemma safe_skipExpected n kind : safe n (skipExpected kind).
Proof.
  apply safe_always. intros st. unfold skipExpected, bind, getToken, throw.
  destruct (negb _); [discriminate | apply nextToken_not_OutOfFuel].
Qed.

Lemma safe_skipOptional n kind : safe n (skipOptional kind).
Proof.
  apply safe_always. intros st. unfold skipOptional, bind, getToken, ret.
  destruct (SyntaxKind_beq _ _); [|discriminate].
  pose proof (nextToken_not_OutOfFuel st) as H.
  destruct (nextToken st) as [[u st1]|e]; [discriminate | congruence].
Qed.

Lemma safe_parseIdentifier n : safe n parseIdentifier.
Proof.
  apply safe_always. intros st.
  unfold parseIdentifier, bind, getToken, getTokenValue, invariant, ret, throw.
  destruct (SyntaxKind_beq _ _); [|discriminate].
  pose proof (nextToken_not_OutOfFuel st) as H.
  destruct (nextToken st) as [[u st1]|e]; [discriminate | congruence].
Qed.

Lemma safe_lookAheadNamedFunctionParameterStart n :
  safe n lookAheadNamedFunctionParameterStart.
Proof.
  apply safe_always. intros st.
  unfold lookAheadNamedFunctionParameterStart, Scanner.lookAhead,
    isNamedFunctionParameterStart.
  destruct (SyntaxKind_beq _ _); [|discriminate].
  pose proof (scan_not_OutOfFuel (scanner st)) as H.
  destruct (Scanner.scan (scanner st)) as [[k sc]|e]; [discriminate | congruence].
Qed.

Lemma safe_parseEntityLoop fuel name : safe fuel (parseEntityLoop fuel name).
Proof.
  revert name. induction fuel as [|fuel IH]; intros name.
  - intros st Hst. inversion Hst.
  - cbn [parseEntityLoop].
    apply (safe_bind _ 0); [apply safe_skipOptional | apply decreasing_skipOptional|].
    intros [|]; [|apply safe_ret].
    apply (safe_bind _ 1);
      [apply safe_parseIdentifier | apply decreasing_parseIdentifier|].
    intros w. eapply safe_weaken; [apply IH | lia].
Qed.

Lemma safe_parseEntity fuel : safe (S fuel) (parseEntity fuel).
Proof.
  unfold parseEntity.
  apply (safe_bind _ 1);
    [apply safe_parseIdentifier | apply decreasing_parseIdentifier|].
  intros w. apply (safe_bind _ 0);
    [eapply safe_weaken; [apply safe_parseEntityLoop | lia]
    | apply decreasing_parseEntityLoop |].
  intros name. apply safe_ret.
Qed.

Lemma safe_parseDelimitedListLoop {T : Type} limit fuel context (pe : Parser T) result :
  safe limit pe -> decreasing 1 pe -> fuel <= limit ->
  safe fuel (parseDelimitedListLoop fuel context pe result).
Proof.
  intros Hsafe Hdec. revert result. induction fuel as [|fuel IH]; intros result Hle.
  - intros st Hst. inversion Hst.
  - cbn [parseDelimitedListLoop]. apply (safe_bind _ 0).
    + apply safe_always. intros st. rewrite isListTerminator_eq. discriminate.
    + intros st b st' H. rewrite isListTerminator_eq in H. inv_ok H. lia.
    + intros [|]; [apply safe_ret|].
      apply (safe_bind _ 1); [eapply safe_weaken; [eassumption | lia] | assumption|].
      intros x.
      apply (safe_bind _ 0); [apply safe_skipOptional | apply decreasing_skipOptional|].
      intros ?. eapply safe_weaken; [apply IH; lia | lia].
Qed.

Lemma safe_parseBracketedList {T : Type} fuel context (pe : Parser T) open close :
  safe fuel pe -> decreasing 1 pe -> open <> EndOfFileToken ->
  safe (S fuel) (parseBracketedList fuel context pe open close).
Proof.
  intros Hsafe Hdec Hopen. unfold parseBracketedList, parseDelimitedList.
  apply (safe_bind _ 1);
    [apply safe_skipExpected | now apply decreasing_skipExpected|].
  intros ?. apply (safe_bind _ 0).
  - eapply safe_weaken; [apply (safe_parseDelimitedListLoop fuel fuel); auto | lia].
  - apply decreasing_parseDelimitedListLoop.
    eapply decreasing_weaken; [eassumption | lia].
  - intros res. apply (safe_bind _ 0); [apply safe_skipExpected | |].
    + intros st u st' H. apply skipExpected_Ok in H. destruct H as (_ & H).
      apply nextToken_measure in H. lia.
    + intros ?. apply safe_ret.
Qed.

Section ProductionsSafe.

Variable pt : Parser TypeNode.
Variable fuel : nat.
Hypothesis pt_safe : safe fuel pt.
Hypothesis pt_decreasing : decreasing 1 pt.

Lemma safe_parseNullable st :
  token st <> EndOfFileToken -> measure st < S fuel ->
  parseNullable pt st <> Err OutOfFuel.
Proof.
  intros Hk Hst. unfold parseNullable, bind.
  pose proof (nextToken_not_OutOfFuel st) as Hn.
  destruct (nextToken st) as [[u st1]|e] eqn:H1; [|congruence].
  apply nextToken_measure_strict in H1; [|assumption].
  pose proof (pt_safe st1 ltac:(lia)) as Hp.
  destruct (pt st1) as [[type st2]|e]; [discriminate | congruence].
Qed.

Lemma safe_parseArray : safe (S fuel) (parseArray pt).
Proof.
  unfold parseArray.
  apply (safe_bind _ 1); [apply safe_skipExpected | now apply decreasing_skipExpected|].
  intros ?. apply (safe_bind _ 0);
    [eapply safe_weaken; [apply pt_safe | lia]
    | eapply decreasing_weaken; [apply pt_decreasing | lia] |].
  intros type. apply (safe_bind _ 0); [apply safe_skipExpected | |].
  - eapply decreasing_weaken; [apply (decreasing_skipExpected CloseBracketToken) | lia].
    discriminate.
  - intros ?. apply safe_ret.
Qed.

Lemma safe_parseTypeLiteralMember : safe fuel (parseTypeLiteralMember pt).
Proof.
  unfold parseTypeLiteralMember.
  apply (safe_bind _ 0); [apply safe_parseIdentifier | |].
  { eapply decreasing_weaken; [apply decreasing_parseIdentifier | lia]. }
  intros name. apply (safe_bind _ 0); [apply safe_skipExpected | |].
  { eapply decreasing_weaken; [apply (decreasing_skipExpected ColonToken) | lia].
    discriminate. }
  intros ?. apply (safe_bind _ 0);
    [eapply safe_weaken; [apply pt_safe | lia]
    | eapply decreasing_weaken; [apply pt_decreasing | lia] |].
  intros type. apply safe_ret.
Qed.

Lemma safe_parseObject : safe (S fuel) (parseObject pt fuel).
Proof.
  unfold parseObject.
  apply (safe_bind _ 0); [apply safe_getToken | apply decreasing_getToken|].
  intros k. apply (safe_bind _ 0); [apply safe_invariant | apply decreasing_invariant|].
  intros ?. apply (safe_bind _ 0).
  - eapply safe_weaken; [|apply Nat.le_refl].
    replace (S fuel - 0 - 0) with (S fuel) by lia.
    apply safe_parseBracketedList;
      [apply safe_parseTypeLiteralMember
      | now apply decreasing_parseTypeLiteralMember | discriminate].
  - eapply decreasing_weaken;
      [apply decreasing_parseBracketedList; try discriminate | lia].
    eapply decreasing_weaken; [now apply decreasing_parseTypeLiteralMember | lia].
  - intros members. apply safe_ret.
Qed.

Lemma safe_parseUnion : safe (S fuel) (parseUnion pt fuel).
Proof.
  unfold parseUnion.
  apply (safe_bind _ 0); [apply safe_getToken | apply decreasing_getToken|].
  intros k. apply (safe_bind _ 0); [apply safe_invariant | apply decreasing_invariant|].
  intros ?. apply (safe_bind _ 0); [apply safe_nextToken | apply decreasing_nextToken|].
  intros ?. apply (safe_bind _ 0).
  - replace (S fuel - 0 - 0 - 0) with (S fuel) by lia.
    apply safe_parseBracketedList; [assumption | assumption | discriminate].
  - eapply decreasing_weaken;
      [apply decreasing_parseBracketedList; try discriminate | lia].
    eapply decreasing_weaken; [eassumption | lia].
  - intros types. apply safe_ret.
Qed.

Lemma safe_parseFunctionParameter : safe fuel (parseFunctionParameter pt).
Proof.
  unfold parseFunctionParameter. apply (safe_bind _ 0).
  - unfold parseFunctionParameterPrefix.
    apply (safe_bind _ 0); [apply safe_getToken | apply decreasing_getToken|].
    intros k. destruct (SyntaxKind_beq k DotDotDotToken).
    + apply (safe_bind _ 0); [apply safe_nextToken | apply decreasing_nextToken|].
      intros ?. apply (safe_bind _ 0); [apply safe_parseIdentifier | |].
      { eapply decreasing_weaken; [apply decreasing_parseIdentifier | lia]. }
      intros name. apply (safe_bind _ 0); [apply safe_skipExpected | |].
      { eapply decreasing_weaken; [apply (decreasing_skipExpected ColonToken) | lia].
        discriminate. }
      intros ?. apply safe_ret.
    + apply (safe_bind _ 0);
        [apply safe_lookAheadNamedFunctionParameterStart
        | apply decreasing_lookAheadNamedFunctionParameterStart |].
      intros [|]; [|apply safe_ret].
      apply (safe_bind _ 0); [apply safe_parseIdentifier | |].
      { eapply decreasing_weaken; [apply decreasing_parseIdentifier | lia]. }
      intros name. apply (safe_bind _ 0); [apply safe_skipExpected | |].
      { eapply decreasing_weaken; [apply (decreasing_skipExpected ColonToken) | lia].
        discriminate. }
      intros ?. apply safe_ret.
  - apply decreasing_parseFunctionParameterPrefix.
  - intros [name rest]. apply (safe_bind _ 0);
      [eapply safe_weaken; [apply pt_safe | lia]
      | eapply decreasing_weaken; [apply pt_decreasing | lia] |].
    intros type. apply safe_ret.
Qed.

Lemma safe_parseFunction : safe (S fuel) (parseFunction pt fuel).
Proof.
  unfold parseFunction. apply (safe_bind _ 2).
  - apply safe_parseBracketedList;
      [apply safe_parseFunctionParameter
      | now apply decreasing_parseFunctionParameter | discriminate].
  - apply decreasing_parseBracketedList; try discriminate.
    eapply decreasing_weaken; [now apply decreasing_parseFunctionParameter | lia].
  - intros parameters.
    apply (safe_bind _ 0); [apply safe_skipOptional | apply decreasing_skipOptional|].
    intros [|]; [|apply safe_ret].
    apply (safe_bind _ 0);
      [eapply safe_weaken; [apply pt_safe | lia]
      | eapply decreasing_weaken; [apply pt_decreasing | lia] |].
    intros type. apply safe_ret.
Qed.

End ProductionsSafe.

Lemma safe_parseType fuel : safe fuel (parseType fuel).
Proof.
  induction fuel as [|fuel IH].
  - intros st Hst. inversion Hst.
  - pose proof (decreasing_parseType fuel) as Hdec.
    intros st Hst. cbn [parseType]. unfold bind at 1, getToken.
    destruct (token st) eqn:Hk; try discriminate.
    + apply (safe_parseEntity fuel); assumption.
    + unfold parseStringLiteral, bind, getTokenValue.
      pose proof (nextToken_not_OutOfFuel st) as Hn.
      destruct (nextToken st) as [[u st1]|e]; [discriminate | congruence].
    + unfold parseNumberLiteral, bind, getTokenValue.
      pose proof (nextToken_not_OutOfFuel st) as Hn.
      destruct (nextToken st) as [[u st1]|e]; [discriminate | congruence].
    + apply safe_parseNullable with (fuel := fuel); auto. congruence.
    + apply (safe_parseFunction (parseType fuel) fuel); assumption.
    + apply (safe_parseArray (parseType fuel) fuel); assumption.
    + apply (safe_parseObject (parseType fuel) fuel); assumption.
    + unfold parseAny, bind.
      pose proof (nextToken_not_OutOfFuel st) as Hn.
      destruct (nextToken st) as [[u st1]|e]; [discriminate | congruence].
    + unfold parseAny, bind.
      pose proof (nextToken_not_OutOfFuel st) as Hn.
      destruct (nextToken st) as [[u st1]|e]; [discriminate | congruence].
    + apply (safe_parseUnion (parseType fuel) fuel); assumption.
Qed.

Lemma initialState_measure text st :
  initialState text = Ok st -> measure st <= String.length text.
Proof.
  unfold initialState.
  destruct (Scanner.scan (Scanner.createScanner text)) as [[k sc]|e] eqn:Hscan;
    [|discriminate].
  intros H. inv_ok H. apply scan_measure in Hscan.
  pose proof (skipWhiteSpace_length text) as Hws. unfold measure. simpl in *. lia.
Qed.

(** The fuel that [parse] hands to [parseType] is never used up: [parse]
    returns a tree or raises one of the errors of the program. *)
Theorem parse_never_out_of_fuel text : parse text <> Err OutOfFuel.
Proof.
  unfold parse. destruct (initialState text) as [st|e] eqn:Hinit.
  - pose proof (initialState_measure _ _ Hinit) as Hm.
    pose proof (safe_parseType (S (String.length text)) st ltac:(lia)) as Hsafe.
    destruct (parseType _ st) as [[node st']|e]; [discriminate | congruence].
  - unfold initialState in Hinit.
    pose proof (scan_not_OutOfFuel (Scanner.createScanner text)) as Hscan.
    destruct (Scanner.scan _) as [[k sc]|e']; [discriminate | congruence].
Qed.

(** ** The scanner on a text that is followed by more text *)

Lemma length_append (a b : string) :
  String.length (a ++ b) = String.length a + String.length b.
Proof. induction a as [|c a IH]; simpl; [reflexivity | now rewrite IH]. Qed.

Lemma isWhiteSpace_cases c :
  Scanner.isWhiteSpace c = true ->
  c = " "%char \/ c = "009"%char \/ c = "010"%char \/ c = "013"%char.
Proof.
  unfold Scanner.isWhiteSpace. intros H.
  repeat (apply orb_prop in H; destruct H as [H|H]);
    apply Ascii.eqb_eq in H; auto.
Qed.

(** No lexeme has the kind of the end token. *)
Lemma scanLexeme_not_EndOfFile c s k v r :
  Scanner.scanLexeme c s = Ok (k, v, r) -> k <> EndOfFileToken.
Proof.
  unfold Scanner.scanLexeme.
  destruct (Ascii.eqb c ".").
  { destruct (Scanner.stripPrefix ".." s); intros H; inv_ok H; discriminate. }
  destruct (Ascii.eqb c "226").
  { destruct (Scanner.stripPrefix Scanner.arrowTail s); intros H;
      [inv_ok H|]; discriminate. }
  destruct (Ascii.eqb c Scanner.doubleQuote).
  { destruct (Scanner.scanStringBody s) as [[w0 r0]|]; intros H;
      [inv_ok H|]; discriminate. }
  destruct (Scanner.isDigit c).
  { destruct (Scanner.scanWhile Scanner.isDigit s) as [w0 r0]. intros H.
    inv_ok H. discriminate. }
  destruct (Scanner.isIdentifierStart c).
  - destruct (Scanner.scanWhile Scanner.isIdentifierPart s) as [w0 r0].
    unfold Scanner.keywordOrIdentifier.
    destruct (String.eqb (String c w0) "any");
      [|destruct (String.eqb (String c w0) "union")];
      intros H; inv_ok H; discriminate.
  - unfold Scanner.punctuation. cbn [Scanner.lookupPunctuation].
    repeat (destruct (Ascii.eqb c _); [intros H; inv_ok H; discriminate|]).
    discriminate.
Qed.

Section ScannerBeforeTrailingText.

Local Open Scope string_scope.

(** The text that follows: a white-space character [sep], then [rest]. *)
Variable sep : ascii.
Variable rest : string.

Hypothesis sep_white : Scanner.isWhiteSpace sep = true.

Lemma sep_not_digit : Scanner.isDigit sep = false.
Proof.
  destruct (isWhiteSpace_cases _ sep_white) as [-> | [-> | [-> | ->]]]; reflexivity.
Qed.

Lemma sep_not_identifierPart : Scanner.isIdentifierPart sep = false.
Proof.
  destruct (isWhiteSpace_cases _ sep_white) as [-> | [-> | [-> | ->]]]; reflexivity.
Qed.

Lemma sep_not_dot : allChars (fun a => negb (Ascii.eqb a sep)) ".." = true.
Proof.
  destruct (isWhiteSpace_cases _ sep_white) as [-> | [-> | [-> | ->]]]; reflexivity.
Qed.

Lemma skipWhiteSpace_app s c r :
  Scanner.skipWhiteSpace s = String c r ->
  Scanner.skipWhiteSpace (s ++ String sep rest)
  = String c (r ++ String sep rest).
Proof.
  induction s as [|b s IH]; simpl; [discriminate|].
  destruct (Scanner.isWhiteSpace b); [exact IH|].
  intros H. now inv_ok H.
Qed.

Lemma skipWhiteSpace_app_empty s :
  Scanner.skipWhiteSpace s = EmptyString ->
  Scanner.skipWhiteSpace (s ++ String sep rest) = Scanner.skipWhiteSpace rest.
Proof.
  induction s as [|b s IH]; simpl.
  - now rewrite sep_white.
  - destruct (Scanner.isWhiteSpace b); [exact IH | discriminate].
Qed.

Lemma stripPrefix_app p s r :
  Scanner.stripPrefix p s = Some r ->
  Scanner.stripPrefix p (s ++ String sep rest) = Some (r ++ String sep rest).
Proof.
  revert s. induction p as [|a p IH]; intros s H; simpl in *.
  - now inv_ok H.
  - destruct s as [|b s]; [discriminate|]. simpl.
    destruct (Ascii.eqb a b); [now apply IH | discriminate].
Qed.

Lemma stripPrefix_app_None p s :
  allChars (fun a => negb (Ascii.eqb a sep)) p = true ->
  Scanner.stripPrefix p s = None ->
  Scanner.stripPrefix p (s ++ String sep rest) = None.
Proof.
  revert s. induction p as [|a p IH]; intros s Hp H; simpl in *; [discriminate|].
  apply andb_prop in Hp. destruct Hp as (Ha & Hp).
  destruct s as [|b s]; simpl.
  - apply negb_true_iff in Ha. now rewrite Ha.
  - destruct (Ascii.eqb a b); [now apply IH | reflexivity].
Qed.

Lemma scanWhile_app p s w r :
  p sep = false ->
  Scanner.scanWhile p s = (w, r) ->
  Scanner.scanWhile p (s ++ String sep rest)
  = (w, (r ++ String sep rest)%string).
Proof.
  intros Hp. revert w r. induction s as [|c s IH]; intros w r H; simpl in *.
  - inv_ok H. now rewrite Hp.
  - destruct (p c).
    + destruct (Scanner.scanWhile p s) as [w0 r0].
      rewrite (IH w0 r0 eq_refl). now inv_ok H.
    + now inv_ok H.
Qed.

Lemma scanStringBody_app s w r :
  Scanner.scanStringBody s = Some (w, r) ->
  Scanner.scanStringBody (s ++ String sep rest)
  = Some (w, (r ++ String sep rest)%string).
Proof.
  remember (String.length s) as n eqn:Hn. revert s w r Hn.
  induction n as [n IH] using lt_wf_ind. intros s w r Hn H.
  destruct s as [|c s]; [discriminate|]. simpl in H, Hn. simpl.
  destruct (Ascii.eqb c Scanner.doubleQuote).
  - now inv_ok H.
  - destruct (Ascii.eqb c Scanner.backslash).
    + destruct s as [|c' s]; [discriminate|]. simpl in *.
      destruct (Scanner.scanStringBody s) as [[w0 r0]|] eqn:Hbody; [|discriminate].
      rewrite (IH (String.length s) ltac:(lia) s w0 r0 eq_refl Hbody). now inv_ok H.
    + destruct (Scanner.scanStringBody s) as [[w0 r0]|] eqn:Hbody; [|discriminate].
      rewrite (IH (String.length s) ltac:(lia) s w0 r0 eq_refl Hbody). now inv_ok H.
Qed.

(** A lexeme found in a text is found, with the same kind and value, when
    more text follows after a white-space character. *)
Lemma scanLexeme_app c s k v r :
  Scanner.scanLexeme c s = Ok (k, v, r) ->
  Scanner.scanLexeme c (s ++ String sep rest)
  = Ok (k, v, (r ++ String sep rest)%string).
Proof.
  unfold Scanner.scanLexeme.
  destruct (Ascii.eqb c ".").
  { destruct (Scanner.stripPrefix ".." s) as [r0|] eqn:Hp; intros H; inv_ok H.
    - now rewrite (stripPrefix_app _ _ _ Hp).
    - now rewrite (stripPrefix_app_None ".." _ sep_not_dot Hp). }
  destruct (Ascii.eqb c "226").
  { destruct (Scanner.stripPrefix Scanner.arrowTail s) as [r0|] eqn:Hp;
      intros H; [|discriminate]. inv_ok H.
    now rewrite (stripPrefix_app _ _ _ Hp). }
  destruct (Ascii.eqb c Scanner.doubleQuote).
  { destruct (Scanner.scanStringBody s) as [[w0 r0]|] eqn:Hb; intros H; [|discriminate].
    inv_ok H. now rewrite (scanStringBody_app _ _ _ Hb). }
  destruct (Scanner.isDigit c).
  { destruct (Scanner.scanWhile Scanner.isDigit s) as [w0 r0] eqn:Hw. intros H.
    inv_ok H. now rewrite (scanWhile_app Scanner.isDigit _ _ _ sep_not_digit Hw). }
  destruct (Scanner.isIdentifierStart c).
  - destruct (Scanner.scanWhile Scanner.isIdentifierPart s) as [w0 r0] eqn:Hw.
    rewrite (scanWhile_app Scanner.isIdentifierPart _ _ _ sep_not_identifierPart Hw).
    destruct (Scanner.keywordOrIdentifier (String c w0));
      intros H; now inv_ok H.
  - destruct (Scanner.lookupPunctuation c Scanner.punctuation) eqn:Hp; [|discriminate].
    intros H. now inv_ok H.
Qed.

(** [scan] on the longer text: the same token, which is not the end token,
    while the shorter text has one, and the first token of what follows
    once it has none. *)
Lemma scan_app s s2 k s' :
  Scanner.text s2 = (Scanner.text s ++ String sep rest)%string ->
  Scanner.tokenValue s2 = Scanner.tokenValue s ->
  Scanner.scan s = Ok (k, s') ->
  (Scanner.skipWhiteSpace (Scanner.text s) <> EmptyString /\
   k <> EndOfFileToken /\
   exists s2',
     Scanner.scan s2 = Ok (k, s2') /\
     Scanner.text s2' = (Scanner.text s' ++ String sep rest)%string /\
     Scanner.tokenValue s2' = Scanner.tokenValue s') \/
  (Scanner.skipWhiteSpace (Scanner.text s) = EmptyString /\
   k = EndOfFileToken /\ Scanner.text s' = EmptyString /\
   forall k0,
     firstToken rest = Ok k0 -> exists s2', Scanner.scan s2 = Ok (k0, s2')).
Proof.
  intros Htext Hvalue. unfold Scanner.scan. rewrite Htext.
  destruct (Scanner.skipWhiteSpace (Scanner.text s)) as [|c r] eqn:Hws.
  - intros H. inv_ok H. right. repeat split.
    intros k0 Hk0. rewrite (skipWhiteSpace_app_empty _ Hws).
    unfold firstToken in Hk0.
    destruct (Scanner.skipWhiteSpace rest) as [|c1 r1].
    + inv_ok Hk0. eauto.
    + destruct (Scanner.scanLexeme c1 r1) as [[[k1 v1] r1']|e]; [|discriminate].
      inv_ok Hk0. eauto.
  - destruct (Scanner.scanLexeme c r) as [[[k1 v] r']|e] eqn:Hlex; [|discriminate].
    intros H. inv_ok H. left. split; [discriminate|].
    split; [exact (scanLexeme_not_EndOfFile _ _ _ _ _ Hlex)|].
    rewrite (skipWhiteSpace_app _ _ _ Hws), (scanLexeme_app _ _ _ _ _ Hlex).
    eexists. split; [reflexivity|]. simpl. split; [reflexivity|].
    now rewrite Hvalue.
Qed.

End ScannerBeforeTrailingText.

(** White space in front of a text does not change its first token. *)
Lemma firstToken_blank_app ws text :
  allChars Scanner.isWhiteSpace ws = true ->
  firstToken (ws ++ text) = firstToken text.
Proof.
  unfold firstToken. intros Hws.
  replace (Scanner.skipWhiteSpace (ws ++ text)) with (Scanner.skipWhiteSpace text);
    [reflexivity|].
  induction ws as [|c ws IH]; simpl in *; [reflexivity|].
  apply andb_prop in Hws. destruct Hws as (-> & Hws). now apply IH.
Qed.

(** ** The parser on a text that is followed by more text *)

Lemma measure_zero st :
  measure st = 0 <->
  token st = EndOfFileToken /\
  Scanner.skipWhiteSpace (Scanner.text (scanner st)) = EmptyString.
Proof.
  unfold measure. destruct (SyntaxKind_beq (token st) EndOfFileToken) eqn:Hk.
  - apply SyntaxKind_beq_eq in Hk.
    destruct (Scanner.skipWhiteSpace _); simpl; split; intros H;
      try lia; try tauto; destruct H; discriminate.
  - apply SyntaxKind_beq_neq in Hk. split; [lia | tauto].
Qed.

Section ParserBeforeTrailingText.

(** The text that follows: a white-space character [sep], then a text
    [rest] whose first token is [k0]. *)
Variable sep : ascii.
Variable rest : string.
Variable k0 : SyntaxKind.

Hypothesis sep_white : Scanner.isWhiteSpace sep = true.
Hypothesis rest_first : firstToken rest = Ok k0.

Lemma simF_simS {A : Type} d (C : A -> Prop) (p : Parser A) :
  simF (String sep rest) k0 C p -> simS (String sep rest) d p.
Proof.
  intros Hp st st2 a st' Hin H Hm.
  destruct (Hp _ _ _ _ Hin H ltac:(lia)) as (st2' & H2 & [Hin'|(Hz & _)]);
    [eauto | lia].
Qed.

Lemma simS_bind {A B : Type} d e (m : Parser A) (f : A -> Parser B) :
  simS (String sep rest) (d + e) m ->
  (forall a, simS (String sep rest) d (f a)) ->
  (forall a, decreasing e (f a)) ->
  simS (String sep rest) d (bind m f).
Proof.
  intros Hm Hf Hdec st st2 b st' Hin H Hd. inv_bind H as a st1 H1.
  pose proof (Hdec _ _ _ _ H) as Hle.
  destruct (Hm _ _ _ _ Hin H1 ltac:(lia)) as (st21 & H21 & Hin1).
  destruct (Hf _ _ _ _ _ Hin1 H Hd) as (st2' & H2' & Hin').
  exists st2'. split; [|assumption]. apply bind_Ok. eauto.
Qed.

Lemma simF_bind {A B : Type} (C : B -> Prop) (m : Parser A) (f : A -> Parser B) :
  simF (String sep rest) k0 anyValue m ->
  (forall a, simF (String sep rest) k0 C (f a)) ->
  (forall a, simB k0 C (f a)) ->
  simF (String sep rest) k0 C (bind m f).
Proof.
  intros Hm Hf Hb st st2 b st' Hin H Hc. inv_bind H as a st1 H1.
  destruct (Hm _ _ _ _ Hin H1 (fun _ => I)) as (st21 & H21 & [Hin1|Hpast]).
  - destruct (Hf _ _ _ _ _ Hin1 H Hc) as (st2' & H2' & Hr).
    exists st2'. split; [|assumption]. apply bind_Ok. eauto.
  - destruct (Hb _ _ _ _ _ Hpast H Hc) as (st2' & H2' & Hr).
    exists st2'. split; [|now right]. apply bind_Ok. eauto.
Qed.

Lemma simSF_bind {A B : Type} e (C : B -> Prop) (m : Parser A) (f : A -> Parser B) :
  simS (String sep rest) e m ->
  (forall a, decreasing (S e) (f a)) ->
  (forall a, simF (String sep rest) k0 C (f a)) ->
  simF (String sep rest) k0 C (bind m f).
Proof.
  intros Hm Hdec Hf st st2 b st' Hin H Hc. inv_bind H as a st1 H1.
  pose proof (Hdec _ _ _ _ H) as Hle.
  destruct (Hm _ _ _ _ Hin H1 ltac:(lia)) as (st21 & H21 & Hin1).
  destruct (Hf _ _ _ _ _ Hin1 H Hc) as (st2' & H2' & Hr).
  exists st2'. split; [|assumption]. apply bind_Ok. eauto.
Qed.

Lemma simB_decreasing {A : Type} (C : A -> Prop) (p : Parser A) :
  decreasing 1 p -> simB k0 C p.
Proof. intros Hp st st2 a st' (Hz & _) H. apply Hp in H. lia. Qed.

Lemma simB_ret {A : Type} (C : A -> Prop) (a : A) : simB k0 C (ret a).
Proof. intros st st2 b st' Hpast H _. unfold ret in *. inv_ok H. eauto. Qed.

Lemma simF_ret {A : Type} (C : A -> Prop) (a : A) : simF (String sep rest) k0 C (ret a).
Proof. intros st st2 b st' Hin H _. unfold ret in *. inv_ok H. eauto. Qed.

Lemma simS_ret {A : Type} d (a : A) : simS (String sep rest) d (ret a).
Proof. apply (simF_simS d anyValue), simF_ret. Qed.

Lemma simF_throw {A : Type} (C : A -> Prop) e : simF (String sep rest) k0 C (@throw A e).
Proof. intros st st2 b st' Hin H. discriminate H. Qed.

(** A function that ends by building a node from what [p] returns: the
    condition on the node has to give the one on what [p] returns. *)
Lemma simF_then_ret {A B : Type} (Cp : A -> Prop) (C : B -> Prop)
    (p : Parser A) (g : A -> B) :
  simF (String sep rest) k0 Cp p -> (forall a, C (g a) -> Cp a) ->
  simF (String sep rest) k0 C (a <- p ;; ret (g a)).
Proof.
  intros Hp HC st st2 b st' Hin H Hc. inv_bind H as a st1 H1.
  unfold ret in H. injection H as <- <-.
  destruct (Hp _ _ _ _ Hin H1 (fun Hz => HC _ (Hc Hz))) as (st21 & H21 & Hr).
  exists st21. split; [|assumption]. apply bind_Ok. eauto.
Qed.

Lemma simB_then_ret {A B : Type} (Cp : A -> Prop) (C : B -> Prop)
    (p : Parser A) (g : A -> B) :
  simB k0 Cp p -> (forall a, C (g a) -> Cp a) ->
  simB k0 C (a <- p ;; ret (g a)).
Proof.
  intros Hp HC st st2 b st' Hpast H Hc. inv_bind H as a st1 H1.
  unfold ret in H. injection H as <- <-.
  destruct (Hp _ _ _ _ Hpast H1 (fun Hz => HC _ (Hc Hz))) as (st21 & H21 & Hr).
  exists st21. split; [|assumption]. apply bind_Ok. eauto.
Qed.

Lemma simF_bind_keeps {A B : Type} (C : B -> Prop) (m : Parser A)
    (f : A -> Parser B) :
  keeps (String sep rest) m -> (forall a, simF (String sep rest) k0 C (f a)) ->
  simF (String sep rest) k0 C (bind m f).
Proof.
  intros Hm Hf st st2 b st' Hin H Hc. inv_bind H as a st1 H1.
  destruct (Hm _ _ _ _ Hin H1) as (-> & H2).
  destruct (Hf _ _ _ _ _ Hin H Hc) as (st2' & H2' & Hr).
  exists st2'. split; [|assumption]. apply bind_Ok. eauto.
Qed.

Lemma simS_bind_keeps {A B : Type} d (m : Parser A) (f : A -> Parser B) :
  keeps (String sep rest) m -> (forall a, simS (String sep rest) d (f a)) ->
  simS (String sep rest) d (bind m f).
Proof.
  intros Hm Hf st st2 b st' Hin H Hd. inv_bind H as a st1 H1.
  destruct (Hm _ _ _ _ Hin H1) as (-> & H2).
  destruct (Hf _ _ _ _ _ Hin H Hd) as (st2' & H2' & Hr).
  exists st2'. split; [|assumption]. apply bind_Ok. eauto.
Qed.

Lemma keeps_getToken : keeps (String sep rest) getToken.
Proof.
  intros st st2 k st' (_ & Hk & _) H. unfold getToken in *. inv_ok H.
  split; [reflexivity|]. now rewrite Hk.
Qed.

Lemma keeps_getTokenValue : keeps (String sep rest) getTokenValue.
Proof.
  intros st st2 v st' (_ & _ & Hv & _) H. unfold getTokenValue in *. inv_ok H.
  split; [reflexivity|]. now rewrite Hv.
Qed.

Lemma keeps_invariant condition : keeps (String sep rest) (invariant condition).
Proof.
  intros st st2 u st' _ H. destruct condition; [|discriminate H].
  unfold invariant, ret in *. inv_ok H. auto.
Qed.

Lemma keeps_isListTerminator context : keeps (String sep rest) (isListTerminator context).
Proof.
  intros st st2 b st' (_ & Hk & _) H. rewrite isListTerminator_eq in *. inv_ok H.
  split; [reflexivity|]. now rewrite Hk.
Qed.

Lemma simF_nextToken {C : unit -> Prop} : simF (String sep rest) k0 C nextToken.
Proof.
  intros st st2 u st' (_ & Hk & Hv & Ht) H _. destruct u.
  apply nextToken_Ok in H. destruct H as (sc & Hscan & Hsc).
  destruct (scan_app sep rest sep_white _ _ _ _ Ht Hv Hscan)
    as [(_ & Hne & sc2 & Hscan2 & Ht2 & Hv2)|(_ & Hk' & Ht' & Hscan2)].
  - exists {| scanner := sc2; token := token st' |}. split.
    + apply nextToken_Ok. simpl. eauto.
    + left. subst sc. unfold inStep. simpl. auto.
  - destruct (Hscan2 k0 rest_first) as (sc2 & Hsc2).
    exists {| scanner := sc2; token := k0 |}. split.
    + apply nextToken_Ok. simpl. eauto.
    + right. split; [|reflexivity]. apply measure_zero. subst sc.
      rewrite Ht'. auto.
Qed.

Lemma simF_skipExpected {C : unit -> Prop} kind : simF (String sep rest) k0 C (skipExpected kind).
Proof.
  unfold skipExpected. apply simF_bind_keeps; [apply keeps_getToken|].
  intros k. destruct (negb _); [apply simF_throw | apply simF_nextToken].
Qed.

Lemma simF_skipOptional {C : bool -> Prop} kind : simF (String sep rest) k0 C (skipOptional kind).
Proof.
  unfold skipOptional. apply simF_bind_keeps; [apply keeps_getToken|].
  intros k. destruct (SyntaxKind_beq _ _); [|apply simF_ret].
  apply simF_bind; [apply simF_nextToken | |]; intros ?;
    [apply simF_ret | apply simB_ret].
Qed.

Lemma simF_parseIdentifier {C : string -> Prop} : simF (String sep rest) k0 C parseIdentifier.
Proof.
  unfold parseIdentifier. apply simF_bind_keeps; [apply keeps_getToken|]. intros k.
  apply simF_bind_keeps; [apply keeps_invariant|]. intros ?.
  apply simF_bind_keeps; [apply keeps_getTokenValue|]. intros w.
  apply simF_bind; [apply simF_nextToken | |]; intros ?;
    [apply simF_ret | apply simB_ret].
Qed.

(** At the end of the shorter text, [skipOptional] finds no token of the
    kind in the longer text either, unless that is the kind of the first
    token that follows. *)
Lemma skipOptional_pastEnd kind st st2 b st' :
  pastEnd k0 st st2 -> kind <> EndOfFileToken -> kind <> k0 ->
  skipOptional kind st = Ok (b, st') ->
  b = false /\ st' = st /\ skipOptional kind st2 = Ok (false, st2).
Proof.
  intros (Hz & Hk) Hkind Hk0 H.
  pose proof (proj1 (measure_zero st) Hz) as (Heof & _).
  apply skipOptional_Ok in H.
  destruct H as [(Hkk & _)|(_ & -> & ->)]; [congruence|].
  split; [reflexivity|]. split; [reflexivity|].
  apply skipOptional_absent. congruence.
Qed.

(** The look-ahead answers the same in both runs as long as the shorter
    text has a token after the current one. *)
Lemma simS_lookAheadNamedFunctionParameterStart :
  simS (String sep rest) 1 lookAheadNamedFunctionParameterStart.
Proof.
  intros st st2 b st' Hin H Hm.
  pose proof (lookAheadNamedFunctionParameterStart_restores _ _ _ H) as ->.
  exists st2. split; [|assumption]. destruct Hin as (_ & Hk & Hv & Ht).
  destruct st2 as [sc2 k2]. simpl in Hk, Hv, Ht. subst k2.
  unfold lookAheadNamedFunctionParameterStart, Scanner.lookAhead,
    isNamedFunctionParameterStart in *. simpl.
  destruct (SyntaxKind_beq (token st) Identifier) eqn:Hid.
  - destruct (Scanner.scan (scanner st)) as [[k sc]|e] eqn:Hscan; [|discriminate].
    destruct (scan_app sep rest sep_white _ _ _ _ Ht Hv Hscan)
      as [(_ & _ & sc2' & -> & _)|(Hws & _)].
    + now inv_ok H.
    + unfold measure in Hm. rewrite Hws in Hm. simpl in Hm.
      destruct (SyntaxKind_beq (token st) EndOfFileToken); lia.
  - now inv_ok H.
Qed.

(** The loop of [parseEntity] stops at the end of the shorter text; in the
    longer text it stops there as well when no ['.'] follows. *)
Lemma simF_parseEntityLoop fuel name :
  simF (String sep rest) k0 (fun _ => k0 <> DotToken) (parseEntityLoop fuel name) /\
  simB k0 (fun _ => k0 <> DotToken) (parseEntityLoop fuel name).
Proof.
  revert name. induction fuel as [|fuel IH]; intros name.
  - split; intros st st2 a st' _ H; discriminate H.
  - assert (Hdec : forall w, decreasing 1
              (identifier <- parseIdentifier ;;
               parseEntityLoop fuel (w ++ "." ++ identifier)%string)).
    { intros w. apply (decreasing_bind 1 0); [apply decreasing_parseIdentifier|].
      intros ?. apply decreasing_parseEntityLoop. }
    cbn [parseEntityLoop]. split.
    + apply simF_bind; [apply simF_skipOptional | |]; intros [|].
      * apply simF_bind; [apply simF_parseIdentifier | |]; intros w; apply IH.
      * apply simF_ret.
      * apply simB_decreasing, Hdec.
      * apply simB_ret.
    + intros st st2 a st' Hpast H Hc. inv_bind H as dot st1 Hdot.
      pose proof (decreasing_skipOptional _ _ _ _ Hdot) as Hle1.
      assert (Hle : measure st' <= measure st1).
      { destruct dot.
        - apply Hdec in H. lia.
        - apply decreasing_ret in H. lia. }
      assert (Hz' : measure st' = 0) by (destruct Hpast as (Hz & _); lia).
      destruct (skipOptional_pastEnd DotToken _ _ _ _ Hpast
                  ltac:(discriminate) (fun Heq => Hc Hz' (eq_sym Heq)) Hdot)
        as (-> & -> & Hdot2).
      unfold ret in H. injection H as <- <-.
      exists st2. split; [|assumption]. apply bind_Ok. eauto.
Qed.

Lemma simF_parseEntity fuel : simF (String sep rest) k0 (ends k0) (parseEntity fuel).
Proof.
  assert (HC : forall name, ends k0 (Entity name) -> k0 <> DotToken).
  { intros name Hends Heq. apply Hends. simpl. now rewrite Heq. }
  unfold parseEntity. apply simF_bind; [apply simF_parseIdentifier | |]; intros w.
  - apply (simF_then_ret (fun _ => k0 <> DotToken));
      [apply simF_parseEntityLoop | exact HC].
  - apply (simB_then_ret (fun _ => k0 <> DotToken));
      [apply simF_parseEntityLoop | exact HC].
Qed.

Lemma simS_parseDelimitedListLoop {T : Type} fuel context (pe : Parser T) result :
  simS (String sep rest) 0 pe -> decreasing 0 pe ->
  simS (String sep rest) 0 (parseDelimitedListLoop fuel context pe result).
Proof.
  intros Hpe Hdec. revert result. induction fuel as [|fuel IH]; intros result.
  - intros st st2 a st' _ H. discriminate H.
  - cbn [parseDelimitedListLoop].
    apply simS_bind_keeps; [apply keeps_isListTerminator|].
    intros [|]; [apply simS_ret|].
    apply (simS_bind 0 0); [assumption | |]; intros x.
    + apply (simS_bind 0 0);
        [apply (simF_simS 0 anyValue), simF_skipOptional | |]; intros ?.
      * apply IH.
      * now apply decreasing_parseDelimitedListLoop.
    + apply (decreasing_bind 0 0); [apply decreasing_skipOptional|]. intros ?.
      now apply decreasing_parseDelimitedListLoop.
Qed.

Lemma simF_parseBracketedList {T : Type} (C : list T -> Prop) fuel context
    (pe : Parser T) open close :
  simS (String sep rest) 0 pe -> decreasing 0 pe -> close <> EndOfFileToken ->
  simF (String sep rest) k0 C (parseBracketedList fuel context pe open close).
Proof.
  intros Hpe Hdec Hclose. unfold parseBracketedList, parseDelimitedList.
  assert (Hlast : forall result : list T,
             decreasing 1 (skipExpected close ;;; ret result)).
  { intros result. apply (decreasing_bind 1 0); [now apply decreasing_skipExpected|].
    intros ?. apply decreasing_ret. }
  apply simF_bind; [apply simF_skipExpected | |]; intros ?.
  - apply (simSF_bind 0); [now apply simS_parseDelimitedListLoop | exact Hlast|].
    intros result. apply simF_bind; [apply simF_skipExpected | |]; intros ?;
      [apply simF_ret | apply simB_ret].
  - apply simB_decreasing.
    apply (decreasing_bind 0 1); [now apply decreasing_parseDelimitedListLoop|].
    exact Hlast.
Qed.

Section ProductionsBeforeTrailingText.

Variable pt : Parser TypeNode.
Variable fuel : nat.

Hypothesis pt_simF : simF (String sep rest) k0 (ends k0) pt.
Hypothesis pt_decreasing : decreasing 1 pt.

Lemma decreasing_then_ret {A B : Type} d (p : Parser A) (g : A -> B) :
  decreasing d p -> decreasing d (a <- p ;; ret (g a)).
Proof.
  intros Hp. apply (decreasing_weaken (d + 0)); [|lia].
  apply decreasing_bind; [assumption|]. intros a. apply decreasing_ret.
Qed.

Lemma pt_simS d : simS (String sep rest) d pt.
Proof. exact (simF_simS d _ _ pt_simF). Qed.

(** A type that is not the last thing its function reads *)
Lemma simS_type_then_ret {B : Type} d (g : TypeNode -> B) :
  simS (String sep rest) d (type <- pt ;; ret (g type)).
Proof.
  apply (simS_bind d 0); [apply pt_simS | |]; intros type;
    [apply simS_ret | apply decreasing_ret].
Qed.

Lemma simF_parseNullable : simF (String sep rest) k0 (ends k0) (parseNullable pt).
Proof.
  unfold parseNullable. apply simF_bind; [apply simF_nextToken | |]; intros ?.
  - apply (simF_then_ret (ends k0)); [assumption|]. intros type H. exact H.
  - apply simB_decreasing. now apply decreasing_then_ret.
Qed.

Lemma simF_parseArray (C : TypeNode -> Prop) : simF (String sep rest) k0 C (parseArray pt).
Proof.
  unfold parseArray.
  assert (Hlast : forall type : TypeNode,
             decreasing 1 (skipExpected CloseBracketToken ;;; ret (Array type))).
  { intros type. apply (decreasing_bind 1 0);
      [apply decreasing_skipExpected; discriminate|].
    intros ?. apply decreasing_ret. }
  apply simF_bind; [apply simF_skipExpected | |]; intros ?.
  - apply (simSF_bind 0); [apply pt_simS | exact Hlast |]. intros type.
    apply simF_bind; [apply simF_skipExpected | |]; intros ?;
      [apply simF_ret | apply simB_ret].
  - apply simB_decreasing. apply (decreasing_bind 1 0); [assumption|].
    intros type. eapply decreasing_weaken; [apply Hlast | lia].
Qed.

(** The named-parameter prefix [identifier ':'] *)
Lemma simF_name_colon {B : Type} (C : B -> Prop) (g : string -> B) :
  simF (String sep rest) k0 C
    (name <- parseIdentifier ;; skipExpected ColonToken ;;; ret (g name)) /\
  decreasing 2
    (name <- parseIdentifier ;; skipExpected ColonToken ;;; ret (g name)).
Proof.
  assert (Hlast : forall name : string,
             decreasing 1 (skipExpected ColonToken ;;; ret (g name))).
  { intros name. apply (decreasing_bind 1 0);
      [apply decreasing_skipExpected; discriminate|].
    intros ?. apply decreasing_ret. }
  split.
  - apply simF_bind; [apply simF_parseIdentifier | |]; intros name.
    + apply simF_bind; [apply simF_skipExpected | |]; intros ?;
        [apply simF_ret | apply simB_ret].
    + apply simB_decreasing, Hlast.
  - apply (decreasing_bind 1 1); [apply decreasing_parseIdentifier | exact Hlast].
Qed.

Lemma simS_parseTypeLiteralMember : simS (String sep rest) 0 (parseTypeLiteralMember pt).
Proof.
  unfold parseTypeLiteralMember.
  apply (simS_bind 0 0);
    [apply (simF_simS 0 anyValue), simF_parseIdentifier | |]; intros name.
  - apply (simS_bind 0 0);
      [apply (simF_simS 0 anyValue), simF_skipExpected | |]; intros ?.
    + apply simS_type_then_ret.
    + apply (decreasing_weaken 1); [now apply decreasing_then_ret | lia].
  - apply (decreasing_bind 0 0).
    + eapply decreasing_weaken; [apply decreasing_skipExpected; discriminate | lia].
    + intros ?. apply (decreasing_weaken 1); [now apply decreasing_then_ret | lia].
Qed.

Lemma simS_parseFunctionParameterPrefix :
  simS (String sep rest) 1 parseFunctionParameterPrefix.
Proof.
  unfold parseFunctionParameterPrefix.
  apply simS_bind_keeps; [apply keeps_getToken|]. intros k.
  destruct (SyntaxKind_beq k DotDotDotToken).
  - apply (simF_simS 1 anyValue).
    apply simF_bind; [apply simF_nextToken | |]; intros ?.
    + apply (simF_name_colon anyValue (fun name => (Some name, Some true))).
    + apply simB_decreasing.
      eapply decreasing_weaken;
        [apply (simF_name_colon anyValue (fun name => (Some name, Some true)))
        | lia].
  - apply (simS_bind 1 0);
      [apply simS_lookAheadNamedFunctionParameterStart | |]; intros [|].
    + apply (simF_simS 1 anyValue).
      apply (simF_name_colon anyValue (fun name => (Some name, @None bool))).
    + apply simS_ret.
    + eapply decreasing_weaken;
        [apply (simF_name_colon anyValue (fun name => (Some name, @None bool)))
        | lia].
    + apply decreasing_ret.
Qed.

Lemma simS_parseFunctionParameter : simS (String sep rest) 0 (parseFunctionParameter pt).
Proof.
  unfold parseFunctionParameter.
  apply (simS_bind 0 1); [apply simS_parseFunctionParameterPrefix | |];
    intros [name rest'].
  - apply simS_type_then_ret.
  - now apply decreasing_then_ret.
Qed.

Lemma simF_parseObject (C : TypeNode -> Prop) : simF (String sep rest) k0 C (parseObject pt fuel).
Proof.
  unfold parseObject. apply simF_bind_keeps; [apply keeps_getToken|]. intros k.
  apply simF_bind_keeps; [apply keeps_invariant|]. intros ?.
  apply (simF_then_ret anyValue); [|intros; exact I].
  apply simF_parseBracketedList; [| |discriminate].
  - apply simS_parseTypeLiteralMember.
  - eapply decreasing_weaken; [now apply decreasing_parseTypeLiteralMember | lia].
Qed.

Lemma simF_parseUnion (C : TypeNode -> Prop) : simF (String sep rest) k0 C (parseUnion pt fuel).
Proof.
  unfold parseUnion. apply simF_bind_keeps; [apply keeps_getToken|]. intros k.
  apply simF_bind_keeps; [apply keeps_invariant|]. intros ?.
  assert (Hdec0 : decreasing 0 pt) by (eapply decreasing_weaken; [eassumption | lia]).
  apply simF_bind; [apply simF_nextToken | |]; intros ?.
  - apply (simF_then_ret anyValue); [|intros; exact I].
    apply simF_parseBracketedList; [| |discriminate].
    + apply pt_simS.
    + assumption.
  - apply simB_decreasing. apply decreasing_then_ret.
    eapply decreasing_weaken;
      [apply decreasing_parseBracketedList; [assumption | discriminate | discriminate]
      | lia].
Qed.

(** After the parameter list, [parseFunction] looks for the arrow: at the
    end of the shorter text it finds none, and in the longer text it finds
    none either when the first token that follows is not the arrow. *)
Lemma simF_parameters (C : list FunctionParameterTypeNode -> Prop) :
  simF (String sep rest) k0 C
    (parseBracketedList fuel Parameters (parseFunctionParameter pt)
       OpenParenToken CloseParenToken).
Proof.
  apply simF_parseBracketedList; [| |discriminate].
  - apply simS_parseFunctionParameter.
  - eapply decreasing_weaken; [now apply decreasing_parseFunctionParameter | lia].
Qed.

Lemma simF_parseFunction : simF (String sep rest) k0 (ends k0) (parseFunction pt fuel).
Proof.
  unfold parseFunction.
  apply simF_bind; [| |]; [|intros parameters|intros parameters].
  - apply simF_parameters.
  - apply simF_bind; [apply simF_skipOptional | |]; intros [|].
    + apply (simF_then_ret (ends k0)); [assumption|]. intros type H. exact H.
    + apply simF_ret.
    + apply simB_decreasing. now apply decreasing_then_ret.
    + apply simB_ret.
  - intros st st2 a st' Hpast H Hc. inv_bind H as arrow st1 Harrow.
    pose proof (decreasing_skipOptional _ _ _ _ Harrow) as Hle1.
    assert (Hle : measure st' <= measure st1).
    { destruct arrow.
      - apply (decreasing_then_ret 1 pt _ pt_decreasing) in H. lia.
      - apply decreasing_ret in H. lia. }
    assert (Hz' : measure st' = 0) by (destruct Hpast as (Hz & _); lia).
    assert (Harrow0 : token st = EndOfFileToken)
      by (destruct Hpast as (Hz & _); now apply measure_zero in Hz).
    apply skipOptional_Ok in Harrow.
    destruct Harrow as [(Hkk & _)|(_ & -> & ->)]; [congruence|].
    unfold ret in H. injection H as <- <-.
    exists st2. split; [|assumption]. apply bind_Ok. exists false, st2.
    split; [|reflexivity]. apply skipOptional_absent.
    destruct Hpast as (_ & ->). intros Heq. apply (Hc Hz'). simpl.
    now rewrite Heq.
Qed.

Hypothesis pt_readsOn : readsOn (String sep rest) k0 pt.

Lemma readsOn_parseNullable : readsOn (String sep rest) k0 (parseNullable pt).
Proof.
  intros st st2 node st' st2' Hin H Hend Hopen H2.
  unfold parseNullable in H, H2.
  inv_bind H as u st1 Hnext. inv_bind H as type st1' Htype.
  unfold ret in H. injection H as <- <-.
  inv_bind H2 as u2 st21 Hnext2. inv_bind H2 as type2 st21' Htype2.
  unfold ret in H2. injection H2 as -> _.
  destruct u, u2.
  destruct (simF_nextToken (C := anyValue) _ _ _ _ Hin Hnext (fun _ => I))
    as (st21b & Hnext2' & Hrel).
  rewrite Hnext2' in Hnext2. injection Hnext2 as <-.
  destruct Hrel as [Hin1|(Hz & _)].
  - exact (pt_readsOn _ _ _ _ _ Hin1 Htype Hend Hopen Htype2).
  - apply pt_decreasing in Htype. lia.
Qed.

Lemma readsOn_parseFunction : readsOn (String sep rest) k0 (parseFunction pt fuel).
Proof.
  intros st st2 node st' st2' Hin H Hend Hopen H2.
  unfold parseFunction in H, H2.
  inv_bind H as parameters st1 Hlist. inv_bind H as arrow st1' Harrow.
  inv_bind H2 as parameters2 st21 Hlist2. inv_bind H2 as arrow2 st21' Harrow2.
  destruct (simF_parameters anyValue _ _ _ _ Hin Hlist (fun _ => I))
    as (st21b & Hlist2' & Hrel).
  rewrite Hlist2' in Hlist2. injection Hlist2 as <- <-.
  destruct Hrel as [Hin1|(Hz & Hk)].
  - destruct (simF_skipOptional (C := anyValue) RightArrowToken _ _ _ _
                Hin1 Harrow (fun _ => I)) as (st21c & Harrow2' & Hrel1).
    rewrite Harrow2' in Harrow2. injection Harrow2 as <- <-.
    destruct arrow.
    + inv_bind H as returnType st1b Htype. unfold ret in H. injection H as <- <-.
      inv_bind H2 as returnType2 st21d Htype2. unfold ret in H2.
      injection H2 as -> _.
      destruct Hrel1 as [Hin2|(Hz & _)].
      * exact (pt_readsOn _ _ _ _ _ Hin2 Htype Hend Hopen Htype2).
      * apply pt_decreasing in Htype. lia.
    + unfold ret in H. injection H as <- <-.
      apply skipOptional_Ok in Harrow.
      destruct Harrow as [(_ & Hd & _)|(_ & _ & ->)]; [discriminate|].
      destruct Hin1 as (Hne & _). contradiction.
  - apply measure_zero in Hz. destruct Hz as (Heof & _).
    apply skipOptional_Ok in Harrow.
    destruct Harrow as [(Hkk & _)|(_ & -> & ->)]; [congruence|].
    unfold ret in H. injection H as <- <-.
    simpl in Hopen. injection Hopen as Hk0.
    apply skipOptional_Ok in Harrow2.
    destruct Harrow2 as [(_ & -> & _)|(Hn & _)]; [|congruence].
    inv_bind H2 as returnType2 st21d Htype2. unfold ret in H2. discriminate H2.
Qed.

End ProductionsBeforeTrailingText.

Lemma simF_literal (C : TypeNode -> Prop) (make : string -> TypeNode) :
  simF (String sep rest) k0 C (value <- getTokenValue ;; nextToken ;;; ret (make value)).
Proof.
  apply simF_bind_keeps; [apply keeps_getTokenValue|]. intros value.
  apply simF_bind; [apply simF_nextToken | |]; intros ?;
    [apply simF_ret | apply simB_ret].
Qed.

Lemma simF_parseAny (C : TypeNode -> Prop) : simF (String sep rest) k0 C parseAny.
Proof.
  unfold parseAny. apply simF_bind; [apply simF_nextToken | |]; intros ?;
    [apply simF_ret | apply simB_ret].
Qed.

(** One [Type] derivation returns the same tree whether or not the text
    that follows is there, provided its first token does not continue the
    tree when the derivation reaches the end of the shorter text. *)
Lemma simF_parseType fuel : simF (String sep rest) k0 (ends k0) (parseType fuel).
Proof.
  induction fuel as [|fuel IH].
  - intros st st2 a st' _ H. discriminate H.
  - pose proof (decreasing_parseType fuel) as Hdec.
    cbn [parseType]. apply simF_bind_keeps; [apply keeps_getToken|].
    intros k. destruct k; try apply simF_throw.
    + apply simF_parseEntity.
    + apply (simF_literal _ StringLiteralNode).
    + apply (simF_literal _ NumberLiteralNode).
    + now apply simF_parseNullable.
    + now apply simF_parseFunction.
    + now apply simF_parseArray.
    + now apply simF_parseObject.
    + apply simF_parseAny.
    + apply simF_parseAny.
    + now apply simF_parseUnion.
Qed.

Lemma parseEntityLoop_length fuel name st name' st' :
  parseEntityLoop fuel name st = Ok (name', st') ->
  String.length name <= String.length name'.
Proof.
  revert name st. induction fuel as [|fuel IH]; intros name st H; [discriminate|].
  cbn [parseEntityLoop] in H. inv_bind H as dot st1 Hdot. destruct dot.
  - inv_bind H as identifier st2 Hid. apply IH in H.
    rewrite !length_append in H. lia.
  - unfold ret in H. inv_ok H. lia.
Qed.

(** When the first run has stopped at the end of its text and a ['.']
    follows, the loop of [parseEntity] goes on in the second run, and the
    name gets longer. *)
Lemma readsOn_parseEntityLoop fuel name st st2 name1 st' name2 st2' :
  inStep (String sep rest) st st2 \/ pastEnd k0 st st2 ->
  k0 = DotToken ->
  parseEntityLoop fuel name st = Ok (name1, st') ->
  token st' = EndOfFileToken ->
  parseEntityLoop fuel name st2 = Ok (name2, st2') ->
  String.length name1 < String.length name2.
Proof.
  revert name st st2.
  induction fuel as [|fuel IH]; intros name st st2 Hrel Hk0 H Hend H2;
    [discriminate|].
  cbn [parseEntityLoop] in H, H2.
  inv_bind H as dot st1 Hdot. inv_bind H2 as dot2 st21 Hdot2.
  destruct Hrel as [Hin|(Hz & Hk)].
  - destruct (simF_skipOptional (C := anyValue) DotToken _ _ _ _
                Hin Hdot (fun _ => I)) as (st21b & Hdot2' & Hrel1).
    rewrite Hdot2' in Hdot2. injection Hdot2 as <- <-.
    destruct dot.
    + inv_bind H as identifier st1b Hid. inv_bind H2 as identifier2 st21c Hid2.
      destruct Hrel1 as [Hin1|(Hz & _)].
      * destruct (simF_parseIdentifier (C := anyValue) _ _ _ _
                    Hin1 Hid (fun _ => I)) as (st21d & Hid2' & Hrel2).
        rewrite Hid2' in Hid2. injection Hid2 as <- <-.
        exact (IH _ _ _ Hrel2 Hk0 H Hend H2).
      * apply decreasing_parseIdentifier in Hid. lia.
    + unfold ret in H. injection H as <- <-.
      apply skipOptional_Ok in Hdot.
      destruct Hdot as [(_ & Hd & _)|(_ & _ & ->)]; [discriminate|].
      destruct Hin as (Hne & _). contradiction.
  - apply measure_zero in Hz. destruct Hz as (Heof & _).
    apply skipOptional_Ok in Hdot.
    destruct Hdot as [(Hkk & _)|(_ & -> & ->)]; [congruence|].
    unfold ret in H. injection H as <- <-.
    apply skipOptional_Ok in Hdot2.
    destruct Hdot2 as [(_ & -> & _)|(Hn & _)]; [|congruence].
    inv_bind H2 as identifier2 st21c Hid2.
    apply parseEntityLoop_length in H2. rewrite !length_append in H2.
    simpl in H2. lia.
Qed.

Lemma readsOn_parseEntity fuel : readsOn (String sep rest) k0 (parseEntity fuel).
Proof.
  intros st st2 node st' st2' Hin H Hend Hopen H2.
  unfold parseEntity in H, H2.
  inv_bind H as w st1 Hw. inv_bind H as name st1b Hloop.
  unfold ret in H. injection H as <- <-.
  inv_bind H2 as w2 st21 Hw2. inv_bind H2 as name2 st21b Hloop2.
  unfold ret in H2. injection H2 as Hname _.
  simpl in Hopen. injection Hopen as Hk0.
  destruct (simF_parseIdentifier (C := anyValue) _ _ _ _ Hin Hw (fun _ => I))
    as (st21c & Hw2' & Hrel).
  rewrite Hw2' in Hw2. injection Hw2 as <- <-.
  pose proof (readsOn_parseEntityLoop _ _ _ _ _ _ _ _
                Hrel (eq_sym Hk0) Hloop Hend Hloop2) as Hlt.
  rewrite Hname in Hlt. lia.
Qed.

(** A [Type] derivation that has read the whole of the shorter text and
    returned a tree that the first token after it continues does not
    return that tree on the longer text. *)
Lemma readsOn_parseType fuel : readsOn (String sep rest) k0 (parseType fuel).
Proof.
  induction fuel as [|fuel IH].
  - intros st st2 node st' st2' _ H. discriminate H.
  - pose proof (decreasing_parseType fuel) as Hdec.
    pose proof (simF_parseType fuel) as Hsim.
    intros st st2 node st' st2' Hin H Hend Hopen H2.
    cbn [parseType] in H, H2.
    unfold bind at 1, getToken in H. unfold bind at 1, getToken in H2.
    pose proof Hin as (_ & Hk & _). rewrite Hk in H2.
    destruct (token st); try discriminate H.
    + exact (readsOn_parseEntity fuel _ _ _ _ _ Hin H Hend Hopen H2).
    + unfold parseStringLiteral in H. inv_bind H as v st1 H1. inv_bind H as u st3 H3.
      unfold ret in H. inv_ok H. discriminate Hopen.
    + unfold parseNumberLiteral in H. inv_bind H as v st1 H1. inv_bind H as u st3 H3.
      unfold ret in H. inv_ok H. discriminate Hopen.
    + exact (readsOn_parseNullable _ Hdec IH _ _ _ _ _ Hin H Hend Hopen H2).
    + exact (readsOn_parseFunction _ _ Hsim Hdec IH _ _ _ _ _ Hin H Hend Hopen H2).
    + unfold parseArray in H. inv_bind H as u st1 H1. inv_bind H as type st3 H3.
      inv_bind H as u' st4 H4. unfold ret in H. inv_ok H. discriminate Hopen.
    + unfold parseObject in H. inv_bind H as k st1 H1. inv_bind H as u st3 H3.
      inv_bind H as members st4 H4. unfold ret in H. inv_ok H. discriminate Hopen.
    + unfold parseAny in H. inv_bind H as u st1 H1. unfold ret in H. inv_ok H.
      discriminate Hopen.
    + unfold parseAny in H. inv_bind H as u st1 H1. unfold ret in H. inv_ok H.
      discriminate Hopen.
    + unfold parseUnion in H. inv_bind H as k st1 H1. inv_bind H as u st3 H3.
      inv_bind H as u' st4 H4. inv_bind H as types st5 H5.
      unfold ret in H. inv_ok H. discriminate Hopen.
Qed.

End ParserBeforeTrailingText.

(** ** More fuel changes no result *)

Lemma refines_refl {A : Type} (p : Parser A) : refines p p.
Proof. intros st r H. exact H. Qed.

Lemma refines_bind {A B : Type} (m m' : Parser A) (f f' : A -> Parser B) :
  refines m m' -> (forall a, refines (f a) (f' a)) ->
  refines (bind m f) (bind m' f').
Proof.
  intros Hm Hf st [b st'] H. inv_bind H as a st1 H1.
  apply bind_Ok. exists a, st1. split; [now apply Hm | now apply Hf].
Qed.

Lemma refines_parseEntityLoop n m name :
  n <= m -> refines (parseEntityLoop n name) (parseEntityLoop m name).
Proof.
  revert m name. induction n as [|n IH]; intros m name Hle.
  - intros st r H. discriminate H.
  - destruct m as [|m]; [lia|]. cbn [parseEntityLoop].
    apply refines_bind; [apply refines_refl|]. intros [|]; [|apply refines_refl].
    apply refines_bind; [apply refines_refl|]. intros w. apply IH. lia.
Qed.

Lemma refines_parseDelimitedListLoop {T : Type} n m context (pe pe' : Parser T) result :
  refines pe pe' -> n <= m ->
  refines (parseDelimitedListLoop n context pe result)
          (parseDelimitedListLoop m context pe' result).
Proof.
  intros Hpe. revert m result. induction n as [|n IH]; intros m result Hle.
  - intros st r H. discriminate H.
  - destruct m as [|m]; [lia|]. cbn [parseDelimitedListLoop].
    apply refines_bind; [apply refines_refl|]. intros [|]; [apply refines_refl|].
    apply refines_bind; [assumption|]. intros x.
    apply refines_bind; [apply refines_refl|]. intros ?. apply IH. lia.
Qed.

Lemma refines_parseBracketedList {T : Type} n m context (pe pe' : Parser T) open close :
  refines pe pe' -> n <= m ->
  refines (parseBracketedList n context pe open close)
          (parseBracketedList m context pe' open close).
Proof.
  intros Hpe Hle. unfold parseBracketedList, parseDelimitedList.
  apply refines_bind; [apply refines_refl|]. intros ?.
  apply refines_bind; [now apply refines_parseDelimitedListLoop|]. intros result.
  apply refines_refl.
Qed.

Lemma refines_parseFunctionParameter pt pt' :
  refines pt pt' -> refines (parseFunctionParameter pt) (parseFunctionParameter pt').
Proof.
  intros Hpt. unfold parseFunctionParameter.
  apply refines_bind; [apply refines_refl|]. intros [name rest].
  apply refines_bind; [assumption|]. intros type. apply refines_refl.
Qed.

Lemma refines_parseTypeLiteralMember pt pt' :
  refines pt pt' -> refines (parseTypeLiteralMember pt) (parseTypeLiteralMember pt').
Proof.
  intros Hpt. unfold parseTypeLiteralMember.
  apply refines_bind; [apply refines_refl|]. intros name.
  apply refines_bind; [apply refines_refl|]. intros ?.
  apply refines_bind; [assumption|]. intros type. apply refines_refl.
Qed.

Lemma refines_parseType n m : n <= m -> refines (parseType n) (parseType m).
Proof.
  revert m. induction n as [|n IH]; intros m Hle.
  - intros st r H. discriminate H.
  - destruct m as [|m]; [lia|]. specialize (IH m ltac:(lia)).
    cbn [parseType]. apply refines_bind; [apply refines_refl|].
    intros k. destruct k; try apply refines_refl.
    + unfold parseEntity. apply refines_bind; [apply refines_refl|]. intros w.
      apply refines_bind; [apply refines_parseEntityLoop; lia|]. intros name.
      apply refines_refl.
    + unfold parseNullable. apply refines_bind; [apply refines_refl|]. intros ?.
      apply refines_bind; [assumption|]. intros type. apply refines_refl.
    + unfold parseFunction. apply refines_bind.
      * apply refines_parseBracketedList; [|lia].
        now apply refines_parseFunctionParameter.
      * intros parameters. apply refines_bind; [apply refines_refl|].
        intros [|]; [|apply refines_refl].
        apply refines_bind; [assumption|]. intros type. apply refines_refl.
    + unfold parseArray. apply refines_bind; [apply refines_refl|]. intros ?.
      apply refines_bind; [assumption|]. intros type. apply refines_refl.
    + unfold parseObject. apply refines_bind; [apply refines_refl|]. intros k.
      apply refines_bind; [apply refines_refl|]. intros ?.
      apply refines_bind; [|intros members; apply refines_refl].
      apply refines_parseBracketedList; [|lia].
      now apply refines_parseTypeLiteralMember.
    + unfold parseUnion. apply refines_bind; [apply refines_refl|]. intros k.
      apply refines_bind; [apply refines_refl|]. intros ?.
      apply refines_bind; [apply refines_refl|]. intros ?.
      apply refines_bind; [|intros types; apply refines_refl].
      apply refines_parseBracketedList; [assumption | lia].
Qed.

(** ** Trailing tokens *)

(** [parse] on a text followed by white space and a trailing text returns
    what it returns on the text alone, unless the derivation has read the
    whole text and the first trailing token continues its tree. *)
Lemma parse_ignores_trailing text ws trailing node stop k :
  parse text = Ok node ->
  tokenAfter text = Ok stop ->
  isBlank ws = true ->
  firstToken trailing = Ok k ->
  (stop = EndOfFileToken -> openEnd node <> Some k) ->
  parse (text ++ ws ++ trailing) = Ok node.
Proof.
  intros H Hstop Hws Hfirst Hends. apply parse_Ok in H.
  destruct H as (st & st' & Hinit & H).
  unfold tokenAfter in Hstop. rewrite Hinit, H in Hstop.
  injection Hstop as Hstop.
  destruct ws as [|sep ws]; [discriminate|]. simpl in Hws.
  apply andb_prop in Hws. destruct Hws as (Hsep & Hws).
  rewrite <- (firstToken_blank_app ws trailing Hws) in Hfirst.
  change (String sep ws ++ trailing)%string
    with (String sep (ws ++ trailing))%string.
  remember (ws ++ trailing)%string as rest eqn:Hrest. clear Hrest Hws ws.
  unfold initialState in Hinit.
  destruct (Scanner.scan (Scanner.createScanner text)) as [[k1 sc]|e] eqn:Hscan;
    [|discriminate].
  inv_ok Hinit.
  destruct (scan_app sep rest Hsep (Scanner.createScanner text)
              (Scanner.createScanner (text ++ String sep rest)) _ _
              eq_refl eq_refl Hscan)
    as [(_ & Hne & sc2 & Hscan2 & Ht2 & Hv2)|(_ & -> & _)].
  - assert (Hin : inStep (String sep rest) {| scanner := sc; token := k1 |}
                                           {| scanner := sc2; token := k1 |})
      by (unfold inStep; simpl; auto).
    assert (Hc : measure st' = 0 -> ends k node).
    { intros Hz. apply measure_zero in Hz. destruct Hz as (Hz & _).
      apply Hends. congruence. }
    destruct (simF_parseType sep rest k Hsep Hfirst _ _ _ _ _ Hin H Hc)
      as (st2' & H2 & _).
    apply parse_Ok. exists {| scanner := sc2; token := k1 |}, st2'. split.
    + unfold initialState. now rewrite Hscan2.
    + eapply refines_parseType; [|eassumption].
      rewrite length_append. lia.
  - rewrite parseType_at_EndOfFile in H by reflexivity. discriminate H.
Qed.

(** [parse] on a text followed by white space and a trailing text does not
    return what it returns on the text alone when the derivation has read
    the whole text and the first trailing token continues its tree. *)
Lemma parse_reads_on text ws trailing node k :
  parse text = Ok node ->
  tokenAfter text = Ok EndOfFileToken ->
  isBlank ws = true ->
  firstToken trailing = Ok k ->
  openEnd node = Some k ->
  parse (text ++ ws ++ trailing) <> Ok node.
Proof.
  intros H Hstop Hws Hfirst Hopen H2. apply parse_Ok in H.
  destruct H as (st & st' & Hinit & H).
  unfold tokenAfter in Hstop. rewrite Hinit, H in Hstop.
  injection Hstop as Hend.
  destruct ws as [|sep ws]; [discriminate|]. simpl in Hws.
  apply andb_prop in Hws. destruct Hws as (Hsep & Hws).
  rewrite <- (firstToken_blank_app ws trailing Hws) in Hfirst.
  change (String sep ws ++ trailing)%string
    with (String sep (ws ++ trailing))%string in H2.
  remember (ws ++ trailing)%string as rest eqn:Hrest. clear Hrest Hws ws.
  apply parse_Ok in H2. destruct H2 as (st2 & st2' & Hinit2 & H2).
  unfold initialState in Hinit, Hinit2.
  destruct (Scanner.scan (Scanner.createScanner text)) as [[k1 sc]|e] eqn:Hscan;
    [|discriminate].
  inv_ok Hinit.
  destruct (scan_app sep rest Hsep (Scanner.createScanner text)
              (Scanner.createScanner (text ++ String sep rest)) _ _
              eq_refl eq_refl Hscan)
    as [(_ & Hne & sc2 & Hscan2 & Ht2 & Hv2)|(_ & -> & _)].
  - rewrite Hscan2 in Hinit2. inv_ok Hinit2.
    assert (Hin : inStep (String sep rest) {| scanner := sc; token := k1 |}
                                           {| scanner := sc2; token := k1 |})
      by (unfold inStep; simpl; auto).
    apply (refines_parseType _ (S (String.length (text ++ String sep rest)))) in H;
      [|rewrite length_append; lia].
    exact (readsOn_parseType sep rest k Hsep Hfirst _ _ _ _ _ _ Hin H Hend Hopen H2).
  - rewrite parseType_at_EndOfFile in H by reflexivity. discriminate H.
Qed.




(** ** The errors that [parse] raises *)

Lemma bind_Err {A B : Type} (m : Parser A) (f : A -> Parser B) st e :
  bind m f st = Err e <->
  m st = Err e \/ exists a st1, m st = Ok (a, st1) /\ f a st1 = Err e.
Proof.
  unfold bind. split.
  - destruct (m st) as [[a st1]|e0]; [eauto|]. intros H. inv_ok H. auto.
  - intros [->|(a & st1 & -> & H)]; [reflexivity | exact H].
Qed.

Lemma errs_bind {A B : Type} P (m : Parser A) Q (f : A -> Parser B) E :
  hoare P m Q -> errs P m E -> (forall a, errs (Q a) (f a) E) ->
  errs P (bind m f) E.
Proof.
  intros Hm He Hf st e HP H. apply bind_Err in H.
  destruct H as [H|(a & st1 & H1 & H)].
  - eapply He; eassumption.
  - eapply Hf; [|eassumption]. eapply Hm; eassumption.
Qed.

Lemma errs_ret {A : Type} P (a : A) E : errs P (ret a) E.
Proof. intros st e _ H. discriminate H. Qed.

Lemma errs_throw {A : Type} P e (E : Error -> Prop) : E e -> errs P (@throw A e) E.
Proof. intros HE st e' _ H. unfold throw in H. now inv_ok H. Qed.

Lemma errs_pre {A : Type} (P P' : PState -> Prop) (p : Parser A) E :
  errs P' p E -> (forall st, P st -> P' st) -> errs P p E.
Proof. intros Hp HP st e H1 H2. eapply Hp; eauto. Qed.

Lemma hoare_any {A : Type} P (p : Parser A) : hoare P p (fun _ _ => True).
Proof. intros st a st' _ _. exact I. Qed.

Lemma hoare_getToken_eq P :
  hoare P getToken (fun k st => P st /\ token st = k).
Proof. intros st k st' HP H. unfold getToken in H. inv_ok H. auto. Qed.

Lemma scanLexeme_Err c s e : Scanner.scanLexeme c s = Err e -> e = LexicalError c.
Proof.
  unfold Scanner.scanLexeme.
  repeat match goal with
         | |- context [if ?b then _ else _] => destruct b
         | |- context [match ?x with _ => _ end] => destruct x
         end; intros H; try discriminate H; now inv_ok H.
Qed.

Lemma scan_Err s e : Scanner.scan s = Err e -> exists c, e = LexicalError c.
Proof.
  unfold Scanner.scan.
  destruct (Scanner.skipWhiteSpace (Scanner.text s)) as [|c r]; [discriminate|].
  destruct (Scanner.scanLexeme c r) as [[[k v] r']|e0] eqn:Hlex; [discriminate|].
  intros H. inv_ok H. apply scanLexeme_Err in Hlex. eauto.
Qed.

Lemma nextToken_Err st e : nextToken st = Err e -> exists c, e = LexicalError c.
Proof.
  unfold nextToken.
  destruct (Scanner.scan (scanner st)) as [[k sc]|e0] eqn:Hscan; [discriminate|].
  intros H. inv_ok H. eapply scan_Err; eassumption.
Qed.

Lemma mayRaise_lexical c : mayRaise (LexicalError c).
Proof. left. exact I. Qed.

Lemma errs_nextToken P : errs P nextToken mayRaise.
Proof.
  intros st e _ H. apply nextToken_Err in H. destruct H as (c & ->).
  apply mayRaise_lexical.
Qed.

Lemma errs_getToken P E : errs P getToken E.
Proof. intros st e _ H. discriminate H. Qed.

Lemma errs_invariant P condition : errs P (invariant condition) mayRaise.
Proof.
  destruct condition; [apply errs_ret|]. apply errs_throw. left. exact I.
Qed.

(** [skipExpected] on the token it expects can only fail in the scanner. *)
Lemma errs_skipExpected_at kind :
  errs (fun st => token st = kind) (skipExpected kind) mayRaise.
Proof.
  intros st e Hk H. unfold skipExpected, bind, getToken in H.
  rewrite Hk, SyntaxKind_beq_refl in H. simpl in H.
  now apply (errs_nextToken (fun _ => True) st e I).
Qed.

Lemma errs_skipExpected P kind :
  kind = LessThanToken \/ kind = CloseBracketToken \/ kind = ColonToken ->
  errs P (skipExpected kind) mayRaise.
Proof.
  intros Hkind st e _ H. unfold skipExpected, bind, getToken in H.
  destruct (SyntaxKind_beq (token st) kind) eqn:Hk; simpl in H.
  - now apply (errs_nextToken (fun _ => True) st e I).
  - unfold throw in H. inv_ok H. left. split; [assumption|].
    now apply SyntaxKind_beq_neq.
Qed.

Lemma errs_skipOptional P kind : errs P (skipOptional kind) mayRaise.
Proof.
  intros st e _ H. unfold skipOptional, bind, getToken in H.
  destruct (SyntaxKind_beq (token st) kind); [|discriminate H].
  destruct (nextToken st) as [[u st1]|e0] eqn:Hn; [discriminate H|].
  inv_ok H. now apply (errs_nextToken (fun _ => True) st e I).
Qed.

Lemma errs_parseIdentifier P : errs P parseIdentifier mayRaise.
Proof.
  intros st e _ H.
  unfold parseIdentifier, bind, getToken, getTokenValue, invariant, throw in H.
  destruct (SyntaxKind_beq (token st) Identifier); simpl in H.
  - destruct (nextToken st) as [[u st1]|e0] eqn:Hn; [discriminate H|].
    inv_ok H. now apply (errs_nextToken (fun _ => True) st e I).
  - inv_ok H. left. exact I.
Qed.

Lemma errs_lookAheadNamedFunctionParameterStart P :
  errs P lookAheadNamedFunctionParameterStart mayRaise.
Proof.
  intros st e _ H.
  unfold lookAheadNamedFunctionParameterStart, Scanner.lookAhead,
    isNamedFunctionParameterStart in H.
  destruct (SyntaxKind_beq (token st) Identifier); [|discriminate H].
  destruct (Scanner.scan (scanner st)) as [[k sc]|e0] eqn:Hscan; [discriminate H|].
  inv_ok H. apply scan_Err in Hscan. destruct Hscan as (c & ->).
  apply mayRaise_lexical.
Qed.

Lemma errs_parseEntityLoop P fuel name : errs P (parseEntityLoop fuel name) mayRaise.
Proof.
  revert P name. induction fuel as [|fuel IH]; intros P name.
  - apply errs_throw. now right.
  - cbn [parseEntityLoop].
    eapply errs_bind; [apply hoare_any | apply errs_skipOptional|].
    intros [|]; [|apply errs_ret].
    eapply errs_bind; [apply hoare_any | apply errs_parseIdentifier|].
    intros w. apply IH.
Qed.

Lemma errs_parseEntity P fuel : errs P (parseEntity fuel) mayRaise.
Proof.
  unfold parseEntity.
  eapply errs_bind; [apply hoare_any | apply errs_parseIdentifier|]. intros w.
  eapply errs_bind; [apply hoare_any | apply errs_parseEntityLoop|]. intros name.
  apply errs_ret.
Qed.

Lemma errs_parseDelimitedListLoop {T : Type} P fuel context (pe : Parser T) result :
  errs (fun _ => True) pe mayRaise ->
  errs P (parseDelimitedListLoop fuel context pe result) mayRaise.
Proof.
  intros Hpe. revert P result. induction fuel as [|fuel IH]; intros P result.
  - apply errs_throw. now right.
  - cbn [parseDelimitedListLoop].
    eapply errs_bind; [apply hoare_any | |].
    { intros st e _ H. rewrite isListTerminator_eq in H. discriminate H. }
    intros [|]; [apply errs_ret|].
    eapply errs_bind;
      [apply hoare_any | eapply errs_pre; [exact Hpe | intros; exact I] |].
    intros x.
    eapply errs_bind; [apply hoare_any | apply errs_skipOptional|].
    intros ?. apply IH.
Qed.

(** In a bracketed list the closing token is expected only where the list
    loop has found it, so the check of the closing token raises no error
    of its own. *)
Lemma errs_parseBracketedList {T : Type} P fuel context (pe : Parser T) open :
  errs P (skipExpected open) mayRaise ->
  errs (fun _ => True) pe mayRaise ->
  errs P (parseBracketedList fuel context pe open (terminatorOf context)) mayRaise.
Proof.
  intros Hopen Hpe. unfold parseBracketedList, parseDelimitedList.
  eapply errs_bind; [apply hoare_any | exact Hopen|]. intros ?.
  eapply errs_bind with (Q := fun _ st => token st = terminatorOf context).
  - intros st res st' _ H.
    eapply parseDelimitedListLoop_ends_at_terminator; eassumption.
  - now apply errs_parseDelimitedListLoop.
  - intros res.
    eapply errs_bind; [apply hoare_any | apply errs_skipExpected_at|].
    intros ?. apply errs_ret.
Qed.

Section ErrorsOfProductions.

Variable pt : Parser TypeNode.
Variable fuel : nat.

Hypothesis pt_errs : errs (fun _ => True) pt mayRaise.

Lemma errs_pt P : errs P pt mayRaise.
Proof. eapply errs_pre; [exact pt_errs | intros; exact I]. Qed.

Lemma errs_parseNullable P : errs P (parseNullable pt) mayRaise.
Proof.
  unfold parseNullable.
  eapply errs_bind; [apply hoare_any | apply errs_nextToken|]. intros ?.
  eapply errs_bind; [apply hoare_any | apply errs_pt|]. intros type.
  apply errs_ret.
Qed.

Lemma errs_parseArray :
  errs (fun st => token st = OpenBracketToken) (parseArray pt) mayRaise.
Proof.
  unfold parseArray.
  eapply errs_bind; [apply hoare_any | apply errs_skipExpected_at|]. intros ?.
  eapply errs_bind; [apply hoare_any | apply errs_pt|]. intros type.
  eapply errs_bind; [apply hoare_any | apply errs_skipExpected; auto|].
  intros ?. apply errs_ret.
Qed.

Lemma errs_parseTypeLiteralMember P : errs P (parseTypeLiteralMember pt) mayRaise.
Proof.
  unfold parseTypeLiteralMember.
  eapply errs_bind; [apply hoare_any | apply errs_parseIdentifier|]. intros name.
  eapply errs_bind; [apply hoare_any | apply errs_skipExpected; auto|]. intros ?.
  eapply errs_bind; [apply hoare_any | apply errs_pt|]. intros type.
  apply errs_ret.
Qed.

Lemma errs_parseObject :
  errs (fun st => token st = OpenBraceToken) (parseObject pt fuel) mayRaise.
Proof.
  unfold parseObject.
  eapply errs_bind; [apply hoare_getToken | apply errs_getToken|]. intros k.
  eapply errs_bind; [apply hoare_invariant | apply errs_invariant|]. intros ?.
  eapply errs_bind; [apply hoare_any | | intros members; apply errs_ret].
  apply (errs_parseBracketedList _ fuel LiteralTypeMembers).
  - apply errs_skipExpected_at.
  - apply errs_parseTypeLiteralMember.
Qed.

Lemma errs_parseUnion P : errs P (parseUnion pt fuel) mayRaise.
Proof.
  unfold parseUnion.
  eapply errs_bind; [apply hoare_any | apply errs_getToken|]. intros k.
  eapply errs_bind; [apply hoare_any | apply errs_invariant|]. intros ?.
  eapply errs_bind; [apply hoare_any | apply errs_nextToken|]. intros ?.
  eapply errs_bind; [apply hoare_any | | intros types; apply errs_ret].
  apply (errs_parseBracketedList _ fuel TypeParameters).
  - apply errs_skipExpected. auto.
  - exact pt_errs.
Qed.

Lemma errs_parseFunctionParameter P : errs P (parseFunctionParameter pt) mayRaise.
Proof.
  unfold parseFunctionParameter, parseFunctionParameterPrefix.
  assert (Hname : forall (rest : option bool) Q,
             errs Q (name <- parseIdentifier ;;
                     skipExpected ColonToken ;;; ret (Some name, rest)) mayRaise).
  { intros rest Q.
    eapply errs_bind; [apply hoare_any | apply errs_parseIdentifier|]. intros name.
    eapply errs_bind; [apply hoare_any | apply errs_skipExpected; auto|].
    intros ?. apply errs_ret. }
  eapply errs_bind; [apply hoare_any | | ].
  - eapply errs_bind; [apply hoare_any | apply errs_getToken|]. intros k.
    destruct (SyntaxKind_beq k DotDotDotToken).
    + eapply errs_bind; [apply hoare_any | apply errs_nextToken|]. intros ?.
      apply Hname.
    + eapply errs_bind;
        [apply hoare_any | apply errs_lookAheadNamedFunctionParameterStart|].
      intros [|]; [apply Hname | apply errs_ret].
  - intros [name rest].
    eapply errs_bind; [apply hoare_any | apply errs_pt|]. intros type.
    apply errs_ret.
Qed.

Lemma errs_parseFunction :
  errs (fun st => token st = OpenParenToken) (parseFunction pt fuel) mayRaise.
Proof.
  unfold parseFunction.
  eapply errs_bind; [apply hoare_any | |].
  - apply (errs_parseBracketedList _ fuel Parameters).
    + apply errs_skipExpected_at.
    + apply errs_parseFunctionParameter.
  - intros parameters.
    eapply errs_bind; [apply hoare_any | apply errs_skipOptional|].
    intros [|]; [|apply errs_ret].
    eapply errs_bind; [apply hoare_any | apply errs_pt|]. intros type.
    apply errs_ret.
Qed.

End ErrorsOfProductions.

Lemma errs_parseType fuel : errs (fun _ => True) (parseType fuel) mayRaise.
Proof.
  induction fuel as [|fuel IH].
  - apply errs_throw. now right.
  - cbn [parseType].
    eapply errs_bind; [apply hoare_getToken_eq | apply errs_getToken|].
    intros k. destruct k;
      try (apply errs_throw; left; reflexivity);
      try (eapply errs_pre;
           [first [ apply errs_parseEntity
                  | apply (errs_parseNullable _ IH)
                  | apply (errs_parseUnion _ fuel IH)
                  | apply (errs_parseFunction _ fuel IH)
                  | apply (errs_parseArray _ IH)
                  | apply (errs_parseObject _ fuel IH) ]
           | intros st (_ & Hk); try exact Hk; exact I ]).
    + unfold parseStringLiteral.
      eapply errs_bind; [apply hoare_any | intros st e _ H; discriminate H|].
      intros v. eapply errs_bind; [apply hoare_any | apply errs_nextToken|].
      intros ?. apply errs_ret.
    + unfold parseNumberLiteral.
      eapply errs_bind; [apply hoare_any | intros st e _ H; discriminate H|].
      intros v. eapply errs_bind; [apply hoare_any | apply errs_nextToken|].
      intros ?. apply errs_ret.
    + unfold parseAny.
      eapply errs_bind; [apply hoare_any | apply errs_nextToken|].
      intros ?. apply errs_ret.
    + unfold parseAny.
      eapply errs_bind; [apply hoare_any | apply errs_nextToken|].
      intros ?. apply errs_ret.
Qed.

(** Every error that [parse] raises is the scanner's, a failed
    [invariant], the dispatch error on a token that starts no type, or the
    error of [skipExpected] for a missing ['<'], [']'] or [':'].  Neither
    the closing token of a list nor an opening bracket is ever reported as
    expected but not found. *)
Theorem parse_raises_only_parse_errors text e :
  parse text = Err e -> parseError e.
Proof.
  unfold parse. destruct (initialState text) as [st|e0] eqn:Hinit.
  - destruct (parseType (S (String.length text)) st) as [[node st']|e0] eqn:H;
      [discriminate|].
    intros Heq. inv_ok Heq.
    destruct (errs_parseType _ st e I H) as [He| ->]; [exact He|].
    pose proof (initialState_measure _ _ Hinit) as Hm.
    now apply (safe_parseType (S (String.length text)) st ltac:(lia)) in H.
  - intros Heq. inv_ok Heq. unfold initialState in Hinit.
    destruct (Scanner.scan (Scanner.createScanner text)) as [[k sc]|e0] eqn:Hscan;
      [discriminate|].
    inv_ok Hinit. apply scan_Err in Hscan. destruct Hscan as (c & ->). exact I.
Qed.

(** [{a b}] lacks the [':'] of its member, and the error says so. *)
Lemma parse_raises_only_parse_errors_witness :
  parseError (ExpectedButFound ColonToken Identifier).
Proof.
  apply (parse_raises_only_parse_errors "{a b}"). reflexivity.
Defined.

(** ** The shape of the trees that [parse] returns *)

Lemma isIdentifierWord_truthy name :
  isIdentifierWord name = true -> truthyName (Some name) = Some name.
Proof. destruct name; [discriminate | reflexivity]. Qed.

Lemma hoare_parseEntity_wellFormed fuel :
  hoare identifierValueOk (parseEntity fuel)
    (fun node st => identifierValueOk st /\ wellFormed node).
Proof.
  unfold parseEntity. eapply hoare_bind; [apply hoare_parseIdentifier|].
  intros w. apply hoare_pure. intros Hw.
  eapply hoare_bind.
  - apply hoare_parseEntityLoop. now apply dottedName_word.
  - intros name. apply hoare_ret. intros st (Hst & Hname). split; [assumption|].
    now constructor.
Qed.

Section WellFormedProductions.

Variable pt : Parser TypeNode.
Variable fuel : nat.

Hypothesis pt_wellFormed :
  hoare identifierValueOk pt (fun node st => identifierValueOk st /\ wellFormed node).

Lemma hoare_parseNullable_wellFormed P :
  hoare P (parseNullable pt) (fun node st => identifierValueOk st /\ wellFormed node).
Proof.
  unfold parseNullable. eapply hoare_bind; [apply hoare_nextToken|]. intros ?.
  eapply hoare_bind; [apply pt_wellFormed|]. intros type. apply hoare_ret.
  intros st (Hst & Ht). split; [assumption | now constructor].
Qed.

Lemma hoare_parseArray_wellFormed P :
  hoare P (parseArray pt) (fun node st => identifierValueOk st /\ wellFormed node).
Proof.
  unfold parseArray. eapply hoare_bind; [apply hoare_skipExpected|]. intros ?.
  eapply hoare_bind; [apply pt_wellFormed|]. intros type.
  apply hoare_pure. intros Htype.
  eapply hoare_bind; [apply hoare_skipExpected|]. intros ?.
  apply hoare_ret. intros st Hst. split; [assumption | now constructor].
Qed.

Lemma hoare_parseTypeLiteralMember_wellFormed :
  hoare identifierValueOk (parseTypeLiteralMember pt)
    (fun m st => identifierValueOk st /\ wellFormedMember m).
Proof.
  unfold parseTypeLiteralMember.
  eapply hoare_bind; [apply hoare_parseIdentifier|]. intros name.
  apply hoare_pure. intros Hname.
  eapply hoare_bind; [apply hoare_skipExpected|]. intros ?.
  eapply hoare_bind; [apply pt_wellFormed|]. intros type. apply hoare_ret.
  intros st (Hst & Ht). split; [assumption | now constructor].
Qed.

Lemma hoare_parseObject_wellFormed P :
  hoare P (parseObject pt fuel)
    (fun node st => identifierValueOk st /\ wellFormed node).
Proof.
  unfold parseObject. eapply hoare_bind; [apply hoare_getToken|]. intros k.
  eapply hoare_bind; [apply hoare_invariant|]. intros ?.
  eapply hoare_bind.
  - apply hoare_parseBracketedList with (Q := wellFormedMember).
    apply hoare_parseTypeLiteralMember_wellFormed.
  - intros members. apply hoare_ret. intros st (Hst & Hms).
    split; [assumption | now constructor].
Qed.

Lemma hoare_parseUnion_wellFormed P :
  hoare P (parseUnion pt fuel) (fun node st => identifierValueOk st /\ wellFormed node).
Proof.
  unfold parseUnion. eapply hoare_bind; [apply hoare_getToken|]. intros k.
  eapply hoare_bind; [apply hoare_invariant|]. intros ?.
  eapply hoare_bind; [apply hoare_nextToken|]. intros ?.
  eapply hoare_bind.
  - apply hoare_parseBracketedList with (Q := wellFormed). apply pt_wellFormed.
  - intros types. apply hoare_ret. intros st (Hst & Hts).
    split; [assumption | now constructor].
Qed.

(** What the prefix of a parameter sets: no name and no [rest], or an
    identifier as the name, with [rest] absent or [true]. *)
Lemma hoare_parseFunctionParameterPrefix_wellFormed :
  hoare identifierValueOk parseFunctionParameterPrefix
    (fun prefix st =>
       identifierValueOk st /\
       (prefix = (None, None) \/
        exists name,
          isIdentifierWord name = true /\
          (prefix = (Some name, None) \/ prefix = (Some name, Some true)))).
Proof.
  unfold parseFunctionParameterPrefix.
  eapply hoare_bind; [apply hoare_getToken|]. intros k.
  destruct (SyntaxKind_beq k DotDotDotToken).
  - eapply hoare_bind; [apply hoare_nextToken|]. intros ?.
    eapply hoare_bind; [apply hoare_parseIdentifier|]. intros name.
    apply hoare_pure. intros Hname.
    eapply hoare_bind; [apply hoare_skipExpected|]. intros ?.
    apply hoare_ret. intros st Hst. split; [assumption|]. right. eauto.
  - eapply hoare_bind; [apply hoare_lookAheadNamedFunctionParameterStart|].
    intros [|].
    + eapply hoare_bind; [apply hoare_parseIdentifier|]. intros name.
      apply hoare_pure. intros Hname.
      eapply hoare_bind; [apply hoare_skipExpected|]. intros ?.
      apply hoare_ret. intros st Hst. split; [assumption|]. right. eauto.
    + apply hoare_ret. auto.
Qed.

Lemma hoare_parseFunctionParameter_wellFormed :
  hoare identifierValueOk (parseFunctionParameter pt)
    (fun p st => identifierValueOk st /\ wellFormedParameter p).
Proof.
  unfold parseFunctionParameter.
  eapply hoare_bind; [apply hoare_parseFunctionParameterPrefix_wellFormed|].
  intros [name rest]. apply hoare_pure. intros Hprefix.
  eapply hoare_bind; [apply pt_wellFormed|]. intros type. apply hoare_ret.
  intros st (Hst & Ht). split; [assumption|].
  destruct Hprefix as [Heq|(n & Hn & [Heq|Heq])]; inv_ok Heq.
  - now constructor.
  - rewrite (isIdentifierWord_truthy _ Hn). now constructor.
  - rewrite (isIdentifierWord_truthy _ Hn). now constructor.
Qed.

Lemma hoare_parseFunction_wellFormed P :
  hoare P (parseFunction pt fuel)
    (fun node st => identifierValueOk st /\ wellFormed node).
Proof.
  unfold parseFunction. eapply hoare_bind.
  - apply hoare_parseBracketedList with (Q := wellFormedParameter).
    apply hoare_parseFunctionParameter_wellFormed.
  - intros parameters. apply hoare_pure. intros Hps.
    eapply hoare_bind; [apply hoare_skipOptional|]. intros [|].
    + eapply hoare_bind; [apply pt_wellFormed|]. intros returnType.
      apply hoare_ret. intros st (Hst & Hr). split; [assumption|].
      constructor; [assumption|]. intros type Heq. now inv_ok Heq.
    + apply hoare_ret. intros st Hst. split; [assumption|].
      constructor; [assumption|]. intros type Heq. discriminate Heq.
Qed.

End WellFormedProductions.

Lemma hoare_parseType_wellFormed fuel :
  hoare identifierValueOk (parseType fuel)
    (fun node st => identifierValueOk st /\ wellFormed node).
Proof.
  induction fuel as [|fuel IH].
  - intros st a st' _ H. discriminate H.
  - cbn [parseType]. eapply hoare_bind; [apply hoare_getToken|].
    intros k.
    destruct k;
      try (intros st a st' _ H; discriminate H);
      auto using hoare_parseEntity_wellFormed, hoare_parseNullable_wellFormed,
        hoare_parseArray_wellFormed, hoare_parseObject_wellFormed,
        hoare_parseUnion_wellFormed, hoare_parseFunction_wellFormed.
    + unfold parseStringLiteral.
      eapply hoare_bind with (Q := fun _ => identifierValueOk);
        [intros st v st' Hst H; unfold getTokenValue in H; now inv_ok H|]. intros v.
      eapply hoare_bind; [apply hoare_nextToken|]. intros ?.
      apply hoare_ret. intros st Hst. split; [assumption | constructor].
    + unfold parseNumberLiteral.
      eapply hoare_bind with (Q := fun _ => identifierValueOk);
        [intros st v st' Hst H; unfold getTokenValue in H; now inv_ok H|]. intros v.
      eapply hoare_bind; [apply hoare_nextToken|]. intros ?.
      apply hoare_ret. intros st Hst. split; [assumption | constructor].
    + unfold parseAny. eapply hoare_bind; [apply hoare_nextToken|]. intros ?.
      apply hoare_ret. intros st Hst. split; [assumption | constructor].
    + unfold parseAny. eapply hoare_bind; [apply hoare_nextToken|]. intros ?.
      apply hoare_ret. intros st Hst. split; [assumption | constructor].
Qed.

(** Every tree that [parse] returns is well formed: the name of an Entity
    is dotted; a parameter has no name and no [rest], or an identifier as
    its name, or a name and [rest = true] (never [rest] without a name, and
    never [rest = false]); the name of a member is one identifier. *)
Theorem parse_returns_wellFormed text node :
  parse text = Ok node -> wellFormed node.
Proof.
  intros H. apply parse_Ok in H. destruct H as (st & st' & Hinit & H).
  apply hoare_parseType_wellFormed in H;
    [|eapply initialState_identifierValueOk; eassumption].
  apply H.
Qed.

(** The tree of [(...rest: a, b: ?c, d) → {e: f.g}]. *)
Lemma parse_returns_wellFormed_witness :
  wellFormed
    (Function
       [FunctionParameter (Some "rest") (Some true) (Entity "a");
        FunctionParameter (Some "b") None (Nullable (Entity "c"));
        FunctionParameter None None (Entity "d")]
       (Some (Object [ObjectMember "e" (Entity "f.g")]))).
Proof.
  apply (parse_returns_wellFormed "(...rest: a, b: ?c, d) → {e: f.g}").
  reflexivity.
Defined.

(** ** Blank input *)

(** On a text that is empty or holds white space only, [parse] raises the
    dispatch error on the end token. *)
Theorem parse_blank text :
  Scanner.skipWhiteSpace text = EmptyString ->
  parse text = Err (UnableToParseToken EndOfFileToken).
Proof.
  intros Hws. unfold parse, initialState, Scanner.scan, Scanner.createScanner.
  cbn [Scanner.text]. rewrite Hws.
  now rewrite parseType_at_EndOfFile.
Qed.

Lemma parse_blank_witness :
  parse EmptyString = Err (UnableToParseToken EndOfFileToken) /\
  parse "   " = Err (UnableToParseToken EndOfFileToken).
Proof.
  split.
  - apply (parse_blank EmptyString). reflexivity.
  - apply (parse_blank "   "). reflexivity.
Defined.

(** ** The kind of the root node *)

Lemma initialState_firstToken text st :
  initialState text = Ok st -> firstToken text = Ok (token st).
Proof.
  unfold initialState, firstToken, Scanner.scan, Scanner.createScanner.
  cbn [Scanner.text].
  destruct (Scanner.skipWhiteSpace text) as [|c r].
  - intros H. now inv_ok H.
  - destruct (Scanner.scanLexeme c r) as [[[k v] r']|e]; [|discriminate].
    intros H. now inv_ok H.
Qed.

Lemma parseType_builtOn fuel st node st' :
  parseType fuel st = Ok (node, st') -> builtOn (token st) node.
Proof.
  destruct fuel as [|fuel]; [discriminate|].
  cbn [parseType]. unfold bind at 1, getToken.
  destruct (token st); intros H; try discriminate H; cbn [builtOn].
  - unfold parseEntity in H. inv_bind H as w st1 H1. inv_bind H as name st2 H2.
    unfold ret in H. inv_ok H. eauto.
  - unfold parseStringLiteral in H. inv_bind H as v st1 H1. inv_bind H as u st2 H2.
    unfold ret in H. inv_ok H. eauto.
  - unfold parseNumberLiteral in H. inv_bind H as v st1 H1. inv_bind H as u st2 H2.
    unfold ret in H. inv_ok H. eauto.
  - apply parseNullable_Ok in H. destruct H as (st1 & inner & _ & _ & ->). eauto.
  - apply parseFunction_Ok_inv in H.
    destruct H as (parameters & st1 & returnType & _ & -> & _). eauto.
  - unfold parseArray in H. inv_bind H as u st1 H1. inv_bind H as type st2 H2.
    inv_bind H as u' st3 H3. unfold ret in H. inv_ok H. eauto.
  - unfold parseObject in H. inv_bind H as k st1 H1. inv_bind H as u st2 H2.
    inv_bind H as members st3 H3. unfold ret in H. inv_ok H. eauto.
  - unfold parseAny in H. inv_bind H as u st1 H1. unfold ret in H. now inv_ok H.
  - unfold parseAny in H. inv_bind H as u st1 H1. unfold ret in H. now inv_ok H.
  - unfold parseUnion in H. inv_bind H as k st1 H1. inv_bind H as u st2 H2.
    inv_bind H as u' st3 H3. inv_bind H as types st4 H4.
    unfold ret in H. inv_ok H. eauto.
Qed.

(** The first token of the text alone decides the kind of the tree that
    [parse] returns: [*] or [any] an Any, [[] an Array, [(] a Function,
    [?] a Nullable, an identifier an Entity, [union] a Union, [{] an
    Object, a string or a number the literal of its kind. *)
Theorem parse_kind_by_first_token text node :
  parse text = Ok node ->
  exists k, firstToken text = Ok k /\ builtOn k node.
Proof.
  intros H. apply parse_Ok in H. destruct H as (st & st' & Hinit & H).
  exists (token st). split.
  - now apply initialState_firstToken.
  - eapply parseType_builtOn; eassumption.
Qed.

(** [{a: b} c] starts with [{], and its tree is an Object. *)
Lemma parse_kind_by_first_token_witness :
  exists k,
    firstToken "{a: b} c" = Ok k /\
    builtOn k (Object [ObjectMember "a" (Entity "b")]).
Proof.
  apply (parse_kind_by_first_token "{a: b} c"). reflexivity.
Defined.

(** ** The nullable marker in front of a text *)

Lemma scan_ignores_token text k k' value :
  Scanner.scan (Scanner.mk text k value) = Scanner.scan (Scanner.mk text k' value).
Proof. reflexivity. Qed.

Lemma parseType_at_QuestionToken fuel st :
  token st = QuestionToken ->
  parseType (S fuel) st = parseNullable (parseType fuel) st.
Proof. intros Hk. cbn [parseType]. unfold bind at 1, getToken. now rewrite Hk. Qed.

(** A [?] in front of a text wraps the tree that [parse] returns for the
    text in a Nullable.  When [parse] raises on the text one of the errors
    of the parser, which name token kinds only, it raises the same error
    with the [?] in front; when it raises the error of the scanner, it
    raises an error of the scanner with the [?] in front as well, and
    nothing is said of the place that this error reports. *)
Theorem parse_nullable_prefix text :
  match parse text with
  | Ok node => parse ("?" ++ text) = Ok (Nullable node)
  | Err (LexicalError _) => exists c, parse ("?" ++ text) = Err (LexicalError c)
  | Err e => parse ("?" ++ text) = Err e
  end.
Proof.
  unfold parse, initialState.
  change (Scanner.scan (Scanner.createScanner ("?" ++ text)))
    with (@Ok (SyntaxKind * Scanner.t)
            (QuestionToken, Scanner.mk text (Some QuestionToken) EmptyString)).
  change (String.length ("?" ++ text)) with (S (String.length text)).
  cbv beta iota.
  rewrite parseType_at_QuestionToken by reflexivity.
  unfold parseNullable, bind, nextToken, ret. cbn [scanner].
  rewrite (scan_ignores_token text (Some QuestionToken) None).
  change (Scanner.mk text None EmptyString) with (Scanner.createScanner text).
  destruct (Scanner.scan (Scanner.createScanner text)) as [[k sc]|e].
  - destruct (parseType (S (String.length text)) {| scanner := sc; token := k |})
      as [[node st']|e]; [reflexivity|].
    destruct e; first [reflexivity | eexists; reflexivity].
  - destruct e; first [reflexivity | eexists; reflexivity].
Qed.

(** ** The three forms of a function parameter *)

Lemma lookAheadNamedFunctionParameterStart_Ok st named st' :
  lookAheadNamedFunctionParameterStart st = Ok (named, st') ->
  (named = true <->
   token st = Identifier /\
   exists sc, Scanner.scan (scanner st) = Ok (ColonToken, sc)).
Proof.
  unfold lookAheadNamedFunctionParameterStart, Scanner.lookAhead,
    isNamedFunctionParameterStart.
  destruct (SyntaxKind_beq (token st) Identifier) eqn:Hid.
  - apply SyntaxKind_beq_eq in Hid.
    destruct (Scanner.scan (scanner st)) as [[k sc]|e]; [|discriminate].
    intros H. inv_ok H. split.
    + intros Hk. apply SyntaxKind_beq_eq in Hk. subst k. eauto.
    + intros (_ & sc' & Heq). inv_ok Heq. apply SyntaxKind_beq_refl.
  - apply SyntaxKind_beq_neq in Hid. intros H. inv_ok H.
    split; [discriminate | tauto].
Qed.

(** A parameter that [parseFunctionParameter] returns has one of three
    forms, decided by the tokens it starts with: after [...] it is a rest
    parameter with a name; at an identifier directly followed by [':'] it
    has that identifier as its name, no [rest], and the type parsed after
    the colon; in every other case it has neither name nor [rest] and its
    type is parsed from the token the parameter starts at. *)
Theorem parseFunctionParameter_forms pt st p st' :
  identifierValueOk st ->
  parseFunctionParameter pt st = Ok (p, st') ->
  (token st = DotDotDotToken /\
   exists name type, p = FunctionParameter (Some name) (Some true) type) \/
  (token st = Identifier /\
   (exists sc, Scanner.scan (scanner st) = Ok (ColonToken, sc)) /\
   exists st1 st2 type,
     nextToken st = Ok (tt, st1) /\ nextToken st1 = Ok (tt, st2) /\
     pt st2 = Ok (type, st') /\
     p = FunctionParameter (Some (Scanner.getTokenValue (scanner st))) None type) \/
  (token st <> DotDotDotToken /\
   ~ (token st = Identifier /\
      exists sc, Scanner.scan (scanner st) = Ok (ColonToken, sc)) /\
   exists type,
     pt st = Ok (type, st') /\ p = FunctionParameter None None type).
Proof.
  intros Hst H. destruct (SyntaxKind_eq_dec (token st) DotDotDotToken) as [Hk|Hk].
  - left. split; [assumption|].
    destruct (parseFunctionParameter_rest_Ok _ _ _ _ Hk H)
      as (name & st1 & st2 & st3 & type & _ & _ & _ & _ & _ & _ & _ & _ & ->).
    eauto.
  - right. unfold parseFunctionParameter, parseFunctionParameterPrefix in H.
    inv_bind H as prefix st0 Hprefix.
    inv_bind Hprefix as k st00 Hget. unfold getToken in Hget.
    injection Hget as <- <-.
    pose proof Hk as Hk'. apply SyntaxKind_beq_neq in Hk'. rewrite Hk' in Hprefix.
    inv_bind Hprefix as named st1 Hla.
    pose proof (lookAheadNamedFunctionParameterStart_restores _ _ _ Hla) as ->.
    apply lookAheadNamedFunctionParameterStart_Ok in Hla.
    destruct named.
    + left. destruct (proj1 Hla eq_refl) as (Hid & Hscan).
      split; [assumption|]. split; [assumption|].
      inv_bind Hprefix as name st1 Hname.
      inv_bind Hprefix as u st2 Hcolon. destruct u.
      unfold ret in Hprefix. injection Hprefix as <- <-.
      inv_bind H as type st3 Htype. unfold ret in H. injection H as <- <-.
      apply parseIdentifier_Ok in Hname. destruct Hname as (_ & -> & Hnext).
      apply skipExpected_Ok in Hcolon. destruct Hcolon as (_ & Hnext2).
      exists st1, st2, type. repeat (split; [assumption|]).
      change (FunctionParameter
                (truthyName (Some (Scanner.getTokenValue (scanner st)))) None type
              = FunctionParameter
                  (Some (Scanner.getTokenValue (scanner st))) None type).
      now rewrite (isIdentifierWord_truthy _ (Hst Hid)).
    + right. split; [assumption|]. split.
      * intros Hnamed. apply Hla in Hnamed. discriminate Hnamed.
      * unfold ret in Hprefix. injection Hprefix as <- <-.
        inv_bind H as type st3 Htype. unfold ret in H. injection H as <- <-.
        eauto.
Qed.

(** The parameter [b: c] of [(a, b: c)], entered at [b]: it is of the
    second form. *)
Lemma parseFunctionParameter_forms_witness :
  (token (stateAt "b" Identifier ": c)") = DotDotDotToken /\
   exists name type,
     FunctionParameter (Some "b") None (Entity "c")
     = FunctionParameter (Some name) (Some true) type) \/
  (token (stateAt "b" Identifier ": c)") = Identifier /\
   (exists sc,
       Scanner.scan (scanner (stateAt "b" Identifier ": c)")) = Ok (ColonToken, sc)) /\
   exists st1 st2 type,
     nextToken (stateAt "b" Identifier ": c)") = Ok (tt, st1) /\
     nextToken st1 = Ok (tt, st2) /\
     parseType 2 st2 = Ok (type, stateAt "c" CloseParenToken "") /\
     FunctionParameter (Some "b") None (Entity "c")
     = FunctionParameter
         (Some (Scanner.getTokenValue (scanner (stateAt "b" Identifier ": c)"))))
         None type) \/
  (token (stateAt "b" Identifier ": c)") <> DotDotDotToken /\
   ~ (token (stateAt "b" Identifier ": c)") = Identifier /\
      exists sc,
        Scanner.scan (scanner (stateAt "b" Identifier ": c)")) = Ok (ColonToken, sc)) /\
   exists type,
     parseType 2 (stateAt "b" Identifier ": c)")
     = Ok (type, stateAt "c" CloseParenToken "") /\
     FunctionParameter (Some "b") None (Entity "c")
     = FunctionParameter None None type).
Proof.
  apply (parseFunctionParameter_forms (parseType 2)
           (stateAt "b" Identifier ": c)")
           (FunctionParameter (Some "b") None (Entity "c"))
           (stateAt "c" CloseParenToken "")).
  - intros _. reflexivity.
  - reflexivity.
Defined.

(** ** Tokens that start no list element *)

Lemma parseType_at_other_token fuel st :
  startsType (token st) = false ->
  parseType (S fuel) st = Err (UnableToParseToken (token st)).
Proof.
  intros Hk. cbn [parseType]. unfold bind at 1, getToken.
  destruct (token st); try discriminate Hk; reflexivity.
Qed.

Lemma parseFunctionParameter_at_other_token pt st :
  token st <> DotDotDotToken -> token st <> Identifier ->
  parseFunctionParameter pt st
  = bind pt (fun type => ret (FunctionParameter None None type)) st.
Proof.
  intros Hk Hid. apply parseFunctionParameter_unnamed with (st' := st);
    [assumption|].
  apply SyntaxKind_beq_neq in Hid.
  unfold lookAheadNamedFunctionParameterStart, Scanner.lookAhead,
    isNamedFunctionParameterStart.
  rewrite Hid. now destruct st.
Qed.

(** Where a list expects an element, a token that is neither the
    terminator of the list nor the start of an element raises an error at
    once: in a union and in a parameter list the dispatch error on that
    token, in a member list the failed [invariant] of [parseIdentifier].
    A comma is such a token, so a list cannot start with a comma or hold
    two commas in a row. *)
Theorem list_element_expected :
  (forall fuel fuel' result st,
      startsType (token st) = false ->
      token st <> GreaterThanToken ->
      parseDelimitedListLoop (S fuel) TypeParameters (parseType (S fuel')) result st
      = Err (UnableToParseToken (token st))) /\
  (forall fuel fuel' result st,
      startsType (token st) = false ->
      token st <> CloseParenToken ->
      token st <> DotDotDotToken ->
      parseDelimitedListLoop (S fuel) Parameters
        (parseFunctionParameter (parseType (S fuel'))) result st
      = Err (UnableToParseToken (token st))) /\
  (forall fuel pt result st,
      token st <> Identifier ->
      token st <> CloseBraceToken ->
      parseDelimitedListLoop (S fuel) LiteralTypeMembers
        (parseTypeLiteralMember pt) result st
      = Err InvariantViolation).
Proof.
  split; [|split].
  - intros fuel fuel' result st Hk Hterm.
    apply parseDelimitedListLoop_element_Err; [assumption|].
    now apply parseType_at_other_token.
  - intros fuel fuel' result st Hk Hterm Hdots.
    apply parseDelimitedListLoop_element_Err; [assumption|].
    rewrite parseFunctionParameter_at_other_token;
      [|assumption | intros Hid; rewrite Hid in Hk; discriminate Hk].
    unfold bind. now rewrite parseType_at_other_token.
  - intros fuel pt result st Hid Hterm.
    apply parseDelimitedListLoop_element_Err; [assumption|].
    unfold parseTypeLiteralMember, bind. now rewrite parseIdentifier_Err.
Qed.

(** The lists of [union<,a>], [(a,,b)] and [{,a: b}] at their misplaced
    comma. *)
Lemma list_element_expected_witness :
  parseDelimitedListLoop 3 TypeParameters (parseType 3) []
    (stateAt "" CommaToken "a>")
  = Err (UnableToParseToken CommaToken) /\
  parseDelimitedListLoop 3 Parameters (parseFunctionParameter (parseType 3))
    [FunctionParameter None None (Entity "a")] (stateAt "a" CommaToken "b)")
  = Err (UnableToParseToken CommaToken) /\
  parseDelimitedListLoop 3 LiteralTypeMembers (parseTypeLiteralMember (parseType 3))
    [] (stateAt "" CommaToken "a: b}")
  = Err InvariantViolation.
Proof.
  split; [|split].
  - apply (proj1 list_element_expected 2 2 [] (stateAt "" CommaToken "a>"));
      [reflexivity | discriminate].
  - apply (proj1 (proj2 list_element_expected) 2 2
             [FunctionParameter None None (Entity "a")]
             (stateAt "a" CommaToken "b)"));
      [reflexivity | discriminate | discriminate].
  - apply (proj2 (proj2 list_element_expected) 2 (parseType 3) []
             (stateAt "" CommaToken "a: b}"));
      discriminate.
Defined.
